(** * Flexible-sync subscription store: a shallow embedding of
      [src/realm/sync/subscriptions.cpp] and the properties of its
      state machine, commit pipeline, look-ups and JSON form. *)

From Stdlib Require Import ZArith String Ascii.
From stdpp Require Import base option list gmap strings sorting.

Local Open Scope Z_scope.

(** ** Exceptions and the result monad

    The C++ code reports failure by throwing.  A computation of the model
    either returns a value or names the exception that was thrown; nothing
    of the state built so far survives a throw, exactly as the caller of
    the throwing member function sees none of it returned. *)

Inductive exn : Type :=
  | LogicError_wrong_transact_state          (* LogicError(LogicError::wrong_transact_state) *)
  | logic_error (what : string)              (* std::logic_error *)
  | KeyNotFound                              (* realm::KeyNotFound *)
  | json_type_error                          (* nlohmann::json::dump refusing a string *)
  | BadVersion                               (* DB::BadVersion *)
  | signed_overflow                          (* int64_t arithmetic leaving its range *)
  | assertion_failed.                        (* REALM_ASSERT terminating the process *)

Inductive result (A : Type) : Type :=
  | Ok (a : A)
  | Throw (e : exn).
Arguments Ok {A} a.
Arguments Throw {A} e.

#[global] Instance result_ret : MRet result := λ A a, Ok a.
#[global] Instance result_bind : MBind result := λ A B k c,
  match c with
  | Ok a => k a
  | Throw e => Throw e
  end.

#[global] Instance result_fmap : FMap result := λ A B f c,
  match c with
  | Ok a => Ok (f a)
  | Throw e => Throw e
  end.

Definition is_ok {A} (c : result A) : bool :=
  match c with Ok _ => true | Throw _ => false end.

(** ** SubscriptionSet::State *)

Inductive State : Type :=
  | Uncommitted
  | Pending
  | Bootstrapping
  | Complete
  | Error
  | Superseded.

#[global] Instance State_eq_dec : EqDecision State.
Proof. solve_decision. Defined.

(** Modelled from the spec: the enumerators' integer values are declared in
    [subscriptions.hpp], which is not among the sources; section 6 of the
    specification gives them as [Uncommitted=0, Error=1, Pending=2,
    Bootstrapping=3, Complete=4, Superseded=5].  The relational operators
    the code applies to two [State] values compare these integers. *)
Definition state_code (s : State) : Z :=
  match s with
  | Uncommitted => 0
  | Error => 1
  | Pending => 2
  | Bootstrapping => 3
  | Complete => 4
  | Superseded => 5
  end.

(** [a >= b] on two [State] values, for a given coding of the
    enumerators, and for the coding above. *)
Definition state_ge_by (code : State → Z) (a b : State) : bool :=
  bool_decide (code b ≤ code a).

Definition state_ge (a b : State) : bool := state_ge_by state_code a b.

(** ** Values held by a subscription *)

Definition ObjectId := N.
Definition Timestamp := Z.

(** A [Query] enters this file only through its table's class name and its
    description. *)
Record Query : Type := mkQuery {
  query_class_name : string;     (* Group::table_name_to_class_name(query.get_table()->get_name()) *)
  query_description : string     (* query.get_description() *)
}.

Record Subscription : Type := mkSubscription {
  m_id : ObjectId;
  m_created_at : Timestamp;
  m_updated_at : Timestamp;
  m_name : option string;
  m_object_class_name : string;
  m_query_string : string
}.

#[global] Instance Subscription_eq_dec : EqDecision Subscription.
Proof. solve_decision. Defined.

(** [Subscription::Subscription(name, object_class_name, query_str)]: the
    generated identifier and the clock reading are inputs of the model. *)
Definition Subscription_new (gen : ObjectId) (now : Timestamp)
    (name : option string) (object_class_name query_str : string) : Subscription :=
  {| m_id := gen; m_created_at := now; m_updated_at := now; m_name := name;
     m_object_class_name := object_class_name; m_query_string := query_str |}.

Definition has_name (sub : Subscription) : bool :=
  match m_name sub with Some _ => true | None => false end.

Definition name (sub : Subscription) : string :=
  match m_name sub with
  | None => ""
  | Some n => n
  end.

Definition string_empty (s : string) : bool :=
  match s with EmptyString => true | String _ _ => false end.

(** ** The persisted tables

    [flx_subscriptions] rows are embedded objects; [flx_subscription_sets]
    rows are keyed by their [version].  The [state] column holds
    [static_cast<int64_t>(state)] and is only ever written through that
    cast, so the model keeps the enumerator; a freshly created row has the
    integer 0 there, which is [Uncommitted].  Nullable string columns are
    [option string]. *)

Record SubObj : Type := mkSubObj {
  col_sub_id : ObjectId;
  col_sub_created_at : Timestamp;
  col_sub_updated_at : Timestamp;
  col_sub_name : option string;
  col_sub_object_class_name : string;
  col_sub_query_str : string
}.

Record SubSetObj : Type := mkSubSetObj {
  col_sub_set_state : State;
  col_sub_set_snapshot_version : Z;
  col_sub_set_error_str : option string;
  col_sub_set_subscriptions : list SubObj
}.

(** The row [create_object_with_primary_key] makes: every column at its
    default. *)
Definition new_SubSetObj : SubSetObj :=
  {| col_sub_set_state := Uncommitted; col_sub_set_snapshot_version := 0;
     col_sub_set_error_str := None; col_sub_set_subscriptions := [] |}.

(** The row [create_and_insert_linked_object] makes. *)
Definition new_SubObj : SubObj :=
  {| col_sub_id := 0%N; col_sub_created_at := 0; col_sub_updated_at := 0;
     col_sub_name := None; col_sub_object_class_name := ""; col_sub_query_str := "" |}.

Abbreviation Table := (gmap Z SubSetObj).

(** ** The host database, as far as this file drives it *)

(** Modelled from the spec: the transactional database is a collaborator
    whose code is not among the sources; sections 5 and 6 of the
    specification describe what is consumed of it.  One committed snapshot
    with its version number; a write transaction works on a private copy
    and publishes it on commit, which produces the next snapshot version.
    The single-writer discipline of the host makes the copy taken by
    [start_write] the latest snapshot. *)
Inductive transact_stage : Type := transact_Ready | transact_Reading | transact_Writing | transact_Frozen.

#[global] Instance transact_stage_eq_dec : EqDecision transact_stage.
Proof. solve_decision. Defined.

Record Transaction : Type := mkTransaction {
  tr_stage : transact_stage;
  tr_version : Z;                 (* Transaction::get_version() *)
  tr_table : Table                (* flx_subscription_sets as this transaction sees it *)
}.

Record DB : Type := mkDB {
  db_version : Z;                 (* DB::get_version_of_latest_snapshot() *)
  db_table : Table
}.

Definition start_write (db : DB) : Transaction :=
  {| tr_stage := transact_Writing; tr_version := db_version db; tr_table := db_table db |}.

Definition start_read (db : DB) : Transaction :=
  {| tr_stage := transact_Reading; tr_version := db_version db; tr_table := db_table db |}.

(** [start_frozen(version)]: the default [VersionID{}] means the latest
    snapshot.  The model keeps the latest snapshot only; an older one is
    reported as no longer available. *)
Definition start_frozen (db : DB) (version : option Z) : result Transaction :=
  match version with
  | None => Ok {| tr_stage := transact_Frozen; tr_version := db_version db; tr_table := db_table db |}
  | Some v =>
      if decide (v = db_version db)
      then Ok {| tr_stage := transact_Frozen; tr_version := v; tr_table := db_table db |}
      else Throw BadVersion
  end.

(** [commit_and_continue_as_read]: publishes the transaction's table as
    the next snapshot and leaves the transaction reading it. *)
Definition commit_and_continue_as_read (db : DB) (tr : Transaction) : DB * Transaction :=
  let v := db_version db + 1 in
  ({| db_version := v; db_table := tr_table tr |},
   {| tr_stage := transact_Reading; tr_version := v; tr_table := tr_table tr |}).

(** Modelled from the spec: [Obj::set] on the row with primary key [pk];
    an accessor whose row is gone throws. *)
Definition obj_set (tr : Transaction) (pk : Z) (f : SubSetObj → SubSetObj) : result Transaction :=
  match tr_table tr !! pk with
  | Some row =>
      Ok {| tr_stage := tr_stage tr; tr_version := tr_version tr;
            tr_table := <[pk := f row]> (tr_table tr) |}
  | None => Throw KeyNotFound
  end.

(** Modelled from the spec: [Table::maximum_int] over the primary-key
    column, "max(primary_key)", of a table that has rows; [None] on a table
    without rows. *)
Definition max_key (t : Table) : option Z :=
  match (map_to_list t).*1 with
  | [] => None
  | k :: ks => Some (foldr Z.max k ks)
  end.

(** Modelled from the spec: an [Obj] accessor.  [None] is the detached
    [Obj{}], [Some pk] refers to the row with that primary key in the
    transaction at hand; looking up a key that has no row throws
    [KeyNotFound]. *)
Definition Obj := option Z.

Definition get_object_with_primary_key (tr : Transaction) (pk : Z) : result Obj :=
  match tr_table tr !! pk with
  | Some _ => Ok (Some pk)
  | None => Throw KeyNotFound
  end.

(** ** Declarations this translation unit takes from elsewhere

    Values fixed by headers and by the host database that are not part of
    the sources at hand.  Every definition below that needs one takes it
    from this class, and every theorem holds for all instances. *)

Class HostDecls : Type := {
  maximum_int_empty : Z;             (* Table::maximum_int on a table without rows *)
  init_cur_version : Z;              (* in-class initialiser of SubscriptionSet::m_cur_version *)
  init_snapshot_version : Z;         (* in-class initialiser of SubscriptionSet::m_snapshot_version *)
  init_min_outstanding_version : Z   (* in-class initialiser of m_min_outstanding_version *)
}.

Definition INT64_MAX : Z := 9223372036854775807.

Section Store.
Context `{HostDecls}.

Definition maximum_int (t : Table) : Z :=
  match max_key t with
  | Some m => m
  | None => maximum_int_empty
  end.

(** ** SubscriptionSet *)

Record SubscriptionSet : Type := mkSubscriptionSet {
  m_cur_version : Z;
  m_version : Z;
  m_state : State;
  m_error_str : string;
  m_snapshot_version : Z;
  m_subs : list Subscription
}.

(** What the in-class initialisers leave in a set that loads nothing. *)
Definition SubscriptionSet_init : SubscriptionSet :=
  {| m_cur_version := init_cur_version; m_version := 0; m_state := Uncommitted;
     m_error_str := ""; m_snapshot_version := init_snapshot_version; m_subs := [] |}.

(** [m_mgr.lock()]: the store a set points to weakly may be gone. *)
Definition get_flx_subscription_store {A} (m_mgr : option A) : result A :=
  match m_mgr with
  | Some mgr => Ok mgr
  | None => Throw (logic_error "Active SubscriptionSet without a SubscriptionStore")
  end.

(** [Subscription::Subscription(parent, obj)] *)
Definition Subscription_of_obj (obj : SubObj) : Subscription :=
  {| m_id := col_sub_id obj;
     m_created_at := col_sub_created_at obj;
     m_updated_at := col_sub_updated_at obj;
     m_name := col_sub_name obj;
     m_object_class_name := col_sub_object_class_name obj;
     m_query_string := col_sub_query_str obj |}.

(** [obj.get<String>] of a null string column converts to the empty
    [std::string]. *)
Definition string_of_column (c : option string) : string :=
  match c with Some s => s | None => "" end.

Definition load_from_database {A} (m_mgr : option A) (tr : Transaction) (pk : Z) (row : SubSetObj)
    : result SubscriptionSet :=
  _ ← get_flx_subscription_store m_mgr;
  Ok {| m_cur_version := tr_version tr;
        m_version := pk;
        m_state := col_sub_set_state row;
        m_error_str := string_of_column (col_sub_set_error_str row);
        m_snapshot_version := col_sub_set_snapshot_version row;
        m_subs := Subscription_of_obj <$> col_sub_set_subscriptions row |}.

(** [SubscriptionSet::SubscriptionSet(mgr, tr, obj)] *)
Definition SubscriptionSet_new {A} (m_mgr : option A) (tr : Transaction) (obj : Obj)
    : result SubscriptionSet :=
  match obj with
  | Some pk =>
      match tr_table tr !! pk with
      | Some row => load_from_database m_mgr tr pk row
      | None => Ok SubscriptionSet_init
      end
  | None => Ok SubscriptionSet_init
  end.

(** [SubscriptionSet::SubscriptionSet(mgr, version, SupersededTag)] *)
Definition SubscriptionSet_superseded (version : Z) : SubscriptionSet :=
  {| m_cur_version := init_cur_version; m_version := version; m_state := Superseded;
     m_error_str := ""; m_snapshot_version := init_snapshot_version; m_subs := [] |}.

Definition version (self : SubscriptionSet) : Z := m_version self.
Definition state (self : SubscriptionSet) : State := m_state self.
Definition error_str (self : SubscriptionSet) : string := m_error_str self.

(** ** The store and its notification registry

    A promise is known by a number; resolving it, committing a
    transaction and calling [m_on_new_subscription_set] are the effects an
    observer can see, and [m_trace] records them in the order the code
    performs them.  [m_outstanding_requests], the gate between concurrent
    threads, is back at zero whenever one call has run to its end and is
    left out. *)

Record NotificationRequest : Type := mkNotificationRequest {
  nr_version : Z;
  nr_promise : nat;
  nr_notify_when : State
}.

Inductive event : Type :=
  | EvCommit (snapshot : Z)                       (* a write transaction published snapshot [snapshot] *)
  | EvPromiseValue (promise : nat) (s : State)    (* promise.emplace_value(s) *)
  | EvPromiseError (promise : nat) (msg : string) (* promise.set_error({RuntimeError, msg}) *)
  | EvOnNewSubscriptionSet (version : Z).         (* m_on_new_subscription_set(version) *)

Record SubscriptionStore : Type := mkSubscriptionStore {
  m_db : DB;
  m_pending_notifications : list NotificationRequest;
  m_min_outstanding_version : Z;
  m_next_promise : nat;
  m_trace : list event
}.

Definition with_db (st : SubscriptionStore) (db : DB) : SubscriptionStore :=
  {| m_db := db; m_pending_notifications := m_pending_notifications st;
     m_min_outstanding_version := m_min_outstanding_version st;
     m_next_promise := m_next_promise st; m_trace := m_trace st |}.

Definition emit (st : SubscriptionStore) (evs : list event) : SubscriptionStore :=
  {| m_db := m_db st; m_pending_notifications := m_pending_notifications st;
     m_min_outstanding_version := m_min_outstanding_version st;
     m_next_promise := m_next_promise st; m_trace := m_trace st ++ evs |}.

(** [SubscriptionStore::SubscriptionStore]: the table is seeded with
    version 0 in state [Pending] when it has no rows.  (The schema-version
    check concerns tables outside this model.) *)
Definition SubscriptionStore_new (db : DB) : SubscriptionStore :=
  let db' :=
    if decide (db_table db = ∅)
    then {| db_version := db_version db + 1;
            db_table := <[0 := {| col_sub_set_state := Pending;
                                  col_sub_set_snapshot_version := db_version db;
                                  col_sub_set_error_str := None;
                                  col_sub_set_subscriptions := [] |}]> (db_table db) |}
    else db in
  {| m_db := db'; m_pending_notifications := [];
     m_min_outstanding_version := init_min_outstanding_version;
     m_next_promise := 0%nat; m_trace := [] |}.

(** [SubscriptionStore::get_by_version_impl] *)
Definition get_by_version_impl (self : SubscriptionStore) (version_id : Z) (db_version : option Z)
    : result SubscriptionSet :=
  tr ← start_frozen (m_db self) db_version;
  match get_object_with_primary_key tr version_id with
  | Ok obj => SubscriptionSet_new (Some self) tr obj
  | Throw KeyNotFound =>
      if decide (version_id < m_min_outstanding_version self)
      then Ok (SubscriptionSet_superseded version_id)
      else Throw KeyNotFound
  | Throw e => Throw e
  end.

Definition get_by_version (self : SubscriptionStore) (version_id : Z) : result SubscriptionSet :=
  get_by_version_impl self version_id None.

(** [SubscriptionStore::supercede_prior_to]: one query removal of the rows
    whose primary key is less than [version_id]. *)
Definition supercede_prior_to (tr : Transaction) (version_id : Z) : Transaction :=
  {| tr_stage := tr_stage tr; tr_version := tr_version tr;
     tr_table := filter (λ kv, ¬ kv.1 < version_id) (tr_table tr) |}.

(** [SubscriptionStore::get_active_and_latest_versions] *)
Definition complete_keys (t : Table) : Table :=
  filter (λ kv, col_sub_set_state kv.2 = Complete) t.

Definition get_active_and_latest_versions (self : SubscriptionStore) : Z * Z :=
  let tr := start_read (m_db self) in
  let sub_sets := tr_table tr in
  if decide (sub_sets = ∅) then (0, 0)
  else
    let latest_id := maximum_int sub_sets in
    (* sort by primary key, descending, limit 1 *)
    match max_key (complete_keys sub_sets) with
    | None => (-1, latest_id)
    | Some active_id => (active_id, latest_id)
    end.

(** ** MutableSubscriptionSet

    The base-class part is [base]; iterators into [m_subs] are positions,
    [end()] being the length. *)

Record MutableSubscriptionSet : Type := mkMutableSubscriptionSet {
  base : SubscriptionSet;
  m_tr : Transaction;
  m_obj : Obj;
  m_old_state : State
}.

Definition with_base (self : MutableSubscriptionSet) (b : SubscriptionSet) : MutableSubscriptionSet :=
  {| base := b; m_tr := m_tr self; m_obj := m_obj self; m_old_state := m_old_state self |}.

Definition with_tr (self : MutableSubscriptionSet) (tr : Transaction) : MutableSubscriptionSet :=
  {| base := base self; m_tr := tr; m_obj := m_obj self; m_old_state := m_old_state self |}.

Definition set_state (b : SubscriptionSet) (s : State) : SubscriptionSet :=
  {| m_cur_version := m_cur_version b; m_version := m_version b; m_state := s;
     m_error_str := m_error_str b; m_snapshot_version := m_snapshot_version b;
     m_subs := m_subs b |}.

Definition set_error_str (b : SubscriptionSet) (e : string) : SubscriptionSet :=
  {| m_cur_version := m_cur_version b; m_version := m_version b; m_state := m_state b;
     m_error_str := e; m_snapshot_version := m_snapshot_version b;
     m_subs := m_subs b |}.

Definition set_subs (b : SubscriptionSet) (l : list Subscription) : SubscriptionSet :=
  {| m_cur_version := m_cur_version b; m_version := m_version b; m_state := m_state b;
     m_error_str := m_error_str b; m_snapshot_version := m_snapshot_version b;
     m_subs := l |}.

(** [MutableSubscriptionSet::MutableSubscriptionSet(mgr, tr, obj)] *)
Definition MutableSubscriptionSet_new {A} (m_mgr : option A) (tr : Transaction) (obj : Obj)
    : result MutableSubscriptionSet :=
  b ← SubscriptionSet_new m_mgr tr obj;
  Ok {| base := b; m_tr := tr; m_obj := obj; m_old_state := state b |}.

Definition check_is_mutable (self : MutableSubscriptionSet) : result unit :=
  if decide (tr_stage (m_tr self) ≠ transact_Writing)
  then Throw LogicError_wrong_transact_state
  else Ok ().

(** [std::find_if] over a vector: the position of the first element that
    satisfies [p], or the length when there is none. *)
Fixpoint find_if {A} (p : A → bool) (l : list A) : nat :=
  match l with
  | [] => 0%nat
  | x :: l' => if p x then 0%nat else S (find_if p l')
  end.

Definition erase (self : MutableSubscriptionSet) (it : nat) : result (MutableSubscriptionSet * nat) :=
  _ ← check_is_mutable self;
  if decide (it = length (m_subs (base self))) then Throw assertion_failed
  else Ok (with_base self (set_subs (base self) (delete it (m_subs (base self)))), it).

Definition clear (self : MutableSubscriptionSet) : result MutableSubscriptionSet :=
  _ ← check_is_mutable self;
  Ok (with_base self (set_subs (base self) [])).

Definition insert_sub (self : MutableSubscriptionSet) (sub : Subscription)
    : result MutableSubscriptionSet :=
  _ ← check_is_mutable self;
  Ok (with_base self (set_subs (base self) (m_subs (base self) ++ [sub]))).

Definition assign_sub (object_class_name query_str : string) (now : Timestamp)
    (sub : Subscription) : Subscription :=
  {| m_id := m_id sub; m_created_at := m_created_at sub; m_updated_at := now;
     m_name := m_name sub; m_object_class_name := object_class_name;
     m_query_string := query_str |}.

(** [gen] and [now] stand for [ObjectId::gen()] and the system clock. *)
Definition insert_or_assign_impl (self : MutableSubscriptionSet) (it : nat)
    (name : option string) (object_class_name query_str : string)
    (gen : ObjectId) (now : Timestamp) : result (MutableSubscriptionSet * (nat * bool)) :=
  _ ← check_is_mutable self;
  let subs := m_subs (base self) in
  if decide (it ≠ length subs) then
    Ok (with_base self (set_subs (base self) (alter (assign_sub object_class_name query_str now) it subs)),
        (it, false))
  else
    Ok (with_base self (set_subs (base self)
          (subs ++ [Subscription_new gen now name object_class_name query_str])),
        (length subs, true)).

(** The predicates of the two [std::find_if] calls. *)
Definition named_match (name_ : string) (sub : Subscription) : bool :=
  has_name sub && bool_decide (name sub = name_).

Definition anonymous_match (table_name query_str : string) (sub : Subscription) : bool :=
  string_empty (name sub)
  && bool_decide (m_object_class_name sub = table_name)
  && bool_decide (m_query_string sub = query_str).

(** [insert_or_assign(std::string_view name, const Query& query)] *)
Definition insert_or_assign_named (self : MutableSubscriptionSet) (name_ : string) (query : Query)
    (gen : ObjectId) (now : Timestamp) : result (MutableSubscriptionSet * (nat * bool)) :=
  let table_name := query_class_name query in
  let query_str := query_description query in
  let it := find_if (named_match name_) (m_subs (base self)) in
  insert_or_assign_impl self it (Some name_) table_name query_str gen now.

(** [insert_or_assign(const Query& query)] *)
Definition insert_or_assign (self : MutableSubscriptionSet) (query : Query)
    (gen : ObjectId) (now : Timestamp) : result (MutableSubscriptionSet * (nat * bool)) :=
  let table_name := query_class_name query in
  let query_str := query_description query in
  let it := find_if (anonymous_match table_name query_str) (m_subs (base self)) in
  insert_or_assign_impl self it None table_name query_str gen now.

(** The range-for over [src_subs] calling [insert_sub]. *)
Fixpoint insert_subs (self : MutableSubscriptionSet) (l : list Subscription)
    : result MutableSubscriptionSet :=
  match l with
  | [] => Ok self
  | sub :: l' => self' ← insert_sub self sub; insert_subs self' l'
  end.

Definition import (self : MutableSubscriptionSet) (src_subs : SubscriptionSet)
    : result MutableSubscriptionSet :=
  self' ← clear self;
  insert_subs self' (m_subs src_subs).

Definition update_state (m_mgr : option SubscriptionStore) (self : MutableSubscriptionSet)
    (new_state : State) (error_str : option string) : result MutableSubscriptionSet :=
  _ ← check_is_mutable self;
  let old_state := state (base self) in
  match new_state with
  | Uncommitted => Throw (logic_error "cannot set subscription set state to uncommitted")
  | Error =>
      if bool_decide (old_state ≠ Bootstrapping) && bool_decide (old_state ≠ Pending)
         && bool_decide (old_state ≠ Uncommitted)
      then Throw (logic_error
             "subscription set must be in Bootstrapping or Pending to update state to error")
      else
        match error_str with
        | None => Throw (logic_error
             "Must supply an error message when setting a subscription to the error state")
        | Some e => Ok (with_base self (set_error_str (set_state (base self) new_state) e))
        end
  | Bootstrapping =>
      match error_str with
      | Some _ => Throw (logic_error
             "Cannot supply an error message for a subscription set when state is not Error")
      | None => Ok (with_base self (set_state (base self) new_state))
      end
  | Complete =>
      match error_str with
      | Some _ => Throw (logic_error
             "Cannot supply an error message for a subscription set when state is not Error")
      | None =>
          _ ← get_flx_subscription_store m_mgr;
          let self' := with_base self (set_state (base self) new_state) in
          Ok (with_tr self' (supercede_prior_to (m_tr self') (version (base self'))))
      end
  | Superseded => Throw (logic_error "Cannot set a subscription to the superseded state")
  | Pending => Throw (logic_error "Cannot set subscription set to the pending state")
  end.

(** [SubscriptionStore::get_mutable_by_version] *)
Definition get_mutable_by_version (self : SubscriptionStore) (version_id : Z)
    : result MutableSubscriptionSet :=
  let tr := start_write (m_db self) in
  obj ← get_object_with_primary_key tr version_id;
  MutableSubscriptionSet_new (Some self) tr obj.

(** Modelled from the spec: [Table::create_object_with_primary_key].  The
    row is made with every column at its default unless the key is already
    there. *)
Definition create_object_with_primary_key (tr : Transaction) (pk : Z) : Transaction * Obj :=
  match tr_table tr !! pk with
  | Some _ => (tr, Some pk)
  | None =>
      ({| tr_stage := tr_stage tr; tr_version := tr_version tr;
          tr_table := <[pk := new_SubSetObj]> (tr_table tr) |}, Some pk)
  end.

(** [SubscriptionStore::make_mutable_copy].  [maximum_int(...) + 1] is
    computed in [int64_t], where leaving the range is undefined: the model
    has no result there. *)
Definition make_mutable_copy (self : SubscriptionStore) (set : SubscriptionSet)
    : result MutableSubscriptionSet :=
  let new_tr := start_write (m_db self) in
  let sub_sets := tr_table new_tr in
  if decide (INT64_MAX ≤ maximum_int sub_sets) then Throw signed_overflow
  else
    let new_pk := maximum_int sub_sets + 1 in
    let '(new_tr, obj) := create_object_with_primary_key new_tr new_pk in
    new_set_obj ← MutableSubscriptionSet_new (Some self) new_tr obj;
    insert_subs new_set_obj (m_subs set).

(** [SubscriptionSet::make_mutable_copy] *)
Definition SubscriptionSet_make_mutable_copy (m_mgr : option SubscriptionStore)
    (self : SubscriptionSet) : result MutableSubscriptionSet :=
  mgr ← get_flx_subscription_store m_mgr;
  make_mutable_copy mgr self.

(** ** Notifications *)

(** The test of the loop in [process_notifications] that moves a request
    to [to_finish]. *)
Definition finishes (new_state : State) (my_version : Z) (req : NotificationRequest) : bool :=
  (bool_decide (nr_version req = my_version)
   && (bool_decide (new_state = Error) || state_ge new_state (nr_notify_when req)))
  || (bool_decide (new_state = Complete) && bool_decide (nr_version req < my_version)).

(** The body of the loop over [to_finish]. *)
Definition fulfil (new_state : State) (my_version : Z) (err : string)
    (req : NotificationRequest) : event :=
  if bool_decide (new_state = Error) && bool_decide (nr_version req = my_version)
  then EvPromiseError (nr_promise req) err
  else if bool_decide (nr_version req < my_version)
  then EvPromiseValue (nr_promise req) Superseded
  else EvPromiseValue (nr_promise req) new_state.

Definition process_notifications (m_mgr : option SubscriptionStore)
    (self : MutableSubscriptionSet) : result SubscriptionStore :=
  mgr ← get_flx_subscription_store m_mgr;
  let new_state := state (base self) in
  let my_version := version (base self) in
  let to_finish := filter (λ req, finishes new_state my_version req) (m_pending_notifications mgr) in
  let remaining := filter (λ req, ¬ finishes new_state my_version req) (m_pending_notifications mgr) in
  let min_outstanding :=
    if decide (new_state = Complete) then my_version else m_min_outstanding_version mgr in
  Ok {| m_db := m_db mgr;
        m_pending_notifications := remaining;
        m_min_outstanding_version := min_outstanding;
        m_next_promise := m_next_promise mgr;
        m_trace := m_trace mgr ++ (fulfil new_state my_version (error_str (base self)) <$> to_finish) |}.

(** [SubscriptionStore::supercede_all_except]: the rows below the set's
    version leave its write transaction, every request for another version
    is resolved with [Superseded], and the watermark moves to the set's
    version.  [REALM_ASSERT_EX] ends the process when the watermark is
    already above it. *)
Definition supercede_all_except (self : SubscriptionStore) (mut_sub : MutableSubscriptionSet)
    : result (SubscriptionStore * MutableSubscriptionSet) :=
  let version_to_keep := version (base mut_sub) in
  let mut_sub := with_tr mut_sub (supercede_prior_to (m_tr mut_sub) version_to_keep) in
  let to_finish :=
    filter (λ req, nr_version req ≠ version_to_keep) (m_pending_notifications self) in
  let remaining :=
    filter (λ req, ¬ nr_version req ≠ version_to_keep) (m_pending_notifications self) in
  if decide (version_to_keep >= m_min_outstanding_version self) then
    Ok ({| m_db := m_db self;
           m_pending_notifications := remaining;
           m_min_outstanding_version := version_to_keep;
           m_next_promise := m_next_promise self;
           m_trace := m_trace self
                      ++ ((λ req, EvPromiseValue (nr_promise req) Superseded) <$> to_finish) |},
        mut_sub)
  else Throw assertion_failed.

Inductive Future : Type :=
  | make_ready (s : State)              (* Future<State>::make_ready(s) *)
  | make_ready_error (msg : string)     (* make_ready(Status{RuntimeError, msg}) *)
  | future_of (promise : nat).          (* the future of a registered promise *)

Definition would_refresh (self : SubscriptionStore) (version : Z) : bool :=
  bool_decide (version < db_version (m_db self)).

(** The state and message [get_state_change_notification] goes by: the
    set's own, or those read back from the store when the database has
    moved on since the set was made. *)
Definition observed_state (mgr : SubscriptionStore) (self : SubscriptionSet)
    : result (State * string) :=
  if decide (m_cur_version self < db_version (m_db mgr))
  then refreshed_self ← get_by_version mgr (version self);
       Ok (state refreshed_self, error_str refreshed_self)
  else Ok (state self, error_str self).

Definition get_state_change_notification (m_mgr : option SubscriptionStore)
    (self : SubscriptionSet) (notify_when : State) : result (SubscriptionStore * Future) :=
  mgr ← get_flx_subscription_store m_mgr;
  if decide (m_min_outstanding_version mgr > version self)
  then Ok (mgr, make_ready Superseded)
  else
    '(cur_state, err_str) ← observed_state mgr self;
    if decide (cur_state = Error) then Ok (mgr, make_ready_error err_str)
    else if state_ge cur_state notify_when then Ok (mgr, make_ready cur_state)
    else
      let promise := m_next_promise mgr in
      Ok ({| m_db := m_db mgr;
             m_pending_notifications :=
               m_pending_notifications mgr
               ++ [{| nr_version := version self; nr_promise := promise;
                      nr_notify_when := notify_when |}];
             m_min_outstanding_version := m_min_outstanding_version mgr;
             m_next_promise := S promise;
             m_trace := m_trace mgr |},
          future_of promise).

(** [SubscriptionSet::refresh] *)
Definition refresh (m_mgr : option SubscriptionStore) (self : SubscriptionSet)
    : result SubscriptionSet :=
  mgr ← get_flx_subscription_store m_mgr;
  if would_refresh mgr (m_cur_version self) then get_by_version mgr (version self)
  else Ok self.

(** ** commit *)

(** The fields [commit] sets on a row made by
    [create_and_insert_linked_object]. *)
Definition SubObj_of_sub (sub : Subscription) : SubObj :=
  {| col_sub_id := m_id sub;
     col_sub_created_at := m_created_at sub;
     col_sub_updated_at := m_updated_at sub;
     col_sub_name := match m_name sub with
                     | Some _ => Some (name sub)
                     | None => col_sub_name new_SubObj
                     end;
     col_sub_object_class_name := m_object_class_name sub;
     col_sub_query_str := m_query_string sub |}.

(** The loop over [m_subs]: each row goes to the end of the link list. *)
Definition write_subs (subs : list Subscription) : list SubObj :=
  fold_left (λ obj_sub_list sub, obj_sub_list ++ [SubObj_of_sub sub]) subs [].

Definition row_set_snapshot_version (v : Z) (row : SubSetObj) : SubSetObj :=
  {| col_sub_set_state := col_sub_set_state row; col_sub_set_snapshot_version := v;
     col_sub_set_error_str := col_sub_set_error_str row;
     col_sub_set_subscriptions := col_sub_set_subscriptions row |}.

Definition row_set_subscriptions (l : list SubObj) (row : SubSetObj) : SubSetObj :=
  {| col_sub_set_state := col_sub_set_state row;
     col_sub_set_snapshot_version := col_sub_set_snapshot_version row;
     col_sub_set_error_str := col_sub_set_error_str row;
     col_sub_set_subscriptions := l |}.

Definition row_set_state (s : State) (row : SubSetObj) : SubSetObj :=
  {| col_sub_set_state := s;
     col_sub_set_snapshot_version := col_sub_set_snapshot_version row;
     col_sub_set_error_str := col_sub_set_error_str row;
     col_sub_set_subscriptions := col_sub_set_subscriptions row |}.

Definition row_set_error_str (e : string) (row : SubSetObj) : SubSetObj :=
  {| col_sub_set_state := col_sub_set_state row;
     col_sub_set_snapshot_version := col_sub_set_snapshot_version row;
     col_sub_set_error_str := Some e;
     col_sub_set_subscriptions := col_sub_set_subscriptions row |}.

(** [m_obj.set(...)]: the accessor must still have its row. *)
Definition m_obj_set (self : MutableSubscriptionSet) (tr : Transaction)
    (f : SubSetObj → SubSetObj) : result Transaction :=
  match m_obj self with
  | Some pk => obj_set tr pk f
  | None => Throw KeyNotFound
  end.

(** The state [commit] persists: a new set that is still [Uncommitted]
    becomes [Pending]. *)
Definition post_commit_state (self : MutableSubscriptionSet) : State :=
  if decide (m_old_state self = Uncommitted)
  then if decide (m_state (base self) = Uncommitted) then Pending else m_state (base self)
  else m_state (base self).

(** The first half of [commit]: what it writes to the row before the
    transaction is committed.  Returns the set (whose state may have been
    promoted) and the transaction. *)
Definition commit_write (self : MutableSubscriptionSet)
    : result (MutableSubscriptionSet * Transaction) :=
  '(self, tr) ←
    (if decide (m_old_state self = Uncommitted) then
       let self :=
         if decide (m_state (base self) = Uncommitted)
         then with_base self (set_state (base self) Pending) else self in
       tr ← m_obj_set self (m_tr self) (row_set_snapshot_version (tr_version (m_tr self)));
       tr ← m_obj_set self tr (row_set_subscriptions []);
       tr ← m_obj_set self tr (row_set_subscriptions (write_subs (m_subs (base self))));
       Ok (self, tr)
     else Ok (self, m_tr self));
  tr ← m_obj_set self tr (row_set_state (m_state (base self)));
  tr ← (if negb (string_empty (m_error_str (base self)))
        then m_obj_set self tr (row_set_error_str (m_error_str (base self)))
        else Ok tr);
  Ok (self, tr).

Definition commit (m_mgr : option SubscriptionStore) (self : MutableSubscriptionSet)
    : result (SubscriptionStore * SubscriptionSet) :=
  if decide (tr_stage (m_tr self) ≠ transact_Writing)
  then Throw (logic_error "SubscriptionSet is not in a commitable state")
  else
    mgr ← get_flx_subscription_store m_mgr;
    '(self, tr) ← commit_write self;
    let flx_version := version (base self) in
    let '(db, tr) := commit_and_continue_as_read (m_db mgr) tr in
    let mgr := emit (with_db mgr db) [EvCommit (db_version db)] in
    let self := with_tr self tr in
    mgr ← process_notifications (Some mgr) self;
    let mgr :=
      if decide (state (base self) = Pending)
      then emit mgr [EvOnNewSubscriptionSet flx_version] else mgr in
    set ← get_by_version_impl mgr flx_version (Some (tr_version tr));
    Ok (mgr, set).

End Store.

(** ** The external (JSON) form

    [util::FlatMap<std::string, std::vector<std::string>>] and the object
    of [nlohmann::json] are maps from strings; both are walked in the order
    of their keys.  [FlatMap::at] on a key that is absent adds it with an
    empty vector (the loop below would otherwise never get past its first
    subscription).  How the JSON library writes one string (the escapes,
    and its refusal of bytes that are not UTF-8) is a parameter. *)

Definition string_le (a b : string) : Prop := String.leb a b.

#[global] Instance string_le_dec a b : Decision (string_le a b).
Proof. unfold string_le. apply _. Defined.

Definition dquote : string :=
  String (Ascii.Ascii false true false false false true false false) EmptyString.

Section ExtJson.
Variable json_escape : string → option string.

Definition add_query (table_to_query : gmap string (list string)) (sub : Subscription)
    : gmap string (list string) :=
  let table_name := m_object_class_name sub in
  let queries_for_table := default [] (table_to_query !! table_name) in
  if bool_decide (m_query_string sub ∈ queries_for_table)
  then <[table_name := queries_for_table]> table_to_query
  else <[table_name := queries_for_table ++ [m_query_string sub]]> table_to_query.

(** The inner loop writing [obuf]. *)
Fixpoint or_join (is_first : bool) (queries : list string) : string :=
  match queries with
  | [] => ""
  | query_str :: rest =>
      ((if is_first then "" else " OR ") +:+ "(" +:+ query_str +:+ ")" +:+ or_join false rest)%string
  end.

(** [std::stable_sort] with [operator<] of [std::string]: the vectors
    sorted here hold no string twice, so the order among equal elements
    does not arise. *)
Definition stable_sort (queries : list string) : list string := merge_sort string_le queries.

Definition dump_string (s : string) : result string :=
  match json_escape s with
  | Some e => Ok (dquote +:+ e +:+ dquote)%string
  | None => Throw json_type_error
  end.

Fixpoint dump_members (is_first : bool) (members : list (string * string)) : result string :=
  match members with
  | [] => Ok ""%string
  | (k, v) :: rest =>
      k' ← dump_string k;
      v' ← dump_string v;
      rest' ← dump_members false rest;
      Ok ((if is_first then "" else ",") +:+ k' +:+ ":" +:+ v' +:+ rest')%string
  end.

(** Modelled from the spec: [json::dump()] of an object, "one JSON object;
    keys are object class names, values are strings", its members in key
    order and without white space. *)
Definition dump (output_json : gmap string string) : result string :=
  let members := merge_sort (λ a b, string_le a.1 b.1) (map_to_list output_json) in
  body ← dump_members true members;
  Ok ("{" +:+ body +:+ "}")%string.

Definition table_to_query_of (subs : list Subscription) : gmap string (list string) :=
  fold_left add_query subs ∅.

(** [add_query] looks at the class and the query of its subscription
    only; [add_pair] is the same step on that pair. *)
Definition pair_of (sub : Subscription) : string * string :=
  (m_object_class_name sub, m_query_string sub).

Definition add_pair (p : string * string) (m : gmap string (list string))
    : gmap string (list string) :=
  let l := default [] (m !! p.1) in
  <[p.1 := if bool_decide (p.2 ∈ l) then l else l ++ [p.2]]> m.

(** Two tables with the same keys whose vectors agree up to order. *)
Definition tables_agree (m1 m2 : gmap string (list string)) : Prop :=
  ∀ c, option_Forall2 (≡ₚ) (m1 !! c) (m2 !! c).

(** The pairs a set registers, in the order of its subscriptions. *)
Definition class_query_pairs (self : SubscriptionSet) : list (string * string) :=
  pair_of <$> m_subs self.

(** [table_to_query] after the second loop has sorted every vector. *)
Definition sorted_queries (self : SubscriptionSet) : gmap string (list string) :=
  stable_sort <$> table_to_query_of (m_subs self).

Definition to_ext_json (self : SubscriptionSet) : result string :=
  match m_subs self with
  | [] => Ok "{}"%string
  | _ =>
      let table_to_query := table_to_query_of (m_subs self) in
      if decide (table_to_query = ∅) then Ok "{}"%string
      else
        let sorted := stable_sort <$> table_to_query in
        let output_json := or_join true <$> sorted in
        dump output_json
  end.

End ExtJson.

(** ** Runs of the store

    A client works on the store in sessions: it opens a mutable set (a
    copy made by [make_mutable_copy], or an existing version through
    [get_mutable_by_version]), applies member functions to it, and commits.
    A member function that throws has changed nothing, so a caller that
    catches the exception and carries on is the session without that call;
    a session that is dropped before [commit] rolls its transaction back
    and leaves the database as it was.  [supercede_all_except] is the one
    call of a session that also acts on the store's registry at once. *)

Section Sessions.
Context `{HostDecls}.

Inductive op : Type :=
  | op_insert_sub (sub : Subscription)
  | op_insert_or_assign_named (name_ : string) (query : Query) (gen : ObjectId) (now : Timestamp)
  | op_insert_or_assign (query : Query) (gen : ObjectId) (now : Timestamp)
  | op_erase (it : nat)
  | op_clear
  | op_import (src_subs : SubscriptionSet)
  | op_update_state (new_state : State) (error_str : option string)
  | op_supercede_all_except.

Definition apply_op (st : SubscriptionStore) (self : MutableSubscriptionSet) (o : op)
    : result (SubscriptionStore * MutableSubscriptionSet) :=
  match o with
  | op_insert_sub sub => pair st <$> insert_sub self sub
  | op_insert_or_assign_named name_ query gen now =>
      pair st ∘ fst <$> insert_or_assign_named self name_ query gen now
  | op_insert_or_assign query gen now => pair st ∘ fst <$> insert_or_assign self query gen now
  | op_erase it => pair st ∘ fst <$> erase self it
  | op_clear => pair st <$> clear self
  | op_import src_subs => pair st <$> import self src_subs
  | op_update_state new_state error_str =>
      pair st <$> update_state (Some st) self new_state error_str
  | op_supercede_all_except => supercede_all_except st self
  end.

Fixpoint apply_ops (st : SubscriptionStore) (self : MutableSubscriptionSet)
    (ops : list op) : result (SubscriptionStore * MutableSubscriptionSet) :=
  match ops with
  | [] => Ok (st, self)
  | o :: ops' => '(st', self') ← apply_op st self o; apply_ops st' self' ops'
  end.

Inductive origin : Type :=
  | from_copy (set : SubscriptionSet)
  | from_version (version_id : Z).

Definition open (st : SubscriptionStore) (o : origin) : result MutableSubscriptionSet :=
  match o with
  | from_copy set => make_mutable_copy st set
  | from_version version_id => get_mutable_by_version st version_id
  end.

Definition session (st : SubscriptionStore) (o : origin) (ops : list op)
    : result (SubscriptionStore * SubscriptionSet) :=
  self ← open st o;
  '(st, self) ← apply_ops st self ops;
  commit (Some st) self.

(** The stores a program can arrive at: a store opened on a database
    without subscription sets, after any number of committed sessions,
    sessions dropped before their commit, registrations of notifications,
    and closings and reopenings.  [allowed] restricts the committed
    sessions that are considered. *)
Inductive reachable_by (allowed : SubscriptionStore → origin → list op → Prop)
    : SubscriptionStore → Prop :=
  | reachable_new (snapshot : Z) :
      reachable_by allowed (SubscriptionStore_new {| db_version := snapshot; db_table := ∅ |})
  | reachable_session st o ops st' set :
      reachable_by allowed st → allowed st o ops →
      session st o ops = Ok (st', set) → reachable_by allowed st'
  | reachable_abandoned st o ops self st' self' :
      reachable_by allowed st →
      open st o = Ok self → apply_ops st self ops = Ok (st', self') →
      reachable_by allowed st'
  | reachable_notification st set notify_when st' fut :
      reachable_by allowed st →
      get_state_change_notification (Some st) set notify_when = Ok (st', fut) →
      reachable_by allowed st'
  | reachable_reopen st :
      reachable_by allowed st → reachable_by allowed (SubscriptionStore_new (m_db st)).

Definition reachable : SubscriptionStore → Prop := reachable_by (λ _ _ _, True).

(** A write handle as [make_mutable_copy] and [get_mutable_by_version]
    make it: in a write transaction, its accessor attached to the row of
    its own version. *)
Definition handle_wf (self : MutableSubscriptionSet) (pk : Z) : Prop :=
  tr_stage (m_tr self) = transact_Writing
  ∧ m_obj self = Some pk
  ∧ m_version (base self) = pk
  ∧ is_Some (tr_table (m_tr self) !! pk).

(** What the member functions that edit the subscriptions leave alone. *)
Definition same_but_subs (self self' : MutableSubscriptionSet) : Prop :=
  m_tr self' = m_tr self
  ∧ m_obj self' = m_obj self
  ∧ m_old_state self' = m_old_state self
  ∧ m_state (base self') = m_state (base self)
  ∧ m_version (base self') = m_version (base self)
  ∧ m_error_str (base self') = m_error_str (base self).

(** No row older than a complete one. *)
Definition complete_is_oldest (t : Table) : Prop :=
  ∀ v row, t !! v = Some row → col_sub_set_state row = Complete →
    ∀ w, w < v → t !! w = None.

Definition at_most_one_complete (t : Table) : Prop :=
  ∀ v1 v2 row1 row2,
    t !! v1 = Some row1 → t !! v2 = Some row2 →
    col_sub_set_state row1 = Complete → col_sub_set_state row2 = Complete →
    v1 = v2.

(** What a write handle keeps true of its transaction while a session
    runs: no other row is both complete and younger than some row, and once
    the set itself is staged complete no older row is left. *)
Definition handle_complete_inv (self : MutableSubscriptionSet) (pk : Z) : Prop :=
  handle_wf self pk
  ∧ (∀ v row, tr_table (m_tr self) !! v = Some row → v ≠ pk →
       col_sub_set_state row = Complete → ∀ w, w < v → tr_table (m_tr self) !! w = None)
  ∧ (m_state (base self) = Complete → ∀ w, w < pk → tr_table (m_tr self) !! w = None).

(** The persisted message is non-empty exactly in state [Error]. *)
Definition error_iff_Error (row : SubSetObj) : Prop :=
  string_of_column (col_sub_set_error_str row) ≠ ""%string ↔ col_sub_set_state row = Error.

Definition handle_error_inv (self : MutableSubscriptionSet) (pk : Z) : Prop :=
  (∀ v row, tr_table (m_tr self) !! v = Some row → v ≠ pk → error_iff_Error row)
  ∧ (m_error_str (base self) ≠ ""%string ↔ m_state (base self) = Error)
  ∧ (m_error_str (base self) = ""%string →
     ∀ row, tr_table (m_tr self) !! pk = Some row →
       string_of_column (col_sub_set_error_str row) = ""%string).

(** Sessions in which [update_state] is never called with an empty
    message, nor on a set that is in state [Error]. *)
Definition keeps_error_rule (self : MutableSubscriptionSet) (o : op) : Prop :=
  match o with
  | op_update_state new_state error_str =>
      error_str ≠ Some ""%string ∧ state (base self) ≠ Error
  | _ => True
  end.

Fixpoint ops_keep_error_rule (st : SubscriptionStore)
    (self : MutableSubscriptionSet) (ops : list op) : Prop :=
  match ops with
  | [] => True
  | o :: ops' =>
      keeps_error_rule self o
      ∧ ∀ st' self', apply_op st self o = Ok (st', self') →
          ops_keep_error_rule st' self' ops'
  end.

Definition session_keeps_error_rule (st : SubscriptionStore) (o : origin) (ops : list op)
    : Prop :=
  ∀ self, open st o = Ok self → ops_keep_error_rule st self ops.

End Sessions.

(** ** Concrete stores and sets used as examples *)

Definition ok_or {A} (d : A) (c : result A) : A :=
  match c with Ok a => a | Throw _ => d end.

Definition ex_host : HostDecls :=
  {| maximum_int_empty := 0; init_cur_version := 0; init_snapshot_version := -1;
     init_min_outstanding_version := 0 |}.

Definition ex_escape (s : string) : option string := Some s.

(** A store opened on a database without subscription sets. *)
Definition ex_store0 : SubscriptionStore :=
  @SubscriptionStore_new ex_host {| db_version := 1; db_table := ∅ |}.

(** Its version 0, as [get_by_version] returns it. *)
Definition ex_set0 : SubscriptionSet :=
  {| m_cur_version := 2; m_version := 0; m_state := Pending; m_error_str := "";
     m_snapshot_version := 1; m_subs := [] |}.

Definition ex_query : Query := {| query_class_name := "Dog"; query_description := "age > 3" |}.

(** Version 1: a copy of version 0 with one anonymous subscription. *)
Definition ex_session1 : result (SubscriptionStore * SubscriptionSet) :=
  @session ex_host ex_store0 (from_copy ex_set0) [op_insert_or_assign ex_query 7%N 100].
Definition ex_store1 : SubscriptionStore := (ok_or (ex_store0, ex_set0) ex_session1).1.
Definition ex_set1 : SubscriptionSet := (ok_or (ex_store0, ex_set0) ex_session1).2.

(** Version 1 marked complete by the sync client. *)
Definition ex_session2 : result (SubscriptionStore * SubscriptionSet) :=
  @session ex_host ex_store1 (from_version 1) [op_update_state Complete None].
Definition ex_store2 : SubscriptionStore := (ok_or (ex_store0, ex_set0) ex_session2).1.

(** A write handle on the complete version 1. *)
Definition ex_mutable_complete : MutableSubscriptionSet :=
  {| base := {| m_cur_version := 4; m_version := 1; m_state := Complete; m_error_str := "";
                m_snapshot_version := 2;
                m_subs := [Subscription_new 7%N 100 None "Dog" "age > 3"] |};
     m_tr := start_write (m_db ex_store2);
     m_obj := Some 1;
     m_old_state := Complete |}.

(** A store whose subscription-set table has no rows. *)
Definition ex_store_empty : SubscriptionStore :=
  {| m_db := {| db_version := 1; db_table := ∅ |}; m_pending_notifications := [];
     m_min_outstanding_version := 0; m_next_promise := 0%nat; m_trace := [] |}.

(** A new version being prepared on the store that holds versions 0 and
    1: the copy of version 1 that [make_mutable_copy] returns. *)
Definition ex_mutable_new : MutableSubscriptionSet :=
  ok_or ex_mutable_complete (@make_mutable_copy ex_host ex_store1 ex_set1).

Definition ex_query2 : Query := {| query_class_name := "Dog"; query_description := "age > 5" |}.

(** Two sets with the same pairs in a different order, one pair twice in
    each, under different identifiers and names. *)
Definition ex_json_set1 : SubscriptionSet :=
  {| m_cur_version := 2; m_version := 1; m_state := Pending; m_error_str := "";
     m_snapshot_version := 1;
     m_subs := [ Subscription_new 1%N 10 None "Dog" "age > 3";
                 Subscription_new 2%N 11 (Some "cats"%string) "Cat" "lives == 9";
                 Subscription_new 3%N 12 None "Dog" "age < 1";
                 Subscription_new 4%N 13 (Some "again"%string) "Dog" "age > 3" ] |}.

Definition ex_json_set2 : SubscriptionSet :=
  {| m_cur_version := 5; m_version := 3; m_state := Complete; m_error_str := "";
     m_snapshot_version := 4;
     m_subs := [ Subscription_new 9%N 20 (Some "c"%string) "Cat" "lives == 9";
                 Subscription_new 8%N 21 None "Dog" "age > 3";
                 Subscription_new 7%N 22 (Some "d"%string) "Dog" "age < 1";
                 Subscription_new 6%N 23 None "Dog" "age > 3" ] |}.

(** Sessions on the new store that end in [Error] with an empty message,
    and that leave [Error] again before the commit. *)
Definition ex_session_empty_message : result (SubscriptionStore * SubscriptionSet) :=
  @session ex_host ex_store0 (from_copy ex_set0) [op_update_state Error (Some ""%string)].

Definition ex_session_leaves_error : result (SubscriptionStore * SubscriptionSet) :=
  @session ex_host ex_store0 (from_copy ex_set0)
    [op_update_state Error (Some "boom"%string); op_update_state Bootstrapping None].

Definition ex_session_error : result (SubscriptionStore * SubscriptionSet) :=
  @session ex_host ex_store0 (from_copy ex_set0) [op_update_state Error (Some "boom"%string)].

(** ** The remaining look-ups *)

(** [SubscriptionSet::find(StringData name)] *)
Definition find_name (self : SubscriptionSet) (name_ : string) : nat :=
  find_if (λ sub, bool_decide (name sub = name_)) (m_subs self).

(** [SubscriptionSet::find(const Query& query)] *)
Definition find_query (self : SubscriptionSet) (query : Query) : nat :=
  let query_desc := query_description query in
  let table_name := query_class_name query in
  find_if (λ sub, bool_decide (m_object_class_name sub = table_name)
                  && bool_decide (m_query_string sub = query_desc))
          (m_subs self).

(** Modelled from the spec: the first row of a view sorted by primary key
    in ascending order, [res.get_object(0)]. *)
Definition min_key (t : Table) : option Z :=
  match (map_to_list t).*1 with
  | [] => None
  | k :: ks => Some (foldr Z.min k ks)
  end.

Record PendingSubscription : Type := mkPendingSubscription {
  query_version : Z;
  snapshot_version : Z
}.

(** The rows the query of [get_next_pending_version] selects. *)
Definition next_pending_rows (t : Table) (last_query_version after_client_version : Z) : Table :=
  filter (λ kv, last_query_version < kv.1
                ∧ (col_sub_set_state kv.2 = Pending ∨ col_sub_set_state kv.2 = Bootstrapping)
                ∧ after_client_version ≤ col_sub_set_snapshot_version kv.2) t.

Section StoreQueries.
Context `{HostDecls}.

(** [SubscriptionStore::get_latest] *)
Definition get_latest (self : SubscriptionStore) : result SubscriptionSet :=
  tr ← start_frozen (m_db self) None;
  let sub_sets := tr_table tr in
  if decide (sub_sets = ∅) then SubscriptionSet_new (Some self) tr None
  else
    let latest_id := maximum_int sub_sets in
    latest_obj ← get_object_with_primary_key tr latest_id;
    SubscriptionSet_new (Some self) tr latest_obj.

(** [SubscriptionStore::get_active] *)
Definition get_active (self : SubscriptionStore) : result SubscriptionSet :=
  tr ← start_frozen (m_db self) None;
  let sub_sets := tr_table tr in
  if decide (sub_sets = ∅) then SubscriptionSet_new (Some self) tr None
  else
    (* sort by primary key, descending, limit 1 *)
    match max_key (complete_keys sub_sets) with
    | None => SubscriptionSet_new (Some self) tr None
    | Some k => SubscriptionSet_new (Some self) tr (Some k)
    end.

(** [SubscriptionStore::get_next_pending_version] *)
Definition get_next_pending_version (self : SubscriptionStore)
    (last_query_version after_client_version : Z) : option PendingSubscription :=
  let tr := start_read (m_db self) in
  let sub_sets := tr_table tr in
  if decide (sub_sets = ∅) then None
  else
    let res := next_pending_rows sub_sets last_query_version after_client_version in
    match min_key res with
    | None => None
    | Some k =>
        match res !! k with
        | Some obj =>
            Some {| query_version := k;
                    snapshot_version := col_sub_set_snapshot_version obj |}
        | None => None
        end
    end.

(** The [while] loop of [get_pending_subscriptions].  Every turn moves
    [cur_query_version] to a greater version that has a row; [fuel] bounds
    the number of turns, and [None] means that it ran out. *)
Fixpoint pending_loop (fuel : nat) (self : SubscriptionStore)
    (cur_query_version db_version : Z) : option (result (list SubscriptionSet)) :=
  match fuel with
  | O => None
  | S fuel' =>
      match get_next_pending_version self cur_query_version db_version with
      | None => Some (Ok [])
      | Some next_pending =>
          let cur_query_version := query_version next_pending in
          let db_version := snapshot_version next_pending in
          match get_by_version self cur_query_version with
          | Throw e => Some (Throw e)
          | Ok set =>
              match pending_loop fuel' self cur_query_version db_version with
              | None => None
              | Some (Ok rest) => Some (Ok (set :: rest))
              | Some (Throw e) => Some (Throw e)
              end
          end
      end
  end.

(** [SubscriptionStore::get_pending_subscriptions].  [DB::version_type(-1)]
    is the value the 64-bit integer [-1] of the row converts to. *)
Definition get_pending_subscriptions (fuel : nat) (self : SubscriptionStore)
    : option (result (list SubscriptionSet)) :=
  match get_active self with
  | Throw e => Some (Throw e)
  | Ok active_sub =>
      let cur_query_version := version active_sub in
      let db_version :=
        if decide (state active_sub = Complete) then m_snapshot_version active_sub else 0 in
      if decide (db_version = -1) then Some (Throw assertion_failed)
      else pending_loop fuel self cur_query_version db_version
  end.

(** [SubscriptionStore::get_tables_for_latest] *)
Definition get_tables_for_latest (tr : Transaction) : result (gset string) :=
  let sub_sets := tr_table tr in
  if decide (sub_sets = ∅) then Ok ∅
  else
    let latest_id := maximum_int sub_sets in
    match sub_sets !! latest_id with
    | None => Throw KeyNotFound
    | Some latest_obj =>
        Ok (list_to_set (col_sub_object_class_name <$> col_sub_set_subscriptions latest_obj))
    end.

End StoreQueries.

(** ** Vocabulary of the further properties *)

(** The set that the row [row] of version [v] loads into, read in a
    transaction at snapshot [cur]. *)
Definition set_of_row (cur v : Z) (row : SubSetObj) : SubscriptionSet :=
  {| m_cur_version := cur; m_version := v;
     m_state := col_sub_set_state row;
     m_error_str := string_of_column (col_sub_set_error_str row);
     m_snapshot_version := col_sub_set_snapshot_version row;
     m_subs := Subscription_of_obj <$> col_sub_set_subscriptions row |}.

(** The states a committed row can carry. *)
Definition persistable (s : State) : Prop :=
  s = Pending ∨ s = Bootstrapping ∨ s = Complete ∨ s = Error.

(** A table with at least one row, whose versions are not negative and
    whose states are all persistable. *)
Definition rows_ok (t : Table) : Prop :=
  t ≠ ∅ ∧ ∀ v row, t !! v = Some row → 0 ≤ v ∧ persistable (col_sub_set_state row).

(** What the transaction of a write handle holds of the rows of other
    versions of the store it was opened on: each is as it was, or is an
    older one that has been removed. *)
Definition handle_rows_inv (st0 : SubscriptionStore) (self : MutableSubscriptionSet) (pk : Z)
    : Prop :=
  handle_wf self pk
  ∧ ∀ v, v ≠ pk →
      tr_table (m_tr self) !! v = db_table (m_db st0) !! v
      ∨ (tr_table (m_tr self) !! v = None ∧ v < pk).

(** The staged state of a write handle is never [Superseded], and is
    [Uncommitted] only in a new set. *)
Definition handle_state_inv (self : MutableSubscriptionSet) : Prop :=
  m_state (base self) ≠ Superseded
  ∧ (m_old_state self ≠ Uncommitted → m_state (base self) ≠ Uncommitted).

(** The calls of a session that remove rows. *)
Definition supersedes (o : op) : Prop :=
  o = op_supercede_all_except ∨ ∃ error_str, o = op_update_state Complete error_str.

(** No two subscriptions with the same name, and no two without a name
    that hold the same class and query. *)
Definition no_duplicates (subs : list Subscription) : Prop :=
  NoDup (omap m_name subs)
  ∧ NoDup (pair_of <$> filter (λ sub, m_name sub = None) subs).

(** The rows [get_next_pending_version] looks for. *)
Definition awaits_upload (last_query_version after_client_version : Z)
    (v : Z) (row : SubSetObj) : Prop :=
  last_query_version < v
  ∧ (col_sub_set_state row = Pending ∨ col_sub_set_state row = Bootstrapping)
  ∧ after_client_version ≤ col_sub_set_snapshot_version row.

(** The list the loop of [get_pending_subscriptions] builds from
    [cur_query_version] and [db_version]: each element is loaded from the
    least row that qualifies after its predecessor, and no row qualifies
    after the last one. *)
Fixpoint pending_chain (t : Table) (cur : Z) (cur_query_version db_version : Z)
    (sets : list SubscriptionSet) : Prop :=
  match sets with
  | [] => ∀ v row, t !! v = Some row → ¬ awaits_upload cur_query_version db_version v row
  | set :: rest =>
      ∃ row, t !! m_version set = Some row
        ∧ set = set_of_row cur (m_version set) row
        ∧ awaits_upload cur_query_version db_version (m_version set) row
        ∧ (∀ v row', t !! v = Some row' →
             awaits_upload cur_query_version db_version v row' → m_version set ≤ v)
        ∧ pending_chain t cur (m_version set) (col_sub_set_snapshot_version row) rest
  end.

(** Snapshot versions do not decrease from a version to a later one. *)
Definition snapshots_ordered (t : Table) : Prop :=
  ∀ v w rv rw, t !! v = Some rv → t !! w = Some rw → v < w →
    col_sub_set_snapshot_version rv ≤ col_sub_set_snapshot_version rw.

(** Snapshot versions grow with the versions and lie below [bound]. *)
Definition snapshots_increase (t : Table) (bound : Z) : Prop :=
  (∀ v w rv rw, t !! v = Some rv → t !! w = Some rw → v < w →
     col_sub_set_snapshot_version rv < col_sub_set_snapshot_version rw)
  ∧ ∀ v row, t !! v = Some row → col_sub_set_snapshot_version row < bound.

(** A set with the pairs of [ex_json_set1], each once. *)
Definition ex_json_set3 : SubscriptionSet :=
  {| m_cur_version := 7; m_version := 4; m_state := Pending; m_error_str := "";
     m_snapshot_version := 6;
     m_subs := [ Subscription_new 11%N 30 None "Dog" "age < 1";
                 Subscription_new 12%N 31 None "Dog" "age > 3";
                 Subscription_new 13%N 32 None "Cat" "lives == 9" ] |}.

(** The calls of a session that cannot introduce a duplicate:
    [insert_sub], which only [make_mutable_copy] and [import] use, is left
    out, and [import] is to copy from a set without duplicates. *)
Definition keeps_no_duplicates (o : op) : Prop :=
  match o with
  | op_insert_sub _ => False
  | op_import src_subs => no_duplicates (m_subs src_subs)
  | _ => True
  end.

(** The promise an event resolves. *)
Definition resolved_promise (ev : event) : option nat :=
  match ev with
  | EvPromiseValue p _ | EvPromiseError p _ => Some p
  | _ => None
  end.

(** The promises a store has resolved, in the order of their resolution,
    and those it still holds. *)
Definition resolved_promises (st : SubscriptionStore) : list nat :=
  omap resolved_promise (m_trace st).

Definition pending_promises (st : SubscriptionStore) : list nat :=
  nr_promise <$> m_pending_notifications st.

(** Every promise the store has made is held or has been resolved, and
    none is both or is there twice. *)
Definition promises_accounted (st : SubscriptionStore) : Prop :=
  pending_promises st ++ resolved_promises st ≡ₚ seq 0 (m_next_promise st).

(** What the calls of a session on version [pk] do to the requests of a
    store between two of its states: the trace grows, no request is added,
    a request for [pk] stays, and a request that goes has been resolved
    with [Superseded]. *)
Definition waiters_kept (pk : Z) (st st' : SubscriptionStore) : Prop :=
  ∃ new, m_trace st' = m_trace st ++ new
    ∧ (∀ req, req ∈ m_pending_notifications st' → req ∈ m_pending_notifications st)
    ∧ (∀ req, req ∈ m_pending_notifications st → nr_version req = pk →
         req ∈ m_pending_notifications st')
    ∧ (∀ req, req ∈ m_pending_notifications st →
         req ∈ m_pending_notifications st'
         ∨ EvPromiseValue (nr_promise req) Superseded ∈ new).

(** ** Further examples *)

(** Version 1 as the session that marked it complete returned it. *)
Definition ex_set2 : SubscriptionSet := (ok_or (ex_store0, ex_set0) ex_session2).2.

(** Version 2: a copy of version 1 with a named subscription added. *)
Definition ex_session3 : result (SubscriptionStore * SubscriptionSet) :=
  @session ex_host ex_store2 (from_copy ex_set1)
    [op_insert_or_assign_named "young" ex_query2 8%N 200].
Definition ex_store3 : SubscriptionStore := (ok_or (ex_store0, ex_set0) ex_session3).1.
Definition ex_set3 : SubscriptionSet := (ok_or (ex_store0, ex_set0) ex_session3).2.

(** Version 3: a copy of version 2 that the sync client has begun to
    bootstrap. *)
Definition ex_session4 : result (SubscriptionStore * SubscriptionSet) :=
  @session ex_host ex_store3 (from_copy ex_set3) [op_update_state Bootstrapping None].
Definition ex_store4 : SubscriptionStore := (ok_or (ex_store0, ex_set0) ex_session4).1.
Definition ex_set4 : SubscriptionSet := (ok_or (ex_store0, ex_set0) ex_session4).2.

(** A session on version 1 that clears the subscriptions before it
    commits. *)
Definition ex_session_clear : result (SubscriptionStore * SubscriptionSet) :=
  @session ex_host ex_store1 (from_version 1) [op_clear].

(** The store that holds versions 0 and 1 after a request to be told
    when version 0, and when version 1, is complete. *)
Definition ex_store1_waiting0 : SubscriptionStore :=
  (ok_or (ex_store1, make_ready Pending)
     (@get_state_change_notification ex_host (Some ex_store1) ex_set0 Complete)).1.

Definition ex_store1_waiting1 : SubscriptionStore :=
  (ok_or (ex_store1, make_ready Pending)
     (@get_state_change_notification ex_host (Some ex_store1) ex_set1 Complete)).1.

Definition ex_request0 : NotificationRequest :=
  {| nr_version := 0; nr_promise := 0; nr_notify_when := Complete |}.

Definition ex_request1 : NotificationRequest :=
  {| nr_version := 1; nr_promise := 0; nr_notify_when := Complete |}.

(** Calls that edit the copy of version 1. *)
Definition ex_edits : list op :=
  [op_insert_or_assign ex_query 9%N 300;
   op_insert_or_assign_named "young" ex_query2 8%N 200;
   op_erase 0].

(** Version 1 marked complete while a request waits for version 0, and
    while one waits for version 1. *)
Definition ex_session5 : result (SubscriptionStore * SubscriptionSet) :=
  @session ex_host ex_store1_waiting0 (from_version 1) [op_update_state Complete None].
Definition ex_store5 : SubscriptionStore := (ok_or (ex_store0, ex_set0) ex_session5).1.
Definition ex_set5 : SubscriptionSet := (ok_or (ex_store0, ex_set0) ex_session5).2.

Definition ex_session6 : result (SubscriptionStore * SubscriptionSet) :=
  @session ex_host ex_store1_waiting1 (from_version 1) [op_update_state Complete None].
Definition ex_store6 : SubscriptionStore := (ok_or (ex_store0, ex_set0) ex_session6).1.
Definition ex_set6 : SubscriptionSet := (ok_or (ex_store0, ex_set0) ex_session6).2.

(** * Properties *)

(** ** Tactics for computations in the result monad *)

Lemma bind_Ok {A B} (c : result A) (k : A → result B) (b : B) :
  c ≫= k = Ok b ↔ ∃ a, c = Ok a ∧ k a = Ok b.
Proof.
  destruct c as [a|e]; simpl; split.
  - intros Hk. by exists a.
  - by intros (a' & [= <-] & Hk).
  - discriminate.
  - by intros (a' & ? & _).
Qed.

Lemma fmap_Ok {A B} (f : A → B) (c : result A) (b : B) :
  f <$> c = Ok b ↔ ∃ a, c = Ok a ∧ b = f a.
Proof.
  destruct c as [a|e]; simpl; split.
  - intros [= <-]. by exists a.
  - by intros (a' & [= <-] & ->).
  - discriminate.
  - by intros (a' & ? & _).
Qed.

Ltac inv_result :=
  repeat match goal with
  | H : Ok _ = Ok _ |- _ => injection H as H; try subst
  | H : Throw _ = Ok _ |- _ => discriminate H
  | H : Ok _ = Throw _ |- _ => discriminate H
  | H : _ ≫= _ = Ok _ |- _ => apply bind_Ok in H as (? & ? & H)
  | H : _ <$> _ = Ok _ |- _ => apply fmap_Ok in H as (? & H & ?)
  | H : (_, _) = (_, _) |- _ => injection H as ? ?; try subst
  end.

(** ** The state machine of [update_state] *)

Section StateMachine.
Context `{HostDecls}.

Lemma check_is_mutable_Ok self u :
  check_is_mutable self = Ok u ↔ tr_stage (m_tr self) = transact_Writing.
Proof.
  unfold check_is_mutable. destruct u. case_decide; naive_solver.
Qed.

Lemma check_is_mutable_writing self :
  tr_stage (m_tr self) = transact_Writing → check_is_mutable self = Ok ().
Proof. intros. by apply check_is_mutable_Ok. Qed.

Lemma check_is_mutable_not_writing self :
  tr_stage (m_tr self) ≠ transact_Writing →
  check_is_mutable self = Throw LogicError_wrong_transact_state.
Proof. intros. unfold check_is_mutable. by case_decide. Qed.

(** C1, as amended.  When the current state is [Complete], [Error] or
    [Superseded], [update_state] returns normally exactly when the target
    is [Bootstrapping] or [Complete], no error message is supplied, the
    transaction is in its writing stage and (for [Complete]) the store is
    still there; the set then has the target state.  Every call with target
    [Pending], [Error], [Superseded] or [Uncommitted] throws. *)
Theorem update_state_from_final_state
    (m_mgr : option SubscriptionStore) (self : MutableSubscriptionSet)
    (new_state : State) (error_str : option string) :
  state (base self) = Complete ∨ state (base self) = Error ∨ state (base self) = Superseded →
  (is_ok (update_state m_mgr self new_state error_str) = true ↔
     tr_stage (m_tr self) = transact_Writing ∧ error_str = None ∧
     (new_state = Bootstrapping ∨ (new_state = Complete ∧ is_Some m_mgr)))
  ∧ (∀ self', update_state m_mgr self new_state error_str = Ok self' →
       state (base self') = new_state).
Proof.
  intros Hfinal. unfold update_state.
  destruct (decide (tr_stage (m_tr self) = transact_Writing)) as [Hw|Hw].
  - rewrite (check_is_mutable_writing _ Hw). simpl.
    split.
    + destruct new_state, error_str as [e|], m_mgr as [mgr|]; simpl;
        repeat case_bool_decide; simpl;
        try (split; [discriminate | intros (_ & ? & [?|[? ?]]); by inv_result || done]);
        try (split; [intros _; repeat split; eauto | done]);
        try (destruct Hfinal as [?|[?|?]]; congruence);
        try (split; [discriminate | intros (_ & ? & [?|[? [? ?]]]); done]).
    + intros self'.
      destruct new_state, error_str as [e|], m_mgr as [mgr|]; simpl;
        repeat case_bool_decide; simpl; try discriminate;
        intros [= <-]; done.
  - rewrite (check_is_mutable_not_writing _ Hw). simpl. split; [|discriminate].
    split; [discriminate | by intros (? & _)].
Qed.

End StateMachine.

(** C1, witness of the amended statement: the complete version 1 of the
    example store moves to [Bootstrapping]. *)
Lemma update_state_from_final_state_witness :
  (state (base ex_mutable_complete) = Complete ∨ state (base ex_mutable_complete) = Error
   ∨ state (base ex_mutable_complete) = Superseded)
  ∧ ((is_ok (update_state (Some ex_store2) ex_mutable_complete Bootstrapping None) = true ↔
        tr_stage (m_tr ex_mutable_complete) = transact_Writing ∧ (None : option string) = None ∧
        (Bootstrapping = Bootstrapping ∨ (Bootstrapping = Complete ∧ is_Some (Some ex_store2))))
     ∧ (∀ self', update_state (Some ex_store2) ex_mutable_complete Bootstrapping None = Ok self' →
          state (base self') = Bootstrapping)).
Proof.
  split.
  - left. reflexivity.
  - apply (update_state_from_final_state (Some ex_store2) ex_mutable_complete Bootstrapping None).
    left. reflexivity.
Defined.

(** C1, as stated, fails: a set in state [Complete] accepts a transition to
    [Bootstrapping], and one to [Complete] again. *)
Lemma update_state_leaves_Complete :
  state (base ex_mutable_complete) = Complete
  ∧ state ∘ base <$> update_state (Some ex_store2) ex_mutable_complete Bootstrapping None
    = Ok Bootstrapping
  ∧ state ∘ base <$> update_state (Some ex_store2) ex_mutable_complete Complete None
    = Ok Complete.
Proof. repeat split. Qed.

(** ** Look-ups *)

Section Lookups.
Context `{HostDecls}.

Lemma max_key_empty : max_key ∅ = None.
Proof. unfold max_key. by rewrite map_to_list_empty. Qed.

Lemma max_key_None (t : Table) : max_key t = None → t = ∅.
Proof.
  unfold max_key. destruct (map_to_list t) as [|[k r] l] eqn:E; [|done].
  intros _. by apply map_to_list_empty_iff.
Qed.

Lemma foldr_max_ge (k : Z) (ks : list Z) :
  k ≤ foldr Z.max k ks ∧ ∀ x, x ∈ ks → x ≤ foldr Z.max k ks.
Proof.
  induction ks as [|y ks [IH1 IH2]]; simpl.
  - split; [lia|]. intros x Hx. by apply elem_of_nil in Hx.
  - split; [lia|]. intros x [->|Hx]%elem_of_cons; [lia|]. specialize (IH2 x Hx). lia.
Qed.

Lemma foldr_max_elem (k : Z) (ks : list Z) : foldr Z.max k ks ∈ k :: ks.
Proof.
  induction ks as [|y ks IH]; simpl.
  - apply list_elem_of_here.
  - destruct (Z.max_spec y (foldr Z.max k ks)) as [[_ ->]|[_ ->]].
    + apply elem_of_cons in IH as [->|IH]; [apply list_elem_of_here|].
      by do 2 apply list_elem_of_further.
    + apply list_elem_of_further, list_elem_of_here.
Qed.

Lemma max_key_Some (t : Table) (m : Z) :
  max_key t = Some m → is_Some (t !! m) ∧ ∀ k, is_Some (t !! k) → k ≤ m.
Proof.
  unfold max_key. destruct ((map_to_list t).*1) as [|k ks] eqn:E; [done|].
  intros [= <-]. split.
  - pose proof (foldr_max_elem k ks) as Hin. rewrite <- E in Hin.
    apply list_elem_of_fmap in Hin as ([k' r] & -> & Hin).
    apply elem_of_map_to_list in Hin. by exists r.
  - intros k' [r Hr]. apply elem_of_map_to_list in Hr.
    assert (k' ∈ (map_to_list t).*1) as Hin.
    { apply list_elem_of_fmap. by exists (k', r). }
    rewrite E in Hin. destruct (foldr_max_ge k ks) as [H1 H2].
    apply elem_of_cons in Hin as [->|Hin]; [done|by apply H2].
Qed.

(** C7, as amended.  When no persisted subscription set is [Complete] and
    the subscription-set table has at least one row, the active version
    returned by [get_active_and_latest_versions] is [-1]; on a table
    without rows the function returns [(0, 0)]. *)
Theorem get_active_and_latest_versions_none_complete (st : SubscriptionStore) :
  (∀ v row, db_table (m_db st) !! v = Some row → col_sub_set_state row ≠ Complete) →
  (db_table (m_db st) ≠ ∅ → (get_active_and_latest_versions st).1 = -1)
  ∧ (db_table (m_db st) = ∅ → get_active_and_latest_versions st = (0, 0)).
Proof.
  intros Hnone. unfold get_active_and_latest_versions. simpl. split; intros Ht.
  - case_decide; [done|].
    assert (complete_keys (db_table (m_db st)) = ∅) as ->.
    { apply map_empty_filter. intros v row Hrow. simpl. by apply Hnone in Hrow. }
    by rewrite max_key_empty.
  - by case_decide.
Qed.

Lemma get_by_version_no_row (st : SubscriptionStore) (v : Z) :
  db_table (m_db st) !! v = None →
  get_by_version st v =
    if decide (v < m_min_outstanding_version st) then Ok (SubscriptionSet_superseded v)
    else Throw KeyNotFound.
Proof.
  intros Hrow. unfold get_by_version, get_by_version_impl, get_object_with_primary_key.
  simpl. by rewrite Hrow.
Qed.

(** C5.  [get_by_version(v)] returns the set loaded from the row with
    primary key [v] of the latest snapshot, with exactly that version, when
    the row exists; without a row it returns the synthetic set in state
    [Superseded] if [v < m_min_outstanding_version], and lets [KeyNotFound]
    escape otherwise. *)
Theorem get_by_version_cases (st : SubscriptionStore) (v : Z) :
  (∀ row, db_table (m_db st) !! v = Some row →
     ∃ set, get_by_version st v = Ok set
       ∧ version set = v
       ∧ m_cur_version set = db_version (m_db st)
       ∧ state set = col_sub_set_state row
       ∧ m_subs set = Subscription_of_obj <$> col_sub_set_subscriptions row)
  ∧ (db_table (m_db st) !! v = None → v < m_min_outstanding_version st →
     get_by_version st v = Ok (SubscriptionSet_superseded v)
     ∧ state (SubscriptionSet_superseded v) = Superseded
     ∧ version (SubscriptionSet_superseded v) = v)
  ∧ (db_table (m_db st) !! v = None → ¬ v < m_min_outstanding_version st →
     get_by_version st v = Throw KeyNotFound).
Proof.
  unfold get_by_version, get_by_version_impl, get_object_with_primary_key. simpl.
  split; [|split].
  - intros row Hrow. rewrite Hrow. simpl. rewrite Hrow. simpl. eauto 10.
  - intros Hrow Hlt. rewrite Hrow. by rewrite decide_True.
  - intros Hrow Hlt. rewrite Hrow. by rewrite decide_False.
Qed.

End Lookups.

(** C7, witness of the amended statement: the example store holds versions
    0 and 1, both [Pending]. *)
Lemma get_active_and_latest_versions_none_complete_witness :
  (∀ v row, db_table (m_db ex_store1) !! v = Some row → col_sub_set_state row ≠ Complete)
  ∧ db_table (m_db ex_store1) ≠ ∅
  ∧ (@get_active_and_latest_versions ex_host ex_store1).1 = -1.
Proof.
  assert (∀ v row, db_table (m_db ex_store1) !! v = Some row →
                   col_sub_set_state row ≠ Complete) as Hnone.
  { apply (bool_decide_unpack (map_Forall (λ _ row, col_sub_set_state row ≠ Complete)
                                            (db_table (m_db ex_store1)))).
    vm_compute. reflexivity. }
  assert (db_table (m_db ex_store1) ≠ ∅) as Hne.
  { intros He. apply (f_equal (λ t : Table, t !! 0)) in He. vm_compute in He. discriminate. }
  split; [exact Hnone|]. split; [exact Hne|].
  exact (proj1 (@get_active_and_latest_versions_none_complete ex_host ex_store1 Hnone) Hne).
Defined.

(** C7, as stated, fails on a table without rows: the active version
    returned there is [0], not [-1]. *)
Lemma get_active_and_latest_versions_empty_table :
  db_table (m_db ex_store_empty) = ∅
  ∧ (∀ v row, db_table (m_db ex_store_empty) !! v = Some row → col_sub_set_state row ≠ Complete)
  ∧ @get_active_and_latest_versions ex_host ex_store_empty = (0, 0)
  ∧ (@get_active_and_latest_versions ex_host ex_store_empty).1 ≠ -1.
Proof.
  split; [done|]. split; [|split; [done|by vm_compute]].
  intros v row. simpl. by rewrite lookup_empty.
Qed.

(** C5, witness: in the example store after version 1 became complete,
    version 1 is read back, version 0 is reported superseded, version 5 is
    not found. *)
Lemma get_by_version_cases_witness :
  (∃ row, db_table (m_db ex_store2) !! 1 = Some row)
  ∧ (∃ set, @get_by_version ex_host ex_store2 1 = Ok set ∧ version set = 1)
  ∧ (db_table (m_db ex_store2) !! 0 = None ∧ 0 < m_min_outstanding_version ex_store2
     ∧ @get_by_version ex_host ex_store2 0 = Ok (@SubscriptionSet_superseded ex_host 0))
  ∧ (db_table (m_db ex_store2) !! 5 = None ∧ ¬ 5 < m_min_outstanding_version ex_store2
     ∧ @get_by_version ex_host ex_store2 5 = Throw KeyNotFound).
Proof.
  assert (∃ row, db_table (m_db ex_store2) !! 1 = Some row) as Hrow.
  { eexists. vm_compute. reflexivity. }
  assert (db_table (m_db ex_store2) !! 0 = None) as H0 by (vm_compute; reflexivity).
  assert (db_table (m_db ex_store2) !! 5 = None) as H5 by (vm_compute; reflexivity).
  assert (0 < m_min_outstanding_version ex_store2) as Hlt by (vm_compute; reflexivity).
  assert (¬ 5 < m_min_outstanding_version ex_store2) as Hge by (vm_compute; discriminate).
  split; [exact Hrow|]. split; [|split].
  - destruct Hrow as [row Hrow].
    destruct (proj1 (@get_by_version_cases ex_host ex_store2 1) row Hrow) as (set & Hset & Hv & _).
    exists set. split; [exact Hset | exact Hv].
  - split; [exact H0|]. split; [exact Hlt|].
    exact (proj1 (proj1 (proj2 (@get_by_version_cases ex_host ex_store2 0)) H0 Hlt)).
  - split; [exact H5|]. split; [exact Hge|].
    exact (proj2 (proj2 (@get_by_version_cases ex_host ex_store2 5)) H5 Hge).
Defined.

(** ** Notifications *)

Section Notifications.
Context `{HostDecls}.

Lemma state_ge_code (a b : State) : state_ge a b = true ↔ state_code b ≤ state_code a.
Proof. unfold state_ge, state_ge_by. by rewrite bool_decide_eq_true. Qed.

(** C3, as amended.  The readiness test compares the states' integer
    codes, in which [Pending] ranks strictly below [Bootstrapping] and
    [Bootstrapping] strictly below [Complete] (and under no coding that
    tells the two apart can each of them satisfy the other).  A set
    observed in state [Error] gets a ready future carrying the message
    whatever [notify_when] is; otherwise the future is ready exactly when
    the code of the observed state is at least that of [notify_when], and a
    request is registered when it is not.  [process_notifications] keeps a
    request for its own version pending by the same test. *)
Theorem notification_test_compares_state_codes :
  state_code Pending < state_code Bootstrapping < state_code Complete
  ∧ (∀ code : State → Z, code Pending ≠ code Bootstrapping →
       ¬ (state_ge_by code Pending Bootstrapping = true
          ∧ state_ge_by code Bootstrapping Pending = true))
  ∧ (∀ mgr self notify_when cur err,
       ¬ m_min_outstanding_version mgr > version self →
       observed_state mgr self = Ok (cur, err) →
       ∃ st' fut,
         get_state_change_notification (Some mgr) self notify_when = Ok (st', fut)
         ∧ (cur = Error → fut = make_ready_error err ∧ st' = mgr)
         ∧ (cur ≠ Error → state_code notify_when ≤ state_code cur →
            fut = make_ready cur ∧ st' = mgr)
         ∧ (cur ≠ Error → state_code cur < state_code notify_when →
            fut = future_of (m_next_promise mgr)
            ∧ m_pending_notifications st' =
                m_pending_notifications mgr
                ++ [{| nr_version := version self; nr_promise := m_next_promise mgr;
                       nr_notify_when := notify_when |}]))
  ∧ (∀ mgr self req,
       req ∈ m_pending_notifications mgr →
       nr_version req = version (base self) →
       ∃ st', process_notifications (Some mgr) self = Ok st'
         ∧ (req ∈ m_pending_notifications st' ↔
              ¬ (state (base self) = Error
                 ∨ state_code (nr_notify_when req) ≤ state_code (state (base self))))).
Proof.
  split; [by vm_compute|]. split; [|split].
  - intros code Hne [H1 H2]. unfold state_ge_by in *.
    apply bool_decide_eq_true in H1, H2. lia.
  - intros mgr self notify_when cur err Hmin Hobs.
    unfold get_state_change_notification. simpl.
    case_decide; [done|]. rewrite Hobs. simpl.
    destruct (decide (cur = Error)) as [->|Hne].
    + eexists _, _. split; [done|]. split; [done|]. split; done.
    + destruct (state_ge cur notify_when) eqn:Hge.
      * apply state_ge_code in Hge.
        eexists _, _. split; [done|]. split; [done|]. split; [done|]. intros _ ?. lia.
      * eexists _, _. split; [done|]. split; [done|]. split; [|done].
        intros _ Hle. apply state_ge_code in Hle. congruence.
  - intros mgr self req Hin Hver.
    unfold process_notifications. simpl. eexists. split; [reflexivity|]. simpl.
    rewrite list_elem_of_filter. unfold finishes.
    rewrite Hver. rewrite bool_decide_eq_true_2 by done. simpl.
    rewrite (bool_decide_eq_false_2 (_ < _)) by lia. rewrite andb_false_r, orb_false_r.
    rewrite <- state_ge_code.
    destruct (bool_decide (state (base self) = Error)) eqn:He;
      [apply bool_decide_eq_true in He|apply bool_decide_eq_false in He];
      destruct (state_ge _ _); simpl; intuition congruence.
Qed.

End Notifications.

(** C3, witness: version 1 of the example store, observed [Pending],
    asked for [Complete]. *)
Lemma notification_test_compares_state_codes_witness :
  ¬ m_min_outstanding_version ex_store1 > version ex_set1
  ∧ @observed_state ex_host ex_store1 ex_set1 = Ok (Pending, ""%string)
  ∧ ∃ st' fut,
      @get_state_change_notification ex_host (Some ex_store1) ex_set1 Complete = Ok (st', fut)
      ∧ fut = future_of (m_next_promise ex_store1).
Proof.
  assert (¬ m_min_outstanding_version ex_store1 > version ex_set1) as Hmin
    by (vm_compute; discriminate).
  assert (@observed_state ex_host ex_store1 ex_set1 = Ok (Pending, ""%string)) as Hobs
    by (vm_compute; reflexivity).
  split; [exact Hmin|]. split; [exact Hobs|].
  destruct (proj1 (proj2 (proj2 (@notification_test_compares_state_codes ex_host)))
              ex_store1 ex_set1 Complete Pending ""%string Hmin Hobs)
    as (st' & fut & Hcall & _ & _ & Hreg).
  exists st', fut. split; [exact Hcall|].
  apply Hreg; [discriminate | vm_compute; reflexivity].
Defined.

(** C3, as stated, fails: a set observed in state [Pending] does not
    satisfy [notify_when = Bootstrapping]; the future returned is that of a
    newly registered request. *)
Lemma pending_does_not_satisfy_bootstrapping :
  state ex_set1 = Pending
  ∧ @observed_state ex_host ex_store1 ex_set1 = Ok (Pending, ""%string)
  ∧ snd <$> @get_state_change_notification ex_host (Some ex_store1) ex_set1 Bootstrapping
    = Ok (future_of 0)
  ∧ state_ge Pending Bootstrapping = false.
Proof. repeat split; by vm_compute. Qed.

(** ** Editing the subscriptions *)

Section Editing.

Lemma find_if_le {A} (p : A → bool) (l : list A) : (find_if p l ≤ length l)%nat.
Proof. induction l as [|x l IH]; simpl; [lia|]. destruct (p x); lia. Qed.

(** [find_if] is determined by what it skips and where it stops. *)
Lemma find_if_unique {A} (p : A → bool) (l : list A) (i : nat) :
  (∀ j y, (j < i)%nat → l !! j = Some y → p y = false) →
  (∃ x, l !! i = Some x ∧ p x = true) →
  find_if p l = i.
Proof.
  revert i. induction l as [|x l IH]; intros i Hskip (y & Hy & Hp).
  - done.
  - simpl. destruct i as [|i].
    + simpl in Hy. injection Hy as ->. by rewrite Hp.
    + rewrite (Hskip 0%nat x) by (done || lia). f_equal. apply IH.
      * intros j z Hj Hz. apply (Hskip (S j) z); [lia|done].
      * by exists y.
Qed.

Lemma find_if_skipped {A} (p : A → bool) (l : list A) (j : nat) (y : A) :
  (j < find_if p l)%nat → l !! j = Some y → p y = false.
Proof.
  revert j. induction l as [|x l IH]; intros j Hj Hy; [done|].
  simpl in Hj. destruct (p x) eqn:Hp; [lia|].
  destruct j as [|j]; simpl in Hy.
  - by injection Hy as <-.
  - apply (IH j); [lia|done].
Qed.

Lemma find_if_found {A} (p : A → bool) (l : list A) :
  (find_if p l < length l)%nat → ∃ x, l !! find_if p l = Some x ∧ p x = true.
Proof.
  induction l as [|x l IH]; simpl; [lia|].
  destruct (p x) eqn:Hp; intros Hlt.
  - by exists x.
  - apply IH. lia.
Qed.

(** C10.  After [insert_or_assign("", query)], the subscription the call
    returns has a name that is present and empty (a new one is made so when
    no subscription had that name); a following anonymous
    [insert_or_assign(query)] stops at that very subscription, because it
    looks for [name().empty()], inserts nothing, and overwrites its
    [updated_at].  (Unless an earlier subscription without a name already
    holds the same class and query, which the anonymous search would reach
    first.) *)
Theorem anonymous_insert_finds_empty_name
    (self : MutableSubscriptionSet) (query : Query)
    (gen1 gen2 : ObjectId) (now1 now2 : Timestamp) :
  tr_stage (m_tr self) = transact_Writing →
  (∀ sub, sub ∈ m_subs (base self) → m_name sub = None →
     ¬ (m_object_class_name sub = query_class_name query
        ∧ m_query_string sub = query_description query)) →
  ∃ self1 it inserted1 self2 sub1 sub2,
    insert_or_assign_named self "" query gen1 now1 = Ok (self1, (it, inserted1))
    ∧ m_subs (base self1) !! it = Some sub1
    ∧ m_name sub1 = Some ""%string
    ∧ (find_if (named_match "") (m_subs (base self)) = length (m_subs (base self)) →
       inserted1 = true
       ∧ m_subs (base self1) =
           m_subs (base self)
           ++ [Subscription_new gen1 now1 (Some ""%string)
                 (query_class_name query) (query_description query)])
    ∧ insert_or_assign self1 query gen2 now2 = Ok (self2, (it, false))
    ∧ m_subs (base self2) !! it = Some sub2
    ∧ sub2 = assign_sub (query_class_name query) (query_description query) now2 sub1
    ∧ has_name sub2 = true ∧ name sub2 = ""%string
    ∧ length (m_subs (base self2)) = length (m_subs (base self1)).
Proof.
  intros Hw Hanon.
  unfold insert_or_assign_named, insert_or_assign, insert_or_assign_impl.
  rewrite (check_is_mutable_writing _ Hw). simpl.
  set (subs := m_subs (base self)).
  set (it := find_if _ subs).
  set (c := query_class_name query). set (q := query_description query).
  (* the list after the named call, and the subscription it returns *)
  assert (∃ subs1 sub1 ins,
    (if decide (it ≠ length subs)
     then Ok (with_base self (set_subs (base self) (alter (assign_sub c q now1) it subs)),
              (it, false))
     else Ok (with_base self (set_subs (base self)
                (subs ++ [Subscription_new gen1 now1 (Some ""%string) c q])),
              (length subs, true)))
    = Ok (with_base self (set_subs (base self) subs1), (it, ins))
    ∧ subs1 !! it = Some sub1
    ∧ m_name sub1 = Some ""%string
    ∧ m_object_class_name sub1 = c ∧ m_query_string sub1 = q
    ∧ (∀ j y, (j < it)%nat → subs1 !! j = Some y → subs !! j = Some y)
    ∧ (it = length subs → ins = true
         ∧ subs1 = subs ++ [Subscription_new gen1 now1 (Some ""%string) c q]))
    as (subs1 & sub1 & ins & Hcall & Hsub1 & Hname1 & Hc1 & Hq1 & Hbefore & Hnew).
  { pose proof (find_if_le (named_match "") subs)
      as Hle. fold it in Hle.
    case_decide as Hit.
    - destruct (find_if_found (named_match "") subs)
        as (x & Hx & Hp); [fold it; lia|]. fold it in Hx.
      unfold named_match in Hp.
      apply andb_true_iff in Hp as [Hhas Hnm]. apply bool_decide_eq_true in Hnm.
      exists (alter (assign_sub c q now1) it subs), (assign_sub c q now1 x), false.
      split; [done|]. split; [by rewrite list_lookup_alter_eq, Hx|].
      split; [|split; [done|split; [done|split]]].
      + simpl. unfold has_name, name in *. destruct (m_name x); [by subst|done].
      + intros j y Hj. rewrite list_lookup_alter_ne by lia. done.
      + intros ->. done.
    -
      exists (subs ++ [Subscription_new gen1 now1 (Some ""%string) c q]),
             (Subscription_new gen1 now1 (Some ""%string) c q), true.
      split; [by rewrite Hit|]. rewrite Hit.
      split; [by rewrite lookup_app_r, Nat.sub_diag by lia|].
      split; [done|split; [done|split; [done|split]]].
      + intros j y Hj. by rewrite lookup_app_l by lia.
      + done. }
  (* the anonymous search stops at the same position *)
  assert (find_if (anonymous_match c q) subs1 = it) as Hfind.
  { apply find_if_unique.
    - intros j y Hj Hy. pose proof (Hbefore j y Hj Hy) as Hy0.
      pose proof (find_if_skipped _ subs j y Hj Hy0) as Hskip.
      unfold named_match in Hskip. unfold anonymous_match.
      destruct (m_name y) as [n|] eqn:Hn.
      + unfold has_name, name in *. rewrite Hn in *. simpl in Hskip.
        apply bool_decide_eq_false in Hskip. destruct n; [done|]. done.
      + assert (y ∈ subs) as Hin by (by eapply list_elem_of_lookup_2).
        specialize (Hanon y Hin Hn).
        destruct (bool_decide (m_object_class_name y = c)) eqn:E1;
          [|by rewrite andb_false_r].
        destruct (bool_decide (m_query_string y = q)) eqn:E2;
          [|by rewrite andb_false_r].
        apply bool_decide_eq_true in E1, E2. by destruct Hanon.
    - exists sub1. split; [done|]. unfold anonymous_match, name.
      rewrite Hname1, Hc1, Hq1. simpl.
      by rewrite !bool_decide_eq_true_2. }
  assert (it ≠ length subs1) as Hlt.
  { apply lookup_lt_Some in Hsub1. lia. }
  set (self1 := with_base self (set_subs (base self) subs1)).
  exists self1, it, ins,
    (with_base self1 (set_subs (base self1) (alter (assign_sub c q now2) it subs1))),
    sub1, (assign_sub c q now2 sub1).
  split; [exact Hcall|]. split; [done|]. split; [done|]. split; [exact Hnew|].
  split.
  { assert (check_is_mutable self1 = Ok ()) as -> by (by apply check_is_mutable_writing).
    simpl. fold c q. rewrite Hfind. by rewrite decide_True. }
  simpl. split; [by rewrite list_lookup_alter_eq, Hsub1|]. split; [done|].
  split; [by unfold has_name; simpl; rewrite Hname1|].
  split; [by unfold name; simpl; rewrite Hname1|].
  by rewrite length_alter.
Qed.

End Editing.

(** ** commit *)

Section Commit.
Context `{HostDecls}.

Lemma write_subs_fmap subs : write_subs subs = SubObj_of_sub <$> subs.
Proof.
  unfold write_subs.
  enough (∀ acc, fold_left (λ l sub, l ++ [SubObj_of_sub sub]) subs acc
                 = acc ++ (SubObj_of_sub <$> subs)) as Hgen by apply (Hgen []).
  induction subs as [|sub subs IH]; intros acc; simpl.
  - by rewrite app_nil_r.
  - rewrite IH. by rewrite <- app_assoc.
Qed.

Lemma m_obj_set_Ok self tr pk row f :
  m_obj self = Some pk → tr_table tr !! pk = Some row →
  m_obj_set self tr f =
    Ok {| tr_stage := tr_stage tr; tr_version := tr_version tr;
          tr_table := <[pk := f row]> (tr_table tr) |}.
Proof. intros Hobj Hrow. unfold m_obj_set, obj_set. by rewrite Hobj, Hrow. Qed.

Lemma set_state_same b : set_state b (m_state b) = b.
Proof. by destruct b. Qed.

(** What [commit] writes to the row of a set whose accessor is attached. *)
Lemma commit_write_Ok self pk row :
  m_obj self = Some pk →
  tr_table (m_tr self) !! pk = Some row →
  ∃ self' tr' row',
    commit_write self = Ok (self', tr')
    ∧ base self' = set_state (base self) (post_commit_state self)
    ∧ tr_table tr' = <[pk := row']> (tr_table (m_tr self))
    ∧ tr_version tr' = tr_version (m_tr self)
    ∧ col_sub_set_state row' = post_commit_state self
    ∧ col_sub_set_snapshot_version row' =
        (if decide (m_old_state self = Uncommitted) then tr_version (m_tr self)
         else col_sub_set_snapshot_version row)
    ∧ col_sub_set_subscriptions row' =
        (if decide (m_old_state self = Uncommitted) then SubObj_of_sub <$> m_subs (base self)
         else col_sub_set_subscriptions row)
    ∧ col_sub_set_error_str row' =
        (if string_empty (m_error_str (base self)) then col_sub_set_error_str row
         else Some (m_error_str (base self))).
Proof.
  intros Hobj Hrow. unfold commit_write, post_commit_state.
  destruct (decide (m_old_state self = Uncommitted)) as [Hold|Hold];
    [destruct (decide (m_state (base self) = Uncommitted)) as [Hst|Hst]|];
    repeat (erewrite m_obj_set_Ok by (done || apply lookup_insert_eq); simpl);
    destruct (string_empty (m_error_str (base self))) eqn:Herr; simpl;
    rewrite ?Herr; simpl;
    repeat (erewrite m_obj_set_Ok by (done || apply lookup_insert_eq); simpl);
    rewrite ?insert_insert_eq, ?write_subs_fmap;
    (eexists _, _, _; split; [reflexivity|]; simpl;
     rewrite ?set_state_same; repeat split; done).
Qed.

Lemma get_by_version_impl_row (st : SubscriptionStore) (v : Z) (row : SubSetObj) :
  db_table (m_db st) !! v = Some row →
  get_by_version_impl st v (Some (db_version (m_db st))) =
    Ok {| m_cur_version := db_version (m_db st); m_version := v;
          m_state := col_sub_set_state row;
          m_error_str := string_of_column (col_sub_set_error_str row);
          m_snapshot_version := col_sub_set_snapshot_version row;
          m_subs := Subscription_of_obj <$> col_sub_set_subscriptions row |}.
Proof.
  intros Hrow. unfold get_by_version_impl, start_frozen, get_object_with_primary_key.
  destruct (decide (db_version (m_db st) = db_version (m_db st))) as [_|?]; [|done].
  simpl. rewrite Hrow. simpl. by rewrite Hrow.
Qed.

(** [commit] on a well-formed write handle: the row it leaves, the set it
    returns, and what it does to the registry and the trace. *)
Lemma commit_wf mgr self pk row :
  tr_stage (m_tr self) = transact_Writing →
  m_obj self = Some pk →
  m_version (base self) = pk →
  tr_table (m_tr self) !! pk = Some row →
  ∃ st' set row',
    commit (Some mgr) self = Ok (st', set)
    ∧ db_table (m_db st') = <[pk := row']> (tr_table (m_tr self))
    ∧ db_version (m_db st') = db_version (m_db mgr) + 1
    ∧ col_sub_set_state row' = post_commit_state self
    ∧ col_sub_set_snapshot_version row' =
        (if decide (m_old_state self = Uncommitted) then tr_version (m_tr self)
         else col_sub_set_snapshot_version row)
    ∧ col_sub_set_subscriptions row' =
        (if decide (m_old_state self = Uncommitted) then SubObj_of_sub <$> m_subs (base self)
         else col_sub_set_subscriptions row)
    ∧ col_sub_set_error_str row' =
        (if string_empty (m_error_str (base self)) then col_sub_set_error_str row
         else Some (m_error_str (base self)))
    ∧ set = {| m_cur_version := db_version (m_db mgr) + 1; m_version := pk;
               m_state := col_sub_set_state row';
               m_error_str := string_of_column (col_sub_set_error_str row');
               m_snapshot_version := col_sub_set_snapshot_version row';
               m_subs := Subscription_of_obj <$> col_sub_set_subscriptions row' |}
    ∧ m_min_outstanding_version st' =
        (if decide (post_commit_state self = Complete) then pk
         else m_min_outstanding_version mgr)
    ∧ m_pending_notifications st' =
        filter (λ req, ¬ finishes (post_commit_state self) pk req) (m_pending_notifications mgr)
    ∧ m_trace st' =
        m_trace mgr ++ [EvCommit (db_version (m_db mgr) + 1)]
        ++ (fulfil (post_commit_state self) pk (m_error_str (base self))
              <$> filter (λ req, finishes (post_commit_state self) pk req)
                    (m_pending_notifications mgr))
        ++ (if decide (post_commit_state self = Pending)
            then [EvOnNewSubscriptionSet pk] else []).
Proof.
  intros Hw Hobj Hver Hrow.
  destruct (commit_write_Ok self pk row Hobj Hrow)
    as (self' & tr' & row' & Hwrite & Hbase & Htab & Htrv & Hst & Hsnap & Hsubs & Herr).
  unfold commit. rewrite decide_False by (by rewrite Hw; intros ?). simpl.
  rewrite Hwrite. simpl. unfold version, state, error_str. rewrite Hbase. simpl.
  rewrite Hver.
  set (post := post_commit_state self) in *.
  destruct (decide (post = Pending)) as [Hp|Hp];
    (rewrite get_by_version_impl_row with (row := row')
       by (simpl; rewrite Htab; apply lookup_insert_eq));
    simpl; (eexists _, _, row'; split; [reflexivity|]); simpl;
    rewrite <- ?app_assoc, ?app_nil_r; simpl; repeat split; done.
Qed.

(** [commit] of a new set on a well-formed write handle. *)
Lemma commit_new_wf mgr self pk row :
  tr_stage (m_tr self) = transact_Writing →
  m_obj self = Some pk →
  m_version (base self) = pk →
  tr_table (m_tr self) !! pk = Some row →
  m_old_state self = Uncommitted →
  ∃ st' set row' resolved,
    commit (Some mgr) self = Ok (st', set)
    ∧ state set =
        (if decide (m_state (base self) = Uncommitted) then Pending else m_state (base self))
    ∧ db_table (m_db st') !! pk = Some row'
    ∧ col_sub_set_state row' = state set
    ∧ col_sub_set_snapshot_version row' = tr_version (m_tr self)
    ∧ m_snapshot_version set = tr_version (m_tr self)
    ∧ m_trace st' =
        m_trace mgr ++ [EvCommit (db_version (m_db st'))] ++ resolved
        ++ (if decide (state set = Pending) then [EvOnNewSubscriptionSet pk] else [])
    ∧ (∀ ev, ev ∈ resolved →
         ∃ p, (∃ s, ev = EvPromiseValue p s) ∨ (∃ msg, ev = EvPromiseError p msg))
    ∧ (EvOnNewSubscriptionSet pk ∈
         [EvCommit (db_version (m_db st'))] ++ resolved
         ++ (if decide (state set = Pending) then [EvOnNewSubscriptionSet pk] else [])
       ↔ state set = Pending).
Proof.
  intros Hw Hobj Hver Hrow Hold.
  destruct (commit_wf mgr self pk row Hw Hobj Hver Hrow)
    as (st' & set & row' & Hc & Htab & Hdbv & Hst & Hsnap & _ & _ & Hset & _ & _ & Htrace).
  assert (post_commit_state self =
          (if decide (m_state (base self) = Uncommitted) then Pending
           else m_state (base self))) as Hpost.
  { unfold post_commit_state. by rewrite decide_True. }
  rewrite decide_True in Hsnap by done.
  set (resolved := fulfil (post_commit_state self) pk (m_error_str (base self))
         <$> filter (λ req, finishes (post_commit_state self) pk req)
               (m_pending_notifications mgr)) in *.
  assert (∀ ev, ev ∈ resolved →
            ∃ p, (∃ s, ev = EvPromiseValue p s) ∨ (∃ msg, ev = EvPromiseError p msg))
    as Hres.
  { intros ev (req & -> & _)%list_elem_of_fmap. exists (nr_promise req).
    unfold fulfil. repeat case_match; eauto. }
  assert (state set = post_commit_state self) as Hstate.
  { rewrite Hset. unfold state. simpl. done. }
  exists st', set, row', resolved.
  split; [done|]. split; [by rewrite Hstate|].
  split; [by rewrite Htab, lookup_insert_eq|]. split; [by rewrite Hstate|].
  split; [done|]. split; [by rewrite Hset|].
  split; [by rewrite Htrace, Hdbv, Hstate|]. split; [done|].
  rewrite !elem_of_app, list_elem_of_singleton.
  split.
  - intros [?|[Hin|Hin]]; [done| |].
    + apply Hres in Hin as (p & [[s ?]|[msg ?]]); done.
    + case_decide; [done|]. by apply elem_of_nil in Hin.
  - intros Hp. right. right. rewrite decide_True by done. apply list_elem_of_here.
Qed.

(** *** Persist, then read *)

Lemma maximum_int_fresh (t : Table) : t !! (maximum_int t + 1) = None.
Proof.
  unfold maximum_int. destruct (max_key t) as [m|] eqn:Hm.
  - apply max_key_Some in Hm as [_ Hmax].
    destruct (t !! (m + 1)) eqn:Hl; [|done].
    assert (m + 1 ≤ m) by (apply Hmax; eauto). lia.
  - apply max_key_None in Hm as ->. apply lookup_empty.
Qed.

Lemma insert_subs_Ok self l :
  tr_stage (m_tr self) = transact_Writing →
  insert_subs self l = Ok (with_base self (set_subs (base self) (m_subs (base self) ++ l))).
Proof.
  revert self. induction l as [|sub l IH]; intros self Hw; simpl.
  - rewrite app_nil_r. by destruct self as [[]].
  - unfold insert_sub. rewrite (check_is_mutable_writing _ Hw). simpl.
    rewrite IH by done. simpl. by rewrite <- app_assoc.
Qed.

Lemma make_mutable_copy_Ok (st : SubscriptionStore) (S : SubscriptionSet) :
  maximum_int (db_table (m_db st)) < INT64_MAX →
  make_mutable_copy st S =
    Ok {| base := {| m_cur_version := db_version (m_db st);
                     m_version := maximum_int (db_table (m_db st)) + 1;
                     m_state := Uncommitted; m_error_str := "";
                     m_snapshot_version := 0; m_subs := m_subs S |};
          m_tr := {| tr_stage := transact_Writing; tr_version := db_version (m_db st);
                     tr_table := <[maximum_int (db_table (m_db st)) + 1 := new_SubSetObj]>
                                   (db_table (m_db st)) |};
          m_obj := Some (maximum_int (db_table (m_db st)) + 1);
          m_old_state := Uncommitted |}.
Proof.
  intros Hmax. unfold make_mutable_copy. simpl.
  rewrite decide_False by lia.
  unfold create_object_with_primary_key. simpl. rewrite maximum_int_fresh.
  unfold MutableSubscriptionSet_new, SubscriptionSet_new. simpl.
  rewrite lookup_insert_eq. simpl. by rewrite insert_subs_Ok.
Qed.

Lemma Subscription_of_obj_of_sub sub : Subscription_of_obj (SubObj_of_sub sub) = sub.
Proof. destruct sub as [? ? ? [n|] ? ?]; reflexivity. Qed.

Lemma subs_round_trip (l : list Subscription) :
  Subscription_of_obj <$> (SubObj_of_sub <$> l) = l.
Proof.
  induction l as [|sub l IH]; [done|]. simpl. f_equal.
  - apply Subscription_of_obj_of_sub.
  - exact IH.
Qed.

Lemma get_by_version_row (st : SubscriptionStore) (v : Z) (row : SubSetObj) :
  db_table (m_db st) !! v = Some row →
  get_by_version st v =
    Ok {| m_cur_version := db_version (m_db st); m_version := v;
          m_state := col_sub_set_state row;
          m_error_str := string_of_column (col_sub_set_error_str row);
          m_snapshot_version := col_sub_set_snapshot_version row;
          m_subs := Subscription_of_obj <$> col_sub_set_subscriptions row |}.
Proof.
  intros Hrow. unfold get_by_version, get_by_version_impl, get_object_with_primary_key.
  simpl. rewrite Hrow. simpl. by rewrite Hrow.
Qed.

(** C6.  [make_mutable_copy(S)] followed at once by [commit] returns
    normally (the next version number being representable), and reading
    the new version back with [get_by_version] gives a set whose list of
    subscriptions is that of [S], element by element and field by field;
    so does the set [commit] itself returns. *)
Theorem make_mutable_copy_commit_get_by_version (st : SubscriptionStore) (S : SubscriptionSet) :
  maximum_int (db_table (m_db st)) < INT64_MAX →
  ∃ self st' set set',
    make_mutable_copy st S = Ok self
    ∧ version (base self) = maximum_int (db_table (m_db st)) + 1
    ∧ commit (Some st) self = Ok (st', set)
    ∧ get_by_version st' (version (base self)) = Ok set'
    ∧ version set' = version (base self)
    ∧ m_subs set' = m_subs S
    ∧ m_subs set = m_subs S.
Proof.
  intros Hmax. pose proof (make_mutable_copy_Ok st S Hmax) as Hcopy.
  match type of Hcopy with _ = Ok ?h => set (self := h) in * end.
  set (pk := maximum_int (db_table (m_db st)) + 1) in *.
  destruct (commit_wf st self pk new_SubSetObj)
    as (st' & set & row' & Hc & Htab & _ & _ & _ & Hsubs & _ & Hset & _);
    [done|done|done|apply lookup_insert_eq|].
  exists self, st', set. eexists. split; [exact Hcopy|]. split; [reflexivity|].
  split; [exact Hc|].
  simpl in Hsubs.
  rewrite (get_by_version_row st' _ row') by (rewrite Htab; apply lookup_insert_eq).
  split; [reflexivity|]. simpl. split; [done|].
  assert (Subscription_of_obj <$> col_sub_set_subscriptions row' = m_subs S) as Hrt.
  { rewrite Hsubs. apply subs_round_trip. }
  split; [done|]. by rewrite Hset.
Qed.

End Commit.

(** ** The order on strings *)

Lemma ascii_compare_lt_trans (a b c : ascii) :
  Ascii.compare a b = Lt → Ascii.compare b c = Lt → Ascii.compare a c = Lt.
Proof.
  unfold Ascii.compare. rewrite !N.compare_lt_iff. apply N.lt_trans.
Qed.

Lemma string_compare_lt_trans (s1 s2 s3 : string) :
  String.compare s1 s2 = Lt → String.compare s2 s3 = Lt → String.compare s1 s3 = Lt.
Proof.
  revert s2 s3. induction s1 as [|a s1 IH]; intros [|b s2] [|c s3]; simpl; try done.
  destruct (Ascii.compare a b) eqn:Hab; try done;
    destruct (Ascii.compare b c) eqn:Hbc; try done; intros H12 H23.
  - apply Ascii.compare_eq_iff in Hab, Hbc. subst.
    assert (Ascii.compare c c = Eq) as -> by (unfold Ascii.compare; apply N.compare_refl).
    by apply (IH s2).
  - apply Ascii.compare_eq_iff in Hab. subst. by rewrite Hbc.
  - apply Ascii.compare_eq_iff in Hbc. subst. by rewrite Hab.
  - by rewrite (ascii_compare_lt_trans a b c).
Qed.

Lemma string_le_compare (a b : string) : string_le a b ↔ String.compare a b ≠ Gt.
Proof. unfold string_le, String.leb. destruct (String.compare a b); naive_solver. Qed.

#[global] Instance string_le_total : Total string_le.
Proof.
  intros a b. unfold string_le.
  destruct (String.leb_total a b) as [->| ->]; [by left|by right].
Qed.

#[global] Instance string_le_antisym : AntiSymm (=) string_le.
Proof.
  intros a b Hab Hba. unfold string_le in *.
  apply String.leb_antisym; by apply Is_true_true.
Qed.

#[global] Instance string_le_trans : Transitive string_le.
Proof.
  intros a b c. rewrite !string_le_compare. intros Hab Hbc.
  destruct (String.compare a b) eqn:E1; [| |done].
  - apply String.compare_eq_iff in E1. by subst.
  - destruct (String.compare b c) eqn:E2; [| |done].
    + apply String.compare_eq_iff in E2. subst. by rewrite E1.
    + by rewrite (string_compare_lt_trans a b c).
Qed.

Lemma stable_sort_Permutation (l1 l2 : list string) :
  l1 ≡ₚ l2 → stable_sort l1 = stable_sort l2.
Proof.
  intros Hp. unfold stable_sort.
  apply (Sorted_unique string_le); try apply Sorted_merge_sort; try apply _.
  by rewrite !merge_sort_Permutation.
Qed.

(** ** The external form depends on the registered pairs only *)

Section ExtJsonProps.
Variable json_escape : string → option string.

Lemma add_query_pair m sub : add_query m sub = add_pair (pair_of sub) m.
Proof. unfold add_query, add_pair, pair_of. simpl. by case_bool_decide. Qed.

Lemma fold_left_add_query subs m :
  fold_left add_query subs m = foldr add_pair m (reverse (pair_of <$> subs)).
Proof.
  revert m. induction subs as [|sub subs IH]; intros m; [done|].
  simpl. rewrite IH, reverse_cons, foldr_app. simpl. by rewrite add_query_pair.
Qed.

#[local] Instance tables_agree_equiv : Equivalence tables_agree.
Proof.
  split.
  - intros m c. reflexivity.
  - intros m1 m2 H12 c. symmetry. apply H12.
  - intros m1 m2 m3 H12 H23 c. etrans; [apply H12|apply H23].
Qed.

Lemma lookup_add_pair p m c :
  add_pair p m !! c =
    if decide (p.1 = c)
    then Some (let l := default [] (m !! p.1) in
               if bool_decide (p.2 ∈ l) then l else l ++ [p.2])
    else m !! c.
Proof.
  unfold add_pair. case_decide as Hc.
  - subst. by rewrite lookup_insert_eq.
  - by rewrite lookup_insert_ne.
Qed.

Lemma default_agree m1 m2 c :
  tables_agree m1 m2 → default [] (m1 !! c) ≡ₚ default [] (m2 !! c).
Proof. intros Hm. by destruct (Hm c). Qed.

Lemma add_step_agree (q : string) (l1 l2 : list string) :
  l1 ≡ₚ l2 →
  (if bool_decide (q ∈ l1) then l1 else l1 ++ [q])
  ≡ₚ (if bool_decide (q ∈ l2) then l2 else l2 ++ [q]).
Proof.
  intros Hl. destruct (decide (q ∈ l1)) as [Hin|Hin].
  - rewrite !bool_decide_eq_true_2; [done| by rewrite <- Hl | done].
  - rewrite !bool_decide_eq_false_2; [by rewrite Hl | by rewrite <- Hl | done].
Qed.

#[local] Instance add_pair_agree p : Proper (tables_agree ==> tables_agree) (add_pair p).
Proof.
  intros m1 m2 Hm c. rewrite !lookup_add_pair. case_decide; [|apply Hm].
  constructor. simpl. apply add_step_agree. by apply default_agree.
Qed.

Lemma add_pair_swap p1 p2 m :
  tables_agree (add_pair p1 (add_pair p2 m)) (add_pair p2 (add_pair p1 m)).
Proof.
  intros c. destruct p1 as [c1 q1], p2 as [c2 q2].
  rewrite !lookup_add_pair. simpl.
  destruct (decide (c1 = c)) as [->|H1], (decide (c2 = c)) as [->|H2];
    rewrite ?decide_True by done; rewrite ?decide_False by done;
    try (constructor; simpl).
  - set (l := default [] (m !! c)).
    destruct (decide (q1 = q2)) as [->|Hq]; [done|].
    destruct (decide (q1 ∈ l)) as [Hi1|Hi1], (decide (q2 ∈ l)) as [Hi2|Hi2].
    + rewrite (bool_decide_eq_true_2 (q2 ∈ l)), (bool_decide_eq_true_2 (q1 ∈ l)) by done.
      by rewrite (bool_decide_eq_true_2 (q2 ∈ l)) by done.
    + rewrite (bool_decide_eq_false_2 (q2 ∈ l)), (bool_decide_eq_true_2 (q1 ∈ l)) by done.
      rewrite (bool_decide_eq_true_2 (q1 ∈ l ++ [q2])) by (apply elem_of_app; by left).
      by rewrite (bool_decide_eq_false_2 (q2 ∈ l)) by done.
    + rewrite (bool_decide_eq_true_2 (q2 ∈ l)), (bool_decide_eq_false_2 (q1 ∈ l)) by done.
      by rewrite (bool_decide_eq_true_2 (q2 ∈ l ++ [q1])) by (apply elem_of_app; by left).
    + rewrite (bool_decide_eq_false_2 (q2 ∈ l)), (bool_decide_eq_false_2 (q1 ∈ l)) by done.
      rewrite (bool_decide_eq_false_2 (q1 ∈ l ++ [q2]))
        by (rewrite elem_of_app, list_elem_of_singleton; intros [?|?]; done).
      rewrite (bool_decide_eq_false_2 (q2 ∈ l ++ [q1]))
        by (rewrite elem_of_app, list_elem_of_singleton; intros [?|?]; done).
      rewrite <- !app_assoc. apply Permutation_app_head. simpl. apply perm_swap.
  - done.
  - done.
  - reflexivity.
Qed.

Lemma table_to_query_of_agree subs1 subs2 :
  pair_of <$> subs1 ≡ₚ pair_of <$> subs2 →
  tables_agree (table_to_query_of subs1) (table_to_query_of subs2).
Proof.
  intros Hp. unfold table_to_query_of. rewrite !fold_left_add_query.
  apply (foldr_permutation_proper tables_agree add_pair ∅).
  - apply add_pair_swap.
  - by rewrite !reverse_Permutation.
Qed.

Lemma sorted_queries_agree S1 S2 :
  class_query_pairs S1 ≡ₚ class_query_pairs S2 → sorted_queries S1 = sorted_queries S2.
Proof.
  intros Hp. apply table_to_query_of_agree in Hp.
  apply map_eq. intros c. unfold sorted_queries. rewrite !lookup_fmap.
  destruct (Hp c) as [l1 l2 Hl|]; simpl; [|done].
  f_equal. by apply stable_sort_Permutation.
Qed.

(** The table built by the first loop, key by key: the queries registered
    for the class, each once. *)
Lemma foldr_add_pair_spec (l : list (string * string)) (c : string) :
  match foldr add_pair ∅ l !! c with
  | Some qs => qs ≠ [] ∧ NoDup qs ∧ ∀ q, q ∈ qs ↔ (c, q) ∈ l
  | None => ∀ q, (c, q) ∉ l
  end.
Proof.
  induction l as [|[c0 q0] l IH]; simpl.
  - rewrite lookup_empty. intros q Hin. by apply elem_of_nil in Hin.
  - rewrite lookup_add_pair. simpl. case_decide as Hc.
    + subst c0. destruct (foldr add_pair ∅ l !! c) as [qs|]; simpl.
      * destruct IH as (Hne & Hnd & Hmem). case_bool_decide as Hin.
        -- split; [done|]. split; [done|]. intros q. rewrite elem_of_cons, Hmem.
           split; [by right|]. intros [[= ->]|?]; [by apply Hmem|done].
        -- split; [by destruct qs|]. split.
           ++ apply NoDup_app. split; [done|]. split; [|apply NoDup_singleton].
              intros x Hx Hx'. apply list_elem_of_singleton in Hx' as ->. done.
           ++ intros q. rewrite elem_of_app, list_elem_of_singleton, elem_of_cons, Hmem.
              split; [intros [?| ->]; [by right|by left]|].
              intros [[= ->]|?]; [by right|by left].
      * split; [done|]. split; [apply NoDup_singleton|]. intros q.
        rewrite list_elem_of_singleton, elem_of_cons.
        split; [intros ->; by left|]. intros [[= ->]|Hin]; [done|]. by apply IH in Hin.
    + destruct (foldr add_pair ∅ l !! c) as [qs|].
      * destruct IH as (Hne & Hnd & Hmem). split; [done|]. split; [done|].
        intros q. rewrite elem_of_cons, Hmem.
        split; [by right|]. intros [[= ? ?]|?]; [by subst|done].
      * intros q Hin. apply elem_of_cons in Hin as [[= ? ?]|Hin]; [by subst|].
        by apply IH in Hin.
Qed.

Lemma table_to_query_of_spec (S : SubscriptionSet) (c : string) :
  match table_to_query_of (m_subs S) !! c with
  | Some qs => qs ≠ [] ∧ NoDup qs ∧ ∀ q, q ∈ qs ↔ (c, q) ∈ class_query_pairs S
  | None => ∀ q, (c, q) ∉ class_query_pairs S
  end.
Proof.
  unfold table_to_query_of, class_query_pairs. rewrite fold_left_add_query.
  pose proof (foldr_add_pair_spec (reverse (pair_of <$> m_subs S)) c) as Hspec.
  destruct (foldr add_pair ∅ (reverse (pair_of <$> m_subs S)) !! c) as [qs|].
  - destruct Hspec as (Hne & Hnd & Hmem). split; [done|]. split; [done|].
    intros q. by rewrite Hmem, elem_of_reverse.
  - intros q. specialize (Hspec q). by rewrite elem_of_reverse in Hspec.
Qed.

Lemma to_ext_json_sorted_queries (S : SubscriptionSet) :
  to_ext_json json_escape S =
    if decide (sorted_queries S = ∅) then Ok "{}"%string
    else dump json_escape (or_join true <$> sorted_queries S).
Proof.
  unfold to_ext_json, sorted_queries.
  destruct (m_subs S) as [|sub subs] eqn:Hsubs.
  - unfold table_to_query_of. simpl. rewrite fmap_empty. by rewrite decide_True.
  - destruct (decide (table_to_query_of (sub :: subs) = ∅)) as [He|Hne].
    + rewrite He, fmap_empty. by rewrite decide_True.
    + rewrite decide_False; [done|]. by rewrite fmap_empty_iff.
Qed.

(** C9.  Two sets whose lists of [(object_class, query_string)] pairs are
    equal as multisets have the same [to_ext_json]; a set without
    subscriptions gives ["{}"]; otherwise the result is the dump of the
    object that maps each class with a subscription to the [" OR "]-joined,
    parenthesised queries of that class, each query once and in sorted
    order. *)
Theorem to_ext_json_function_of_pairs :
  (∀ S1 S2, class_query_pairs S1 ≡ₚ class_query_pairs S2 →
     to_ext_json json_escape S1 = to_ext_json json_escape S2)
  ∧ (∀ S, m_subs S = [] → to_ext_json json_escape S = Ok "{}"%string)
  ∧ (∀ S, m_subs S ≠ [] →
       to_ext_json json_escape S = dump json_escape (or_join true <$> sorted_queries S))
  ∧ (∀ S c, is_Some (sorted_queries S !! c) ↔ ∃ q, (c, q) ∈ class_query_pairs S)
  ∧ (∀ S c l, sorted_queries S !! c = Some l →
       Sorted string_le l ∧ NoDup l ∧ ∀ q, q ∈ l ↔ (c, q) ∈ class_query_pairs S).
Proof.
  assert (∀ S c l, sorted_queries S !! c = Some l →
            Sorted string_le l ∧ NoDup l ∧ l ≠ []
            ∧ ∀ q, q ∈ l ↔ (c, q) ∈ class_query_pairs S) as Hval.
  { intros S c l. unfold sorted_queries. rewrite lookup_fmap.
    pose proof (table_to_query_of_spec S c) as Hspec.
    destruct (table_to_query_of (m_subs S) !! c) as [qs|]; simpl; [|done].
    intros [= <-]. destruct Hspec as (Hne & Hnd & Hmem). unfold stable_sort.
    split; [apply Sorted_merge_sort, _|].
    split; [by rewrite merge_sort_Permutation|].
    split.
    - intros He. apply Hne. apply Permutation_nil_r. by rewrite <- He, merge_sort_Permutation.
    - intros q. by rewrite merge_sort_Permutation. }
  assert (∀ S c, is_Some (sorted_queries S !! c) ↔ ∃ q, (c, q) ∈ class_query_pairs S)
    as Hkeys.
  { intros S c. split.
    - intros [l Hl]. destruct (Hval S c l Hl) as (_ & _ & Hne & Hmem).
      destruct l as [|q l]; [done|]. exists q. apply Hmem, list_elem_of_here.
    - intros [q Hq]. unfold sorted_queries. rewrite lookup_fmap, fmap_is_Some.
      pose proof (table_to_query_of_spec S c) as Hspec.
      destruct (table_to_query_of (m_subs S) !! c) as [qs|]; [done|].
      by destruct (Hspec q). }
  split; [|split; [|split; [|split]]].
  - intros S1 S2 Hp. rewrite !to_ext_json_sorted_queries.
    by rewrite (sorted_queries_agree S1 S2 Hp).
  - intros S HS. unfold to_ext_json. by rewrite HS.
  - intros S HS. rewrite to_ext_json_sorted_queries.
    rewrite decide_False; [done|]. intros He.
    destruct (m_subs S) as [|sub subs] eqn:Hsubs; [done|].
    assert (is_Some (sorted_queries S !! m_object_class_name sub)) as [l Hl].
    { apply Hkeys. exists (m_query_string sub). unfold class_query_pairs.
      rewrite Hsubs. apply list_elem_of_here. }
    rewrite He, lookup_empty in Hl. done.
  - exact Hkeys.
  - intros S c l Hl. destruct (Hval S c l Hl) as (? & ? & _ & ?). done.
Qed.

End ExtJsonProps.

(** ** Invariants of the runs *)

Section Invariants.
Context `{HostDecls}.

Lemma same_but_subs_refl self : same_but_subs self self.
Proof. by repeat split. Qed.

Lemma same_but_subs_trans s1 s2 s3 :
  same_but_subs s1 s2 → same_but_subs s2 s3 → same_but_subs s1 s3.
Proof.
  intros (? & ? & ? & ? & ? & ?) (? & ? & ? & ? & ? & ?).
  repeat split; congruence.
Qed.

Lemma same_but_subs_set_subs self l :
  same_but_subs self (with_base self (set_subs (base self) l)).
Proof. by repeat split. Qed.

Lemma insert_subs_frame self l self' :
  insert_subs self l = Ok self' → same_but_subs self self'.
Proof.
  revert self. induction l as [|sub l IH]; intros self Hi; simpl in Hi.
  - inv_result. apply same_but_subs_refl.
  - unfold insert_sub in Hi. inv_result.
    eapply same_but_subs_trans; [apply same_but_subs_set_subs|]. by apply IH.
Qed.

(** The member functions that edit the subscriptions touch [m_subs] only
    and leave the store alone. *)
Lemma apply_op_frame st self o st' self' :
  (∀ new_state error_str, o ≠ op_update_state new_state error_str) →
  o ≠ op_supercede_all_except →
  apply_op st self o = Ok (st', self') → st' = st ∧ same_but_subs self self'.
Proof.
  intros Hno Hno' Hop. destruct o as [sub|n q g t|q g t|it| |src|ns es|]; simpl in Hop.
  - unfold insert_sub in Hop. inv_result. split; [done|]. apply same_but_subs_set_subs.
  - unfold insert_or_assign_named, insert_or_assign_impl in Hop.
    apply fmap_Ok in Hop as ([h r] & Hop & [= -> ->]). inv_result.
    case_decide; inv_result; (split; [done|]); apply same_but_subs_set_subs.
  - unfold insert_or_assign, insert_or_assign_impl in Hop.
    apply fmap_Ok in Hop as ([h r] & Hop & [= -> ->]). inv_result.
    case_decide; inv_result; (split; [done|]); apply same_but_subs_set_subs.
  - unfold erase in Hop. apply fmap_Ok in Hop as ([h r] & Hop & [= -> ->]). inv_result.
    case_decide; inv_result. split; [done|]. apply same_but_subs_set_subs.
  - unfold clear in Hop. inv_result. split; [done|]. apply same_but_subs_set_subs.
  - unfold import, clear in Hop. inv_result. split; [done|].
    eapply same_but_subs_trans; [apply same_but_subs_set_subs|].
    by eapply insert_subs_frame.
  - by destruct (Hno ns es).
  - done.
Qed.

Lemma supercede_all_except_Ok st self st' self' :
  supercede_all_except st self = Ok (st', self') →
  m_db st' = m_db st
  ∧ self' = with_tr self (supercede_prior_to (m_tr self) (m_version (base self))).
Proof.
  unfold supercede_all_except. case_decide; [|done]. by intros [= <- <-].
Qed.

(** The three ways in which [update_state] returns normally. *)
Lemma update_state_Ok m_mgr self new_state error_str self' :
  update_state m_mgr self new_state error_str = Ok self' →
  m_obj self' = m_obj self ∧ m_old_state self' = m_old_state self
  ∧ m_version (base self') = m_version (base self)
  ∧ m_state (base self') = new_state
  ∧ ((new_state = Error ∧ error_str = Some (m_error_str (base self'))
      ∧ m_tr self' = m_tr self)
     ∨ (new_state = Bootstrapping ∧ error_str = None
        ∧ m_error_str (base self') = m_error_str (base self) ∧ m_tr self' = m_tr self)
     ∨ (new_state = Complete ∧ error_str = None
        ∧ m_error_str (base self') = m_error_str (base self)
        ∧ m_tr self' = supercede_prior_to (m_tr self) (m_version (base self)))).
Proof.
  unfold update_state. intros Hu. inv_result.
  destruct new_state, error_str as [e|]; try discriminate;
    repeat case_match; inv_result; simpl; repeat split; eauto 10.
Qed.

Lemma get_mutable_by_version_Ok st v self :
  get_mutable_by_version st v = Ok self →
  ∃ row, db_table (m_db st) !! v = Some row
    ∧ self = {| base := {| m_cur_version := db_version (m_db st); m_version := v;
                           m_state := col_sub_set_state row;
                           m_error_str := string_of_column (col_sub_set_error_str row);
                           m_snapshot_version := col_sub_set_snapshot_version row;
                           m_subs := Subscription_of_obj <$> col_sub_set_subscriptions row |};
                m_tr := start_write (m_db st); m_obj := Some v;
                m_old_state := col_sub_set_state row |}.
Proof.
  unfold get_mutable_by_version, get_object_with_primary_key. simpl.
  destruct (db_table (m_db st) !! v) as [row|] eqn:Hrow; simpl; [|done].
  unfold MutableSubscriptionSet_new, SubscriptionSet_new. simpl. rewrite Hrow. simpl.
  intros [= <-]. by exists row.
Qed.

Lemma make_mutable_copy_inv st S self :
  make_mutable_copy st S = Ok self →
  maximum_int (db_table (m_db st)) < INT64_MAX
  ∧ self = {| base := {| m_cur_version := db_version (m_db st);
                         m_version := maximum_int (db_table (m_db st)) + 1;
                         m_state := Uncommitted; m_error_str := "";
                         m_snapshot_version := 0; m_subs := m_subs S |};
              m_tr := {| tr_stage := transact_Writing; tr_version := db_version (m_db st);
                         tr_table := <[maximum_int (db_table (m_db st)) + 1 := new_SubSetObj]>
                                       (db_table (m_db st)) |};
              m_obj := Some (maximum_int (db_table (m_db st)) + 1);
              m_old_state := Uncommitted |}.
Proof.
  intros Hc. destruct (decide (maximum_int (db_table (m_db st)) < INT64_MAX)) as [Hlt|Hge].
  - split; [done|]. rewrite make_mutable_copy_Ok in Hc by done. by injection Hc.
  - unfold make_mutable_copy in Hc. simpl in Hc. rewrite decide_True in Hc by lia. done.
Qed.

Lemma maximum_int_ge (t : Table) (v : Z) : is_Some (t !! v) → v ≤ maximum_int t.
Proof.
  intros Hv. unfold maximum_int. destruct (max_key t) as [m|] eqn:Hm.
  - apply max_key_Some in Hm as [_ Hmax]. by apply Hmax.
  - apply max_key_None in Hm as ->. rewrite lookup_empty in Hv. by destruct Hv.
Qed.

Lemma open_complete_inv st o self :
  complete_is_oldest (db_table (m_db st)) →
  open st o = Ok self → ∃ pk, handle_complete_inv self pk.
Proof.
  intros Hinv Hopen. destruct o as [S|v]; simpl in Hopen.
  - apply make_mutable_copy_inv in Hopen as [Hmax ->].
    set (pk := maximum_int (db_table (m_db st)) + 1).
    exists pk. split; [|split]; simpl.
    + repeat split; simpl; try done. rewrite lookup_insert_eq. by eexists.
    + intros v row Hv Hne Hst w Hw. rewrite lookup_insert_ne in Hv by done.
      assert (v ≤ maximum_int (db_table (m_db st))) by (apply maximum_int_ge; eauto).
      rewrite lookup_insert_ne by (unfold pk; lia). by eapply Hinv.
    + done.
  - apply get_mutable_by_version_Ok in Hopen as (row & Hrow & ->).
    exists v. split; [|split]; simpl.
    + repeat split; simpl; try done.
    + intros v' row' Hv _ Hst w Hw. by eapply Hinv.
    + intros Hst w Hw. by eapply Hinv.
Qed.

Lemma handle_complete_inv_same self self' pk :
  same_but_subs self self' → handle_complete_inv self pk → handle_complete_inv self' pk.
Proof.
  intros (Htr & Hobj & _ & Hst & Hv & _) ((Hw & Ho & Hver & Hrow) & Hb & Hc).
  unfold handle_complete_inv, handle_wf. rewrite Htr, Hobj, Hst, Hv. done.
Qed.

Lemma lookup_supercede_prior_to tr v k :
  tr_table (supercede_prior_to tr v) !! k = if decide (k < v) then None else tr_table tr !! k.
Proof.
  unfold supercede_prior_to. simpl. case_decide as Hk.
  - apply map_lookup_filter_None. right. intros row _. simpl. by intros Hn.
  - destruct (tr_table tr !! k) as [row|] eqn:Hrow.
    + apply map_lookup_filter_Some. by split.
    + apply map_lookup_filter_None. by left.
Qed.

Lemma handle_complete_inv_supercede self pk :
  handle_complete_inv self pk →
  handle_complete_inv
    (with_tr self (supercede_prior_to (m_tr self) (m_version (base self)))) pk.
Proof.
  intros ((Hw & Ho & Hver & Hrow) & Hb & Hc).
  unfold handle_complete_inv, handle_wf, with_tr. cbn [m_tr base m_obj].
  rewrite Hver. split; [|split].
  - repeat split; try done. rewrite lookup_supercede_prior_to.
    by rewrite decide_False by lia.
  - intros v row. rewrite !lookup_supercede_prior_to. case_decide; [done|].
    intros Hrow' Hne Hcomp w Hlt. rewrite lookup_supercede_prior_to.
    case_decide; [done|]. by eapply Hb.
  - intros _ w Hlt. rewrite lookup_supercede_prior_to. by rewrite decide_True.
Qed.

(** No call of a session writes to the database before [commit]. *)
Lemma apply_op_db st self o st' self' :
  apply_op st self o = Ok (st', self') → m_db st' = m_db st.
Proof.
  intros Hop.
  destruct o as [sub|n q g t|q g t|it| |src|ns es|];
    try (match type of Hop with apply_op _ _ ?o = _ =>
           destruct (apply_op_frame st self o st' self') as [-> _];
           [intros ? ?; discriminate|discriminate|done|done] end).
  - simpl in Hop. by apply fmap_Ok in Hop as (h & _ & [= -> ->]).
  - simpl in Hop. by apply supercede_all_except_Ok in Hop as [-> _].
Qed.

Lemma apply_ops_db st self ops st' self' :
  apply_ops st self ops = Ok (st', self') → m_db st' = m_db st.
Proof.
  revert st self. induction ops as [|o ops IH]; intros st self Hops; simpl in Hops.
  - by inv_result.
  - apply bind_Ok in Hops as ([st1 self1] & Hop & Hops).
    rewrite (IH st1 self1 Hops). by eapply apply_op_db.
Qed.

Lemma apply_op_complete_inv st self o st' self' pk :
  handle_complete_inv self pk → apply_op st self o = Ok (st', self') →
  handle_complete_inv self' pk.
Proof.
  intros Hinv Hop.
  destruct o as [sub|n q g t|q g t|it| |src|ns es|];
    try (match type of Hop with apply_op _ _ ?o = _ =>
           destruct (apply_op_frame st self o st' self') as [_ Hsame];
           [intros ? ?; discriminate|discriminate|done|] end;
         by eapply handle_complete_inv_same).
  - simpl in Hop. apply fmap_Ok in Hop as (h & Hop & [= -> ->]).
    pose proof Hinv as ((Hw & Ho & Hver & Hrow) & Hb & Hc).
    apply update_state_Ok in Hop
      as (Hobj & _ & Hv & Hst & [(-> & _ & Htr)|[(-> & _ & _ & Htr)|(-> & _ & _ & Htr)]]).
    + unfold handle_complete_inv, handle_wf. by rewrite Htr, Hobj, Hv, Hst.
    + unfold handle_complete_inv, handle_wf. by rewrite Htr, Hobj, Hv, Hst.
    + apply handle_complete_inv_supercede in Hinv.
      destruct Hinv as (Hwf' & Hb' & _).
      unfold with_tr in *. cbn [m_tr base m_obj] in *.
      unfold handle_complete_inv, handle_wf in *. rewrite Htr, Hobj, Hv.
      split; [done|]. split; [done|]. intros _ w Hlt.
      rewrite lookup_supercede_prior_to, Hver. by rewrite decide_True.
  - simpl in Hop. apply supercede_all_except_Ok in Hop as [Hdb ->].
    by apply handle_complete_inv_supercede.
Qed.

Lemma apply_ops_complete_inv st self ops st' self' pk :
  handle_complete_inv self pk → apply_ops st self ops = Ok (st', self') →
  handle_complete_inv self' pk.
Proof.
  revert st self. induction ops as [|o ops IH]; intros st self Hinv Hops; simpl in Hops.
  - by inv_result.
  - apply bind_Ok in Hops as ([st1 self1] & Hop & Hops).
    eapply IH; [|done]. by eapply apply_op_complete_inv.
Qed.

Lemma post_commit_state_Complete self :
  post_commit_state self = Complete ↔ m_state (base self) = Complete.
Proof. unfold post_commit_state. repeat case_decide; split; congruence. Qed.

Lemma commit_complete_inv st self pk st' set :
  handle_complete_inv self pk →
  commit (Some st) self = Ok (st', set) →
  complete_is_oldest (db_table (m_db st'))
  ∧ m_version set = pk
  ∧ (m_state set = Complete →
     (∀ w, w < pk → db_table (m_db st') !! w = None)
     ∧ m_min_outstanding_version st' = pk).
Proof.
  intros ((Hw & Hobj & Hver & [row Hrow]) & Hb & Hc) Hcommit.
  destruct (commit_wf st self pk row Hw Hobj Hver Hrow)
    as (st1 & set1 & row' & Hc1 & Htab & _ & Hst & _ & _ & _ & Hset & Hmin & _).
  rewrite Hcommit in Hc1. injection Hc1 as <- <-.
  split; [|split].
  - intros v r Hv Hcomp w Hlt. rewrite Htab in *.
    destruct (decide (v = pk)) as [->|Hne].
    + rewrite lookup_insert_eq in Hv. injection Hv as <-.
      rewrite lookup_insert_ne by lia. apply Hc; [|done].
      apply post_commit_state_Complete. congruence.
    + rewrite lookup_insert_ne in Hv by done.
      pose proof (Hb v r Hv Hne Hcomp) as Hnone.
      destruct (decide (w = pk)) as [->|Hne'].
      * rewrite (Hnone pk Hlt) in Hrow. done.
      * rewrite lookup_insert_ne by done. by apply Hnone.
  - by rewrite Hset.
  - rewrite Hset. simpl. rewrite Hst. intros Hcomp. split.
    + intros w Hlt. rewrite Htab, lookup_insert_ne by lia. apply Hc; [|done].
      by apply post_commit_state_Complete.
    + by rewrite Hmin, decide_True.
Qed.

Lemma session_complete_inv st o ops st' set :
  complete_is_oldest (db_table (m_db st)) →
  session st o ops = Ok (st', set) →
  complete_is_oldest (db_table (m_db st'))
  ∧ (m_state set = Complete →
     (∀ w, w < m_version set → db_table (m_db st') !! w = None)
     ∧ m_min_outstanding_version st' = m_version set).
Proof.
  intros Hinv Hs. unfold session in Hs.
  apply bind_Ok in Hs as (self & Hopen & Hs).
  apply bind_Ok in Hs as ([st1 self1] & Hops & Hs).
  destruct (open_complete_inv st o self Hinv Hopen) as [pk Hh].
  pose proof (apply_ops_complete_inv st self ops st1 self1 pk Hh Hops) as Hh'.
  destruct (commit_complete_inv st1 self1 pk st' set Hh' Hs) as (Hold & Hv & Hcomp).
  split; [done|]. by rewrite Hv.
Qed.

Lemma SubscriptionStore_new_complete_inv db :
  complete_is_oldest (db_table db) →
  complete_is_oldest (db_table (m_db (SubscriptionStore_new db))).
Proof.
  intros Hinv. unfold SubscriptionStore_new. simpl. case_decide as He; [|done].
  simpl. rewrite He. intros v row Hv Hcomp.
  destruct (decide (v = 0)) as [->|Hne].
  - rewrite lookup_insert_eq in Hv. by injection Hv as <-.
  - rewrite lookup_insert_ne, lookup_empty in Hv by done. done.
Qed.

Lemma get_state_change_notification_db m_mgr set notify_when st st' fut :
  m_mgr = Some st →
  get_state_change_notification m_mgr set notify_when = Ok (st', fut) →
  m_db st' = m_db st.
Proof.
  intros -> Hn. unfold get_state_change_notification in Hn. simpl in Hn.
  case_decide; inv_result; [done|].
  match goal with x : State * string |- _ => destruct x end.
  repeat case_match; inv_result; done.
Qed.

Lemma reachable_complete_is_oldest allowed st :
  reachable_by allowed st → complete_is_oldest (db_table (m_db st)).
Proof.
  induction 1 as [snapshot|st o ops st' set _ IH _ Hs|st o ops self st' self' _ IH Ho Ha
                  |st set nw st' fut _ IH Hn|st _ IH].
  - apply SubscriptionStore_new_complete_inv. simpl. intros v row Hv.
    by rewrite lookup_empty in Hv.
  - by destruct (session_complete_inv st o ops st' set IH Hs).
  - by rewrite (apply_ops_db st self ops st' self' Ha).
  - by rewrite (get_state_change_notification_db _ _ _ st st' fut eq_refl Hn).
  - by apply SubscriptionStore_new_complete_inv.
Qed.

Lemma complete_is_oldest_at_most_one (t : Table) :
  complete_is_oldest t → at_most_one_complete t.
Proof.
  intros Hinv v1 v2 row1 row2 H1 H2 Hc1 Hc2.
  destruct (Z.lt_trichotomy v1 v2) as [Hlt|[->|Hgt]]; [|done|].
  - rewrite (Hinv v2 row2 H2 Hc2 v1 Hlt) in H1. done.
  - rewrite (Hinv v1 row1 H1 Hc1 v2 Hgt) in H2. done.
Qed.

(** C4.  [update_state(Complete)] on a set in a write transaction
    returns, having removed from that transaction every row whose version
    is less than the set's and kept the others; [process_notifications] of
    a set in state [Complete] sets [m_min_outstanding_version] to its
    version; so after a session that commits a set in state [Complete] no
    older row is persisted and the watermark is the set's version; and in
    every store a program can arrive at, at most one persisted set has
    state [Complete]. *)
Theorem complete_supersedes_older_versions :
  (∀ mgr self,
     tr_stage (m_tr self) = transact_Writing →
     ∃ self', update_state (Some mgr) self Complete None = Ok self'
       ∧ state (base self') = Complete
       ∧ ∀ w, tr_table (m_tr self') !! w =
              if decide (w < version (base self)) then None else tr_table (m_tr self) !! w)
  ∧ (∀ mgr self,
       state (base self) = Complete →
       ∃ st', process_notifications (Some mgr) self = Ok st'
         ∧ m_min_outstanding_version st' = version (base self))
  ∧ (∀ st o ops st' set,
       reachable st → session st o ops = Ok (st', set) → state set = Complete →
       (∀ w, w < version set → db_table (m_db st') !! w = None)
       ∧ m_min_outstanding_version st' = version set)
  ∧ (∀ st, reachable st → at_most_one_complete (db_table (m_db st))).
Proof.
  split; [|split; [|split]].
  - intros mgr self Hw. unfold update_state.
    rewrite (check_is_mutable_writing _ Hw). simpl.
    eexists. split; [reflexivity|]. split; [done|].
    intros w. apply lookup_supercede_prior_to.
  - intros mgr self Hst. unfold process_notifications. simpl.
    eexists. split; [reflexivity|]. simpl. by rewrite decide_True.
  - intros st o ops st' set Hr Hs Hst.
    apply reachable_complete_is_oldest in Hr.
    destruct (session_complete_inv st o ops st' set Hr Hs) as [_ Hc]. by apply Hc.
  - intros st Hr. apply complete_is_oldest_at_most_one.
    by apply reachable_complete_is_oldest with (allowed := λ _ _ _, True).
Qed.

(** *** New sets *)

Lemma handle_wf_of_complete_inv self pk : handle_complete_inv self pk → handle_wf self pk.
Proof. by intros [? _]. Qed.

Lemma apply_op_wf st self o st' self' pk :
  handle_wf self pk → apply_op st self o = Ok (st', self') →
  handle_wf self' pk ∧ m_old_state self' = m_old_state self.
Proof.
  intros (Hw & Ho & Hver & Hrow) Hop.
  destruct o as [sub|n q g t|q g t|it| |src|ns es|];
    try (match type of Hop with apply_op _ _ ?o = _ =>
           destruct (apply_op_frame st self o st' self')
             as [_ (Htr & Hobj & Hold & _ & Hv & _)];
           [intros ? ?; discriminate|discriminate|done|] end;
         unfold handle_wf; by rewrite Htr, Hobj, Hold, Hv).
  - simpl in Hop. apply fmap_Ok in Hop as (h & Hop & [= -> ->]).
    apply update_state_Ok in Hop
      as (Hobj & Hold & Hv & _ & [(_ & _ & Htr)|[(_ & _ & _ & Htr)|(_ & _ & _ & Htr)]]);
      unfold handle_wf; rewrite Htr, Hobj, Hv; try done.
    split; [|done]. repeat split; try done.
    rewrite lookup_supercede_prior_to. by rewrite decide_False by lia.
  - simpl in Hop. apply supercede_all_except_Ok in Hop as [_ ->].
    unfold handle_wf, with_tr. cbn [m_tr base m_obj m_old_state].
    split; [|done]. repeat split; try done.
    rewrite lookup_supercede_prior_to. by rewrite decide_False by lia.
Qed.

Lemma apply_ops_wf st self ops st' self' pk :
  handle_wf self pk → apply_ops st self ops = Ok (st', self') →
  handle_wf self' pk ∧ m_old_state self' = m_old_state self.
Proof.
  revert st self. induction ops as [|o ops IH]; intros st self Hwf Hops; simpl in Hops.
  - by inv_result.
  - apply bind_Ok in Hops as ([st1 self1] & Hop & Hops).
    destruct (apply_op_wf st self o st1 self1 pk Hwf Hop) as [Hwf' Hold'].
    destruct (IH st1 self1 Hwf' Hops) as [Hwf'' Hold'']. split; [done|congruence].
Qed.

(** C2.  A new set is one whose [m_old_state] is [Uncommitted], as every
    set made by [make_mutable_copy] is, whatever member functions have been
    applied to it since.  [commit] of such a set returns normally; the
    state it persists and returns is [Pending] when the staged state was
    still [Uncommitted] and the staged state otherwise; the row's
    [snapshot_version] is the version of the transaction at the time of the
    call; and the effects the call adds to the trace are, in this order, the
    commit of the write transaction, the resolutions of promises, and the
    call of [m_on_new_subscription_set] with the set's version, the last
    one being present if and only if the state after the commit is
    [Pending]. *)
Theorem commit_new_set st0 S ops self0 st self :
  make_mutable_copy st0 S = Ok self0 →
  apply_ops st0 self0 ops = Ok (st, self) →
  m_old_state self = Uncommitted
  ∧ ∃ st' set row' resolved,
      commit (Some st) self = Ok (st', set)
      ∧ state set =
          (if decide (m_state (base self) = Uncommitted) then Pending
           else m_state (base self))
      ∧ db_table (m_db st') !! version (base self) = Some row'
      ∧ col_sub_set_state row' = state set
      ∧ col_sub_set_snapshot_version row' = tr_version (m_tr self)
      ∧ m_snapshot_version set = tr_version (m_tr self)
      ∧ m_trace st' =
          m_trace st ++ [EvCommit (db_version (m_db st'))] ++ resolved
          ++ (if decide (state set = Pending)
              then [EvOnNewSubscriptionSet (version (base self))] else [])
      ∧ (∀ ev, ev ∈ resolved →
           ∃ p, (∃ s, ev = EvPromiseValue p s) ∨ (∃ msg, ev = EvPromiseError p msg))
      ∧ (EvOnNewSubscriptionSet (version (base self)) ∈
           [EvCommit (db_version (m_db st'))] ++ resolved
           ++ (if decide (state set = Pending)
               then [EvOnNewSubscriptionSet (version (base self))] else [])
         ↔ state set = Pending).
Proof.
  intros Hcopy Hops.
  pose proof (make_mutable_copy_inv st0 S self0 Hcopy) as [_ Hself0].
  set (pk := maximum_int (db_table (m_db st0)) + 1) in *.
  assert (handle_wf self0 pk) as Hwf0.
  { rewrite Hself0. repeat split; simpl; try done. rewrite lookup_insert_eq. by eexists. }
  destruct (apply_ops_wf _ _ _ _ _ pk Hwf0 Hops) as [(Hw & Hobj & Hver & [row Hrow]) Hold].
  assert (m_old_state self = Uncommitted) as Hnew by (by rewrite Hold, Hself0).
  split; [exact Hnew|]. unfold version. rewrite Hver.
  exact (commit_new_wf st self pk row Hw Hobj Hver Hrow Hnew).
Qed.

(** *** The persisted error message *)

Lemma string_empty_true s : string_empty s = true ↔ s = ""%string.
Proof. by destruct s. Qed.

Lemma open_error_inv st o self :
  (∀ v row, db_table (m_db st) !! v = Some row → error_iff_Error row) →
  open st o = Ok self → ∃ pk, handle_wf self pk ∧ handle_error_inv self pk.
Proof.
  intros Hinv Hopen. destruct o as [S|v]; simpl in Hopen.
  - apply make_mutable_copy_inv in Hopen as [Hmax ->].
    set (pk := maximum_int (db_table (m_db st)) + 1).
    exists pk. split; [|split; [|split]]; simpl.
    + repeat split; simpl; try done. rewrite lookup_insert_eq. by eexists.
    + intros v row Hv Hne. rewrite lookup_insert_ne in Hv by done. by eapply Hinv.
    + done.
    + intros _ row. rewrite lookup_insert_eq. by intros [= <-].
  - apply get_mutable_by_version_Ok in Hopen as (row & Hrow & ->).
    exists v. split; [|split; [|split]]; simpl.
    + repeat split; simpl; try done.
    + intros v' row' Hv _. by eapply Hinv.
    + by apply Hinv in Hrow.
    + intros He row'. rewrite Hrow. by intros [= <-].
Qed.

Lemma handle_inv_same self self' pk :
  same_but_subs self self' →
  handle_wf self pk ∧ handle_error_inv self pk →
  handle_wf self' pk ∧ handle_error_inv self' pk.
Proof.
  intros (Htr & Hobj & _ & Hst & Hv & Herr) Hinv.
  unfold handle_error_inv, handle_wf in *. rewrite Htr, Hobj, Hst, Hv, Herr. done.
Qed.

Lemma handle_error_inv_supercede self pk :
  handle_wf self pk ∧ handle_error_inv self pk →
  handle_wf (with_tr self (supercede_prior_to (m_tr self) (m_version (base self)))) pk
  ∧ handle_error_inv
      (with_tr self (supercede_prior_to (m_tr self) (m_version (base self)))) pk.
Proof.
  intros ((Hw & Ho & Hver & Hrow) & Hothers & Hiff & Hown).
  unfold handle_error_inv, handle_wf, with_tr. cbn [m_tr base m_obj].
  rewrite Hver. split; [|split; [|split]].
  - repeat split; try done. rewrite lookup_supercede_prior_to.
    by rewrite decide_False by lia.
  - intros v row. rewrite lookup_supercede_prior_to. case_decide; [done|].
    apply Hothers.
  - done.
  - intros He row. rewrite lookup_supercede_prior_to.
    rewrite decide_False by lia. by apply Hown.
Qed.

Lemma apply_op_error_inv st self o st' self' pk :
  keeps_error_rule self o →
  handle_wf self pk ∧ handle_error_inv self pk →
  apply_op st self o = Ok (st', self') →
  handle_wf self' pk ∧ handle_error_inv self' pk.
Proof.
  intros Hrule Hinv Hop.
  destruct o as [sub|n q g t|q g t|it| |src|ns es|];
    try (match type of Hop with apply_op _ _ ?o = _ =>
           destruct (apply_op_frame st self o st' self') as [_ Hsame];
           [intros ? ?; discriminate|discriminate|done|] end;
         by eapply handle_inv_same).
  - simpl in Hop, Hrule. destruct Hrule as [Hmsg Hnot].
    apply fmap_Ok in Hop as (h & Hop & [= -> ->]).
    pose proof Hinv as ((Hw & Ho & Hver & Hrow) & Hothers & Hiff & Hown).
    assert (m_error_str (base self) = ""%string) as Hempty.
    { destruct (decide (m_error_str (base self) = ""%string)) as [|Hne]; [done|].
      by apply Hiff in Hne. }
    apply update_state_Ok in Hop
      as (Hobj & _ & Hv & Hst
          & [(-> & Hes & Htr)|[(-> & _ & Herr & Htr)|(-> & _ & Herr & Htr)]]).
    + unfold handle_error_inv, handle_wf. rewrite Htr, Hobj, Hv, Hst.
      split; [done|]. split; [done|]. split.
      * split; [done|]. intros _ He. apply Hmsg. by rewrite Hes, He.
      * intros He. destruct Hmsg. by rewrite Hes, He.
    + unfold handle_error_inv, handle_wf. rewrite Htr, Hobj, Hv, Hst, Herr.
      split; [done|]. split; [done|]. split; [|done].
      rewrite Hempty. split; done.
    + apply handle_error_inv_supercede in Hinv.
      destruct Hinv as ((Hw' & Ho' & Hver' & Hrow') & Hothers' & _ & Hown').
      unfold with_tr in *. cbn [m_tr base m_obj] in *.
      unfold handle_error_inv, handle_wf. rewrite Htr, Hobj, Hv, Hst, Herr.
      split; [done|]. split; [done|]. split; [|done].
      rewrite Hempty. split; done.
  - simpl in Hop. apply supercede_all_except_Ok in Hop as [_ ->].
    by apply handle_error_inv_supercede.
Qed.

Lemma apply_ops_error_inv st self ops st' self' pk :
  ops_keep_error_rule st self ops →
  handle_wf self pk ∧ handle_error_inv self pk →
  apply_ops st self ops = Ok (st', self') →
  handle_wf self' pk ∧ handle_error_inv self' pk.
Proof.
  revert st self. induction ops as [|o ops IH]; intros st self Hrule Hinv Hops;
    simpl in Hops.
  - by inv_result.
  - apply bind_Ok in Hops as ([st1 self1] & Hop & Hops). destruct Hrule as [Hr Hrest].
    eapply IH; [by apply Hrest| |done]. by eapply apply_op_error_inv.
Qed.

Lemma post_commit_state_Error self :
  post_commit_state self = Error ↔ m_state (base self) = Error.
Proof. unfold post_commit_state. repeat case_decide; split; congruence. Qed.

Lemma commit_error_inv st self pk st' set :
  handle_wf self pk ∧ handle_error_inv self pk →
  commit (Some st) self = Ok (st', set) →
  (∀ v row, db_table (m_db st') !! v = Some row → error_iff_Error row)
  ∧ (m_error_str set ≠ ""%string ↔ m_state set = Error).
Proof.
  intros ((Hw & Hobj & Hver & [row Hrow]) & Hothers & Hiff & Hown) Hcommit.
  destruct (commit_wf st self pk row Hw Hobj Hver Hrow)
    as (st1 & set1 & row' & Hc1 & Htab & _ & Hst & _ & _ & Herr & Hset & _).
  rewrite Hcommit in Hc1. injection Hc1 as <- <-.
  assert (error_iff_Error row') as Hrow'.
  { unfold error_iff_Error. rewrite Hst, Herr, post_commit_state_Error.
    destruct (string_empty (m_error_str (base self))) eqn:He.
    - apply string_empty_true in He. rewrite (Hown He row Hrow).
      rewrite <- Hiff, He. done.
    - simpl. done. }
  split.
  - intros v r. rewrite Htab. destruct (decide (v = pk)) as [->|Hne].
    + rewrite lookup_insert_eq. by intros [= <-].
    + rewrite lookup_insert_ne by done. intros Hv. by eapply Hothers.
  - rewrite Hset. simpl. apply Hrow'.
Qed.

Lemma session_error_inv st o ops st' set :
  (∀ v row, db_table (m_db st) !! v = Some row → error_iff_Error row) →
  session_keeps_error_rule st o ops →
  session st o ops = Ok (st', set) →
  (∀ v row, db_table (m_db st') !! v = Some row → error_iff_Error row)
  ∧ (m_error_str set ≠ ""%string ↔ m_state set = Error).
Proof.
  intros IH Hrule Hs. unfold session in Hs.
  apply bind_Ok in Hs as (self & Hopen & Hs).
  apply bind_Ok in Hs as ([st1 self1] & Hops & Hs).
  destruct (open_error_inv st o self IH Hopen) as [pk Hh].
  pose proof (apply_ops_error_inv st self ops st1 self1 pk (Hrule self Hopen) Hh Hops) as Hh'.
  exact (commit_error_inv st1 self1 pk st' set Hh' Hs).
Qed.

Lemma reachable_error_iff_Error st :
  reachable_by session_keeps_error_rule st →
  ∀ v row, db_table (m_db st) !! v = Some row → error_iff_Error row.
Proof.
  induction 1 as [snapshot|st o ops st' set _ IH Hrule Hs|st o ops self st' self' _ IH Ho Ha
                  |st set nw st' fut _ IH Hn|st _ IH].
  - unfold SubscriptionStore_new. simpl. rewrite decide_True by done. simpl.
    intros v row Hv. destruct (decide (v = 0)) as [->|Hne].
    + rewrite lookup_insert_eq in Hv. injection Hv as <-. by split.
    + rewrite lookup_insert_ne, lookup_empty in Hv by done. done.
  - by destruct (session_error_inv st o ops st' set IH Hrule Hs).
  - by rewrite (apply_ops_db st self ops st' self' Ha).
  - by rewrite (get_state_change_notification_db _ _ _ st st' fut eq_refl Hn).
  - unfold SubscriptionStore_new. simpl. case_decide as He; [|done]. simpl.
    intros v row Hv. destruct (decide (v = 0)) as [->|Hne].
    + rewrite lookup_insert_eq in Hv. injection Hv as <-. by split.
    + rewrite lookup_insert_ne in Hv by done. by eapply IH.
Qed.

(** C8, as amended.  Along every run in which [update_state] is never
    given an empty message and is never called on a set that is in state
    [Error], the set that [commit] returns has a non-empty [error_str] if
    and only if its state is [Error], and so has every set read back with
    [get_by_version]. *)
Theorem error_message_iff_Error :
  (∀ st o ops st' set,
     reachable_by session_keeps_error_rule st →
     session_keeps_error_rule st o ops →
     session st o ops = Ok (st', set) →
     (error_str set ≠ ""%string ↔ state set = Error))
  ∧ (∀ st v set,
       reachable_by session_keeps_error_rule st →
       get_by_version st v = Ok set →
       (error_str set ≠ ""%string ↔ state set = Error)).
Proof.
  split.
  - intros st o ops st' set Hr Hrule Hs.
    pose proof (reachable_error_iff_Error st Hr) as IH.
    by destruct (session_error_inv st o ops st' set IH Hrule Hs).
  - intros st v set Hr Hg.
    pose proof (reachable_error_iff_Error st Hr) as IH.
    destruct (db_table (m_db st) !! v) as [row|] eqn:Hrow.
    + rewrite (get_by_version_row st v row Hrow) in Hg. injection Hg as <-.
      apply (IH v row Hrow).
    + rewrite (get_by_version_no_row st v Hrow) in Hg.
      case_decide; [|done]. injection Hg as <-. by split.
Qed.

End Invariants.

(** ** The theorems at the example store *)

(** C10, witness: on the copy of version 1, [insert_or_assign("", q)]
    appends a subscription at position 1, and the anonymous
    [insert_or_assign(q)] that follows returns that position and inserts
    nothing. *)
Lemma anonymous_insert_finds_empty_name_witness :
  tr_stage (m_tr ex_mutable_new) = transact_Writing
  ∧ Forall (λ sub, m_name sub = None →
              ¬ (m_object_class_name sub = query_class_name ex_query2
                 ∧ m_query_string sub = query_description ex_query2))
           (m_subs (base ex_mutable_new))
  ∧ ∃ self1 it inserted1 self2 sub2,
      insert_or_assign_named ex_mutable_new "" ex_query2 8%N 200 = Ok (self1, (it, inserted1))
      ∧ insert_or_assign self1 ex_query2 9%N 300 = Ok (self2, (it, false))
      ∧ m_subs (base self2) !! it = Some sub2
      ∧ has_name sub2 = true ∧ name sub2 = ""%string.
Proof.
  assert (tr_stage (m_tr ex_mutable_new) = transact_Writing) as Hw
    by (vm_compute; reflexivity).
  assert (Forall (λ sub, m_name sub = None →
                    ¬ (m_object_class_name sub = query_class_name ex_query2
                       ∧ m_query_string sub = query_description ex_query2))
                 (m_subs (base ex_mutable_new))) as Hanon.
  { apply (bool_decide_unpack _). vm_compute. reflexivity. }
  split; [exact Hw|]. split; [exact Hanon|].
  destruct (anonymous_insert_finds_empty_name ex_mutable_new ex_query2 8%N 9%N 200 300 Hw
              (proj1 (Forall_forall _ _) Hanon))
    as (self1 & it & ins & self2 & sub1 & sub2 & H1 & _ & _ & _ & H2 & H3 & _ & H4 & H5 & _).
  exists self1, it, ins, self2, sub2. repeat split; assumption.
Defined.

(** C2, witness: committing the copy of version 1 persists version 2 as
    [Pending] and calls [m_on_new_subscription_set(2)] after the commit. *)
Lemma commit_new_set_witness :
  @make_mutable_copy ex_host ex_store1 ex_set1 = Ok ex_mutable_new
  ∧ apply_ops ex_store1 ex_mutable_new [] = Ok (ex_store1, ex_mutable_new)
  ∧ ∃ st' set resolved,
      @commit ex_host (Some ex_store1) ex_mutable_new = Ok (st', set)
      ∧ state set = Pending
      ∧ m_trace st' =
          m_trace ex_store1 ++ [EvCommit (db_version (m_db st'))] ++ resolved
          ++ [EvOnNewSubscriptionSet 2].
Proof.
  assert (@make_mutable_copy ex_host ex_store1 ex_set1 = Ok ex_mutable_new) as Hcopy
    by (vm_compute; reflexivity).
  assert (apply_ops ex_store1 ex_mutable_new [] = Ok (ex_store1, ex_mutable_new)) as Hops
    by reflexivity.
  split; [exact Hcopy|]. split; [exact Hops|].
  destruct (@commit_new_set ex_host ex_store1 ex_set1 [] ex_mutable_new ex_store1
              ex_mutable_new Hcopy Hops)
    as (_ & st' & set & row' & resolved & Hc & Hst & _ & _ & _ & _ & Htrace & _).
  assert (state set = Pending) as Hp by (rewrite Hst; vm_compute; reflexivity).
  exists st', set, resolved. split; [exact Hc|]. split; [exact Hp|].
  rewrite Htrace. rewrite (decide_True (P := state set = Pending)) by exact Hp.
  reflexivity.
Defined.

(** C6, witness: copying version 1 of the example store, committing, and
    reading version 2 back gives the one subscription of version 1. *)
Lemma make_mutable_copy_commit_get_by_version_witness :
  @maximum_int ex_host (db_table (m_db ex_store1)) < INT64_MAX
  ∧ ∃ self st' set set',
      @make_mutable_copy ex_host ex_store1 ex_set1 = Ok self
      ∧ @commit ex_host (Some ex_store1) self = Ok (st', set)
      ∧ @get_by_version ex_host st' 2 = Ok set'
      ∧ m_subs set' = [Subscription_new 7%N 100 None "Dog" "age > 3"].
Proof.
  assert (@maximum_int ex_host (db_table (m_db ex_store1)) < INT64_MAX) as Hmax
    by (vm_compute; reflexivity).
  split; [exact Hmax|].
  destruct (@make_mutable_copy_commit_get_by_version ex_host ex_store1 ex_set1 Hmax)
    as (self & st' & set & set' & Hcopy & Hv & Hc & Hg & _ & Hsubs & _).
  exists self, st', set, set'. split; [exact Hcopy|].
  split; [exact Hc|]. split.
  - rewrite Hv in Hg. exact Hg.
  - rewrite Hsubs. vm_compute. reflexivity.
Defined.

(** C9, witness: the two example sets register the same pairs in another
    order and serialise to the same text. *)
Lemma to_ext_json_function_of_pairs_witness :
  class_query_pairs ex_json_set1 ≡ₚ class_query_pairs ex_json_set2
  ∧ to_ext_json ex_escape ex_json_set1 = to_ext_json ex_escape ex_json_set2.
Proof.
  assert (class_query_pairs ex_json_set1 ≡ₚ class_query_pairs ex_json_set2) as Hp.
  { vm_compute. apply perm_swap. }
  split; [exact Hp|].
  exact (proj1 (to_ext_json_function_of_pairs ex_escape) ex_json_set1 ex_json_set2 Hp).
Defined.

Lemma ex_store1_reachable allowed :
  allowed ex_store0 (from_copy ex_set0) [op_insert_or_assign ex_query 7%N 100] →
  @reachable_by ex_host allowed ex_store1.
Proof.
  intros Hallowed.
  apply (@reachable_session ex_host allowed ex_store0 (from_copy ex_set0)
           [op_insert_or_assign ex_query 7%N 100] ex_store1 ex_set1).
  - apply (@reachable_new ex_host allowed 1).
  - exact Hallowed.
  - vm_compute. reflexivity.
Defined.

(** C4, witness: marking version 1 of the example store complete removes
    version 0 and moves the watermark to 1. *)
Lemma complete_supersedes_older_versions_witness :
  @reachable ex_host ex_store1
  ∧ ∃ st' set,
      @session ex_host ex_store1 (from_version 1) [op_update_state Complete None] = Ok (st', set)
      ∧ state set = Complete
      ∧ db_table (m_db st') !! 0 = None
      ∧ m_min_outstanding_version st' = 1.
Proof.
  assert (@reachable ex_host ex_store1) as Hr by (apply ex_store1_reachable; exact I).
  split; [exact Hr|].
  destruct (@session ex_host ex_store1 (from_version 1) [op_update_state Complete None])
    as [[st' set]|e] eqn:Hs; [|vm_compute in Hs; discriminate Hs].
  assert (state set = Complete) as Hst.
  { vm_compute in Hs. injection Hs as _ <-. reflexivity. }
  assert (version set = 1) as Hv.
  { vm_compute in Hs. injection Hs as _ <-. reflexivity. }
  destruct (proj1 (proj2 (proj2 (@complete_supersedes_older_versions ex_host)))
              ex_store1 (from_version 1) [op_update_state Complete None] st' set Hr Hs Hst)
    as [Hold Hmin].
  exists st', set. split; [reflexivity|]. split; [exact Hst|]. split.
  - apply Hold. rewrite Hv. reflexivity.
  - rewrite Hmin. exact Hv.
Defined.

(** C8, witness: a session that moves a new set to [Error] with the
    message ["boom"] keeps to the rule, and the committed set has that
    message. *)
Lemma error_message_iff_Error_witness :
  @reachable_by ex_host (@session_keeps_error_rule ex_host) ex_store0
  ∧ @session_keeps_error_rule ex_host ex_store0 (from_copy ex_set0)
      [op_update_state Error (Some "boom"%string)]
  ∧ ∃ st' set,
      ex_session_error = Ok (st', set)
      ∧ (error_str set ≠ ""%string ↔ state set = Error).
Proof.
  assert (@reachable_by ex_host (@session_keeps_error_rule ex_host) ex_store0) as Hr
    by apply (@reachable_new ex_host _ 1).
  assert (@session_keeps_error_rule ex_host ex_store0 (from_copy ex_set0)
            [op_update_state Error (Some "boom"%string)]) as Hrule.
  { intros self Hopen. vm_compute in Hopen. injection Hopen as <-.
    split; [split; discriminate|]. intros st' self' _. exact I. }
  split; [exact Hr|]. split; [exact Hrule|].
  destruct ex_session_error as [[st' set]|e] eqn:Hs; [|vm_compute in Hs; discriminate Hs].
  exists st', set. split; [reflexivity|].
  exact (proj1 (@error_message_iff_Error ex_host) ex_store0 (from_copy ex_set0)
           [op_update_state Error (Some "boom"%string)] st' set Hr Hrule Hs).
Defined.

(** C8, as stated, fails in both directions: a set committed in state
    [Error] with the empty message that [update_state] accepted, and a set
    committed in state [Bootstrapping] that still carries the message of
    the [Error] state it left. *)
Lemma error_message_not_iff_Error :
  (λ r, (state r.2, error_str r.2)) <$> ex_session_empty_message = Ok (Error, ""%string)
  ∧ (λ r, (state r.2, error_str r.2)) <$> ex_session_leaves_error
    = Ok (Bootstrapping, "boom"%string).
Proof. split; vm_compute; reflexivity. Qed.

(** * Further properties of the store *)

(** ** What a session does to the rows of other versions *)

Section Rows.
Context `{HostDecls}.

Lemma open_rows_eq st o self :
  open st o = Ok self →
  ∃ pk, handle_wf self pk
        ∧ (∀ v, v ≠ pk → tr_table (m_tr self) !! v = db_table (m_db st) !! v)
        ∧ ((∃ row, db_table (m_db st) !! pk = Some row
                   ∧ m_state (base self) = col_sub_set_state row
                   ∧ m_old_state self = col_sub_set_state row)
           ∨ (pk = maximum_int (db_table (m_db st)) + 1
              ∧ m_state (base self) = Uncommitted ∧ m_old_state self = Uncommitted)).
Proof.
  intros Hopen. destruct o as [S|v]; simpl in Hopen.
  - apply make_mutable_copy_inv in Hopen as [Hmax ->].
    exists (maximum_int (db_table (m_db st)) + 1). split; [|split]; simpl.
    + repeat split; simpl; try done. rewrite lookup_insert_eq. by eexists.
    + intros v Hne. by rewrite lookup_insert_ne.
    + by right.
  - apply get_mutable_by_version_Ok in Hopen as (row & Hrow & ->).
    exists v. split; [|split]; simpl.
    + repeat split; simpl; try done.
    + done.
    + left. by exists row.
Qed.

Lemma open_rows_inv st o self :
  open st o = Ok self → ∃ pk, handle_rows_inv st self pk.
Proof.
  intros Hopen. destruct (open_rows_eq st o self Hopen) as (pk & Hwf & Heq & _).
  exists pk. split; [done|]. intros v Hne. left. by apply Heq.
Qed.

Lemma apply_op_rows_inv st0 st self o st' self' pk :
  handle_rows_inv st0 self pk → apply_op st self o = Ok (st', self') →
  handle_rows_inv st0 self' pk.
Proof.
  intros [Hwf Hrows] Hop. split; [by destruct (apply_op_wf st self o st' self' pk Hwf Hop)|].
  pose proof Hwf as (Hw & Ho & Hver & Hrow).
  assert (∀ v, v ≠ pk →
            tr_table (supercede_prior_to (m_tr self) (m_version (base self))) !! v
            = db_table (m_db st0) !! v
            ∨ (tr_table (supercede_prior_to (m_tr self) (m_version (base self))) !! v = None
               ∧ v < pk)) as Hsup.
  { intros v Hne. rewrite lookup_supercede_prior_to, Hver. case_decide; [by right|].
    destruct (Hrows v Hne) as [?|[? ?]]; [by left|lia]. }
  destruct o as [sub|n q g t|q g t|it| |src|ns es|];
    try (match type of Hop with apply_op _ _ ?o = _ =>
           destruct (apply_op_frame st self o st' self') as [_ (Htr & _)];
           [intros ? ?; discriminate|discriminate|done|] end;
         by rewrite Htr).
  - simpl in Hop. apply fmap_Ok in Hop as (h & Hop & [= -> ->]).
    apply update_state_Ok in Hop
      as (_ & _ & _ & _ & [(_ & _ & Htr)|[(_ & _ & _ & Htr)|(_ & _ & _ & Htr)]]);
      by rewrite Htr.
  - simpl in Hop. by apply supercede_all_except_Ok in Hop as [_ ->].
Qed.

Lemma apply_ops_rows_inv st0 st self ops st' self' pk :
  handle_rows_inv st0 self pk → apply_ops st self ops = Ok (st', self') →
  handle_rows_inv st0 self' pk.
Proof.
  revert st self. induction ops as [|o ops IH]; intros st self Hinv Hops; simpl in Hops.
  - by inv_result.
  - apply bind_Ok in Hops as ([st1 self1] & Hop & Hops).
    eapply IH; [|done]. by eapply apply_op_rows_inv.
Qed.

(** The calls that do not remove rows leave the transaction as it is. *)
Lemma apply_op_tr st self o st' self' :
  ¬ supersedes o → apply_op st self o = Ok (st', self') → m_tr self' = m_tr self.
Proof.
  intros Hno Hop.
  destruct o as [sub|n q g t|q g t|it| |src|ns es|];
    try (match type of Hop with apply_op _ _ ?o = _ =>
           destruct (apply_op_frame st self o st' self') as [_ (Htr & _)];
           [intros ? ?; discriminate|discriminate|done|done] end).
  - simpl in Hop. apply fmap_Ok in Hop as (h & Hop & [= -> ->]).
    apply update_state_Ok in Hop
      as (_ & _ & _ & _ & [(_ & _ & Htr)|[(_ & _ & _ & Htr)|(-> & _ & _ & Htr)]]);
      try done.
    destruct Hno. right. by exists es.
  - destruct Hno. by left.
Qed.

Lemma apply_ops_tr st self ops st' self' :
  Forall (λ o, ¬ supersedes o) ops → apply_ops st self ops = Ok (st', self') →
  m_tr self' = m_tr self.
Proof.
  revert st self. induction ops as [|o ops IH]; intros st self Hall Hops; simpl in Hops.
  - by inv_result.
  - apply bind_Ok in Hops as ([st1 self1] & Hop & Hops).
    apply Forall_cons in Hall as [Ho Hall].
    rewrite (IH st1 self1 Hall Hops). by eapply apply_op_tr.
Qed.

Lemma session_other_rows st o ops st' set :
  session st o ops = Ok (st', set) →
  ∀ v, v ≠ version set →
    db_table (m_db st') !! v = db_table (m_db st) !! v
    ∨ (db_table (m_db st') !! v = None ∧ v < version set).
Proof.
  intros Hs. unfold session in Hs.
  apply bind_Ok in Hs as (self & Hopen & Hs).
  apply bind_Ok in Hs as ([st1 self1] & Hops & Hs).
  destruct (open_rows_inv st o self Hopen) as (pk & Hinv).
  pose proof (apply_ops_rows_inv st st self ops st1 self1 pk Hinv Hops)
    as [(Hw & Hobj & Hver & [row Hrow]) Hrows].
  destruct (commit_wf st1 self1 pk row Hw Hobj Hver Hrow)
    as (st2 & set2 & row' & Hc & Htab & _ & _ & _ & _ & _ & Hset & _).
  rewrite Hs in Hc. injection Hc as <- <-.
  assert (version set = pk) as Hv by (by rewrite Hset).
  rewrite Hv, Htab. intros v Hne. rewrite lookup_insert_ne by done. by apply Hrows.
Qed.

(** X1.  A committed session writes the row of its own version only: every
    other row of the store is afterwards as it was before, or it is an
    older row and is gone.  When the session calls neither
    [update_state(Complete)] nor [supercede_all_except], no row is
    removed. *)
Theorem session_writes_own_row_only st o ops st' set :
  session st o ops = Ok (st', set) →
  is_Some (db_table (m_db st') !! version set)
  ∧ (∀ v, v ≠ version set →
       db_table (m_db st') !! v = db_table (m_db st) !! v
       ∨ (db_table (m_db st') !! v = None ∧ v < version set))
  ∧ (Forall (λ o, ¬ supersedes o) ops →
     ∀ v, v ≠ version set → db_table (m_db st') !! v = db_table (m_db st) !! v).
Proof.
  intros Hs. unfold session in Hs.
  apply bind_Ok in Hs as (self & Hopen & Hs).
  apply bind_Ok in Hs as ([st1 self1] & Hops & Hs).
  destruct (open_rows_eq st o self Hopen) as (pk & Hwf0 & Heq & _).
  assert (handle_rows_inv st self pk) as Hinv.
  { split; [done|]. intros v Hne. left. by apply Heq. }
  pose proof (apply_ops_rows_inv st st self ops st1 self1 pk Hinv Hops)
    as [(Hw & Hobj & Hver & [row Hrow]) Hrows].
  destruct (commit_wf st1 self1 pk row Hw Hobj Hver Hrow)
    as (st2 & set2 & row' & Hc & Htab & _ & _ & _ & _ & _ & Hset & _).
  rewrite Hs in Hc. injection Hc as <- <-.
  assert (version set = pk) as Hv by (by rewrite Hset).
  rewrite Hv, Htab. split; [by rewrite lookup_insert_eq|]. split.
  - intros v Hne. rewrite lookup_insert_ne by done. by apply Hrows.
  - intros Hall v Hne. rewrite lookup_insert_ne by done.
    rewrite (apply_ops_tr st self ops st1 self1 Hall Hops). by apply Heq.
Qed.

(** *** The rows a program can leave in the table *)

Lemma apply_op_state_inv st self o st' self' :
  handle_state_inv self → apply_op st self o = Ok (st', self') → handle_state_inv self'.
Proof.
  intros [Hs Hu] Hop.
  destruct o as [sub|n q g t|q g t|it| |src|ns es|];
    try (match type of Hop with apply_op _ _ ?o = _ =>
           destruct (apply_op_frame st self o st' self') as [_ (_ & _ & Hold & Hst & _)];
           [intros ? ?; discriminate|discriminate|done|] end;
         unfold handle_state_inv; by rewrite Hold, Hst).
  - simpl in Hop. apply fmap_Ok in Hop as (h & Hop & [= -> ->]).
    apply update_state_Ok in Hop
      as (_ & Hold & _ & Hst & [(-> & _)|[(-> & _)|(-> & _)]]);
      unfold handle_state_inv; by rewrite Hst.
  - simpl in Hop. by apply supercede_all_except_Ok in Hop as [_ ->].
Qed.

Lemma apply_ops_state_inv st self ops st' self' :
  handle_state_inv self → apply_ops st self ops = Ok (st', self') → handle_state_inv self'.
Proof.
  revert st self. induction ops as [|o ops IH]; intros st self Hinv Hops; simpl in Hops.
  - by inv_result.
  - apply bind_Ok in Hops as ([st1 self1] & Hop & Hops).
    eapply IH; [|done]. by eapply apply_op_state_inv.
Qed.

Lemma post_commit_state_persistable self :
  handle_state_inv self → persistable (post_commit_state self).
Proof.
  intros [Hs Hu]. unfold post_commit_state, persistable.
  repeat case_decide; destruct (m_state (base self)); naive_solver.
Qed.

Lemma session_rows_ok st o ops st' set :
  rows_ok (db_table (m_db st)) →
  session st o ops = Ok (st', set) →
  rows_ok (db_table (m_db st')).
Proof.
  intros [Hne Hrows] Hs. unfold session in Hs.
  apply bind_Ok in Hs as (self & Hopen & Hs).
  apply bind_Ok in Hs as ([st1 self1] & Hops & Hs).
  destruct (open_rows_eq st o self Hopen) as (pk & Hwf0 & Heq & Hpk).
  assert (handle_rows_inv st self pk) as Hinv.
  { split; [done|]. intros v Hv. left. by apply Heq. }
  assert (handle_state_inv self) as Hst0.
  { unfold handle_state_inv.
    destruct Hpk as [(row & Hrow & -> & ->)|(_ & -> & ->)]; [|by split].
    destruct (Hrows pk row Hrow) as [_ Hp].
    split; [|done]. destruct Hp as [-> | [-> | [-> | ->]]]; done. }
  pose proof (apply_ops_state_inv st self ops st1 self1 Hst0 Hops) as Hst1.
  pose proof (apply_ops_rows_inv st st self ops st1 self1 pk Hinv Hops)
    as [(Hw & Hobj & Hver & [row Hrow]) Hothers].
  destruct (commit_wf st1 self1 pk row Hw Hobj Hver Hrow)
    as (st2 & set2 & row' & Hc & Htab & _ & Hstate & _).
  rewrite Hs in Hc. injection Hc as <- <-.
  assert (0 ≤ pk) as Hpos.
  { destruct Hpk as [(row0 & Hrow0 & _)|(-> & _)]; [by destruct (Hrows pk row0 Hrow0)|].
    apply map_choose in Hne as (k & r & Hk).
    destruct (Hrows k r Hk) as [Hk0 _].
    assert (k ≤ maximum_int (db_table (m_db st))) by (apply maximum_int_ge; eauto). lia. }
  rewrite Htab. split.
  - intros He. apply (f_equal (λ t : Table, t !! pk)) in He.
    by rewrite lookup_insert_eq, lookup_empty in He.
  - intros v r. destruct (decide (v = pk)) as [->|Hv].
    + rewrite lookup_insert_eq. intros [= <-]. split; [done|].
      rewrite Hstate. by apply post_commit_state_persistable.
    + rewrite lookup_insert_ne by done. intros Hr.
      destruct (Hothers v Hv) as [Hsame|[Hnone _]]; [|congruence].
      apply (Hrows v r). congruence.
Qed.

Lemma SubscriptionStore_new_rows_ok db :
  db_table db = ∅ ∨ rows_ok (db_table db) →
  rows_ok (db_table (m_db (SubscriptionStore_new db))).
Proof.
  intros Hdb. unfold SubscriptionStore_new. simpl. case_decide as He.
  - simpl. rewrite He. split.
    + intros Hemp. apply (f_equal (λ t : Table, t !! 0)) in Hemp.
      by rewrite lookup_insert_eq, lookup_empty in Hemp.
    + intros v row. destruct (decide (v = 0)) as [->|Hv].
      * rewrite lookup_insert_eq. intros [= <-]. split; [done|]. by left.
      * by rewrite lookup_insert_ne, lookup_empty.
  - by destruct Hdb.
Qed.

Lemma reachable_rows_ok allowed st :
  reachable_by allowed st → rows_ok (db_table (m_db st)).
Proof.
  induction 1 as [snapshot|st o ops st' set _ IH _ Hs|st o ops self st' self' _ IH Ho Ha
                 |st set nw st' fut _ IH Hn|st _ IH].
  - apply SubscriptionStore_new_rows_ok. by left.
  - by eapply session_rows_ok.
  - by rewrite (apply_ops_db st self ops st' self' Ha).
  - by rewrite (get_state_change_notification_db _ _ _ st st' fut eq_refl Hn).
  - apply SubscriptionStore_new_rows_ok. by right.
Qed.

(** X2.  In every store a program can arrive at, the subscription-set
    table has at least one row, no version is negative, and no row carries
    the state [Uncommitted] or [Superseded]. *)
Theorem persisted_rows_invariant allowed st :
  reachable_by allowed st →
  db_table (m_db st) ≠ ∅
  ∧ ∀ v row, db_table (m_db st) !! v = Some row →
      0 ≤ v
      ∧ col_sub_set_state row ≠ Uncommitted ∧ col_sub_set_state row ≠ Superseded.
Proof.
  intros Hr. destruct (reachable_rows_ok allowed st Hr) as [Hne Hrows].
  split; [done|]. intros v row Hrow. destruct (Hrows v row Hrow) as [Hv Hp].
  split; [done|]. destruct Hp as [-> | [-> | [-> | ->]]]; done.
Qed.

(** *** The latest and the active set *)

Lemma get_latest_row st :
  db_table (m_db st) ≠ ∅ →
  ∃ row, db_table (m_db st) !! maximum_int (db_table (m_db st)) = Some row
    ∧ get_latest st = Ok (set_of_row (db_version (m_db st))
                            (maximum_int (db_table (m_db st))) row).
Proof.
  intros Hne. unfold get_latest. simpl. rewrite decide_False by done.
  unfold maximum_int. destruct (max_key (db_table (m_db st))) as [m|] eqn:Hm.
  - destruct (max_key_Some _ _ Hm) as [[row Hrow] _]. exists row. split; [done|].
    unfold get_object_with_primary_key. simpl. rewrite Hrow. simpl. by rewrite Hrow.
  - by apply max_key_None in Hm.
Qed.

Lemma get_by_version_set_of_row st v row :
  db_table (m_db st) !! v = Some row →
  get_by_version st v = Ok (set_of_row (db_version (m_db st)) v row).
Proof. apply get_by_version_row. Qed.

Lemma max_key_complete_keys t k :
  max_key (complete_keys t) = Some k →
  ∃ row, t !! k = Some row ∧ col_sub_set_state row = Complete.
Proof.
  intros Hk. destruct (max_key_Some _ _ Hk) as [[row Hrow] _].
  apply map_lookup_filter_Some in Hrow as [Hrow Hst]. by exists row.
Qed.

Lemma max_key_complete_keys_None t :
  max_key (complete_keys t) = None →
  ∀ v row, t !! v = Some row → col_sub_set_state row ≠ Complete.
Proof.
  intros Hk v row Hrow Hst. apply max_key_None in Hk.
  assert (complete_keys t !! v = Some row) as Hin by (by apply map_lookup_filter_Some).
  by rewrite Hk, lookup_empty in Hin.
Qed.

(** X3.  In every store a program can arrive at, [get_latest] returns the
    set of the greatest version and [get_active] the set of the one
    complete version, which is then the least version of the table, every
    older set having been removed; the two are what [get_by_version]
    returns for these versions.  When no version is complete,
    [get_active] returns a set that is attached to no row, with version 0
    and state [Uncommitted], where [get_active_and_latest_versions]
    reports -1. *)
Theorem latest_and_active_of_reachable allowed st :
  reachable_by allowed st →
  ∃ latest active,
    get_latest st = Ok latest ∧ get_active st = Ok active
    ∧ get_by_version st (version latest) = Ok latest
    ∧ (∀ v, is_Some (db_table (m_db st) !! v) → v ≤ version latest)
    ∧ ((state active = Complete
        ∧ get_by_version st (version active) = Ok active
        ∧ (∀ v, is_Some (db_table (m_db st) !! v) → version active ≤ v)
        ∧ get_active_and_latest_versions st = (version active, version latest))
       ∨ (active = SubscriptionSet_init
          ∧ (∀ v row, db_table (m_db st) !! v = Some row → col_sub_set_state row ≠ Complete)
          ∧ get_active_and_latest_versions st = (-1, version latest))).
Proof.
  intros Hr. destruct (reachable_rows_ok allowed st Hr) as [Hne _].
  pose proof (reachable_complete_is_oldest allowed st Hr) as Hold.
  destruct (get_latest_row st Hne) as (lrow & Hlrow & Hlatest).
  eexists _. 
  assert (∃ active, get_active st = Ok active
            ∧ ((state active = Complete
                ∧ get_by_version st (version active) = Ok active
                ∧ (∀ v, is_Some (db_table (m_db st) !! v) → version active ≤ v)
                ∧ get_active_and_latest_versions st
                  = (version active, maximum_int (db_table (m_db st))))
               ∨ (active = SubscriptionSet_init
                  ∧ (∀ v row, db_table (m_db st) !! v = Some row →
                       col_sub_set_state row ≠ Complete)
                  ∧ get_active_and_latest_versions st
                    = (-1, maximum_int (db_table (m_db st)))))) as (active & Hactive & Hcases).
  { unfold get_active, get_active_and_latest_versions. simpl.
    rewrite !decide_False by done.
    destruct (max_key (complete_keys (db_table (m_db st)))) as [k|] eqn:Hk.
    - destruct (max_key_complete_keys _ _ Hk) as (row & Hrow & Hst).
      eexists. split; [simpl; rewrite Hrow; reflexivity|]. left. simpl.
      split; [done|]. split; [by apply get_by_version_row|]. split; [|done].
      intros v [r Hv]. destruct (decide (k ≤ v)) as [|Hlt]; [done|].
      rewrite (Hold k row Hrow Hst v) in Hv by lia. done.
    - eexists. split; [reflexivity|]. right. split; [done|]. split; [|done].
      by apply max_key_complete_keys_None. }
  exists active. split; [exact Hlatest|]. split; [exact Hactive|]. simpl.
  split; [by apply get_by_version_row|]. split; [apply maximum_int_ge|exact Hcases].
Qed.

(** *** The sets that wait for their upload *)

Lemma foldr_min_le (k : Z) (ks : list Z) :
  foldr Z.min k ks ≤ k ∧ ∀ x, x ∈ ks → foldr Z.min k ks ≤ x.
Proof.
  induction ks as [|y ks [IH1 IH2]]; simpl.
  - split; [lia|]. intros x Hx. by apply elem_of_nil in Hx.
  - split; [lia|]. intros x [->|Hx]%elem_of_cons; [lia|]. specialize (IH2 x Hx). lia.
Qed.

Lemma foldr_min_elem (k : Z) (ks : list Z) : foldr Z.min k ks ∈ k :: ks.
Proof.
  induction ks as [|y ks IH]; simpl.
  - apply list_elem_of_here.
  - destruct (Z.min_spec y (foldr Z.min k ks)) as [[_ ->]|[_ ->]].
    + apply list_elem_of_further, list_elem_of_here.
    + apply elem_of_cons in IH as [->|IH].
      * apply list_elem_of_here.
      * by do 2 apply list_elem_of_further.
Qed.

Lemma min_key_None (t : Table) : min_key t = None → t = ∅.
Proof.
  unfold min_key. destruct (map_to_list t) as [|[k r] l] eqn:E; [|done].
  intros _. by apply map_to_list_empty_iff.
Qed.

Lemma min_key_Some (t : Table) (m : Z) :
  min_key t = Some m → is_Some (t !! m) ∧ ∀ k, is_Some (t !! k) → m ≤ k.
Proof.
  unfold min_key. destruct ((map_to_list t).*1) as [|k ks] eqn:E; [done|].
  intros [= <-]. split.
  - pose proof (foldr_min_elem k ks) as Hin. rewrite <- E in Hin.
    apply list_elem_of_fmap in Hin as ([k' r] & -> & Hin).
    apply elem_of_map_to_list in Hin. by exists r.
  - intros k' [r Hr]. apply elem_of_map_to_list in Hr.
    assert (k' ∈ (map_to_list t).*1) as Hin.
    { apply list_elem_of_fmap. by exists (k', r). }
    rewrite E in Hin. destruct (foldr_min_le k ks) as [H1 H2].
    apply elem_of_cons in Hin as [->|Hin]; [done|by apply H2].
Qed.

Lemma lookup_next_pending_rows t last after v row :
  next_pending_rows t last after !! v = Some row
  ↔ t !! v = Some row ∧ awaits_upload last after v row.
Proof. unfold next_pending_rows. by rewrite map_lookup_filter_Some. Qed.

Lemma get_next_pending_version_Some st last after p :
  get_next_pending_version st last after = Some p →
  ∃ row, db_table (m_db st) !! query_version p = Some row
    ∧ snapshot_version p = col_sub_set_snapshot_version row
    ∧ awaits_upload last after (query_version p) row
    ∧ ∀ v row', db_table (m_db st) !! v = Some row' →
        awaits_upload last after v row' → query_version p ≤ v.
Proof.
  unfold get_next_pending_version. simpl. case_decide as He; [done|].
  destruct (min_key (next_pending_rows (db_table (m_db st)) last after)) as [k|] eqn:Hk; [|done].
  destruct (min_key_Some _ _ Hk) as [[row Hrow] Hmin]. rewrite Hrow. intros [= <-]. simpl.
  apply lookup_next_pending_rows in Hrow as [Hrow Hq].
  exists row. repeat split; try done; try apply Hq.
  intros v row' Hv Hq'. apply Hmin. exists row'. by apply lookup_next_pending_rows.
Qed.

Lemma get_next_pending_version_None st last after :
  get_next_pending_version st last after = None →
  ∀ v row, db_table (m_db st) !! v = Some row → ¬ awaits_upload last after v row.
Proof.
  unfold get_next_pending_version. simpl. intros Hn v row Hrow Hq.
  case_decide as He; [by rewrite He, lookup_empty in Hrow|].
  assert (next_pending_rows (db_table (m_db st)) last after !! v = Some row) as Hin
    by (by apply lookup_next_pending_rows).
  destruct (min_key (next_pending_rows (db_table (m_db st)) last after)) as [k|] eqn:Hk.
  - destruct (min_key_Some _ _ Hk) as [[r Hr] _]. by rewrite Hr in Hn.
  - apply min_key_None in Hk. by rewrite Hk, lookup_empty in Hin.
Qed.


Lemma later_rows_shrink (t : Table) (cur v : Z) (fuel : nat) :
  cur < v → is_Some (t !! v) →
  (size (filter (λ kv : Z * SubSetObj, (cur < kv.1)%Z) t) < S fuel)%nat →
  (size (filter (λ kv : Z * SubSetObj, (v < kv.1)%Z) t) < fuel)%nat.
Proof.
  intros Hlt [row Hrow] Hsize.
  assert (filter (λ kv : Z * SubSetObj, (v < kv.1)%Z) t
          ⊆ delete v (filter (λ kv : Z * SubSetObj, (cur < kv.1)%Z) t)) as Hsub.
  { apply map_subseteq_spec. intros i x Hi.
    apply map_lookup_filter_Some in Hi as [Hi Hvi]. simpl in Hvi.
    rewrite lookup_delete_ne by lia. apply map_lookup_filter_Some. split; [done|]. simpl. lia. }
  apply map_subseteq_size in Hsub.
  assert (is_Some (filter (λ kv : Z * SubSetObj, (cur < kv.1)%Z) t !! v)) as Hin.
  { exists row. by apply map_lookup_filter_Some. }
  rewrite (map_size_delete_Some _ _ Hin) in Hsub.
  assert (size (filter (λ kv : Z * SubSetObj, (cur < kv.1)%Z) t) ≠ 0%nat).
  { apply map_size_ne_0_lookup. by exists v. }
  lia.
Qed.

Lemma pending_loop_chain fuel st cur dbv :
  (size (filter (λ kv : Z * SubSetObj, (cur < kv.1)%Z) (db_table (m_db st))) < fuel)%nat →
  ∃ sets, pending_loop fuel st cur dbv = Some (Ok sets)
    ∧ pending_chain (db_table (m_db st)) (db_version (m_db st)) cur dbv sets.
Proof.
  revert cur dbv. induction fuel as [|fuel IH]; intros cur dbv Hsize; [lia|].
  simpl. destruct (get_next_pending_version st cur dbv) as [p|] eqn:Hp.
  - destruct (get_next_pending_version_Some _ _ _ _ Hp) as (row & Hrow & Hs & Hq & Hmin).
    rewrite (get_by_version_row st _ row Hrow).
    destruct (IH (query_version p) (snapshot_version p)) as (rest & -> & Hchain).
    { apply (later_rows_shrink _ cur); [apply Hq|by exists row|done]. }
    rewrite Hs in Hchain. eexists. split; [reflexivity|]. simpl. exists row.
    split; [done|]. split; [done|]. split; [done|]. by split.
  - exists []. split; [done|]. simpl. by apply get_next_pending_version_None.
Qed.

Lemma filter_size_le (t : Table) (cur : Z) :
  (size (filter (λ kv : Z * SubSetObj, (cur < kv.1)%Z) t) ≤ size t)%nat.
Proof. apply map_subseteq_size, map_filter_subseteq. Qed.

Lemma pending_chain_sound t dbver cur dbv sets :
  pending_chain t dbver cur dbv sets →
  Forall (λ set, ∃ row, t !! m_version set = Some row
                   ∧ set = set_of_row dbver (m_version set) row
                   ∧ awaits_upload cur dbv (m_version set) row) sets
  ∧ Sorted Z.lt (m_version <$> sets)
  ∧ Sorted Z.le (m_snapshot_version <$> sets).
Proof.
  revert cur dbv. induction sets as [|set rest IH]; intros cur dbv Hc; simpl in *.
  - repeat split; constructor.
  - destruct Hc as (row & Hrow & Hset & Hq & Hmin & Hc).
    destruct (IH _ _ Hc) as (Hall & Hsv & Hss).
    assert (m_snapshot_version set = col_sub_set_snapshot_version row) as Hsnap
      by (by rewrite Hset).
    split; [|split].
    + constructor; [by exists row|].
      eapply Forall_impl; [exact Hall|]. simpl.
      intros s (r & Hr & Hs & (? & ? & ?)). exists r. repeat split; try done.
      * destruct Hq as (? & _). lia.
      * destruct Hq as (_ & _ & ?). lia.
    + constructor; [done|]. destruct rest as [|s rest]; constructor.
      apply Forall_cons in Hall as [(r & _ & _ & (? & _)) _]. done.
    + constructor; [done|]. destruct rest as [|s rest]; constructor.
      apply Forall_cons in Hall as [(r & _ & Hs & (_ & _ & ?)) _].
      rewrite Hsnap. rewrite Hs at 1. done.
Qed.

Lemma get_active_cases st :
  ∃ active, get_active st = Ok active
    ∧ ((∃ row, db_table (m_db st) !! version active = Some row
               ∧ active = set_of_row (db_version (m_db st)) (version active) row
               ∧ col_sub_set_state row = Complete)
       ∨ active = SubscriptionSet_init).
Proof.
  unfold get_active. simpl. case_decide as He; [eexists; split; [done|by right]|].
  destruct (max_key (complete_keys (db_table (m_db st)))) as [k|] eqn:Hk.
  - destruct (max_key_complete_keys _ _ Hk) as (row & Hrow & Hst).
    eexists. split; [simpl; rewrite Hrow; reflexivity|]. left. by exists row.
  - eexists. split; [done|by right].
Qed.


Lemma pending_chain_complete t dbver cur dbv sets :
  snapshots_ordered t →
  (∀ v row, t !! v = Some row → cur < v → dbv ≤ col_sub_set_snapshot_version row) →
  pending_chain t dbver cur dbv sets →
  ∀ v row, t !! v = Some row → cur < v →
    col_sub_set_state row = Pending ∨ col_sub_set_state row = Bootstrapping →
    set_of_row dbver v row ∈ sets.
Proof.
  intros Hord. revert cur dbv.
  induction sets as [|set rest IH]; intros cur dbv Hdbv Hc v row Hrow Hlt Hst; simpl in Hc.
  - destruct (Hc v row Hrow). split; [done|]. split; [done|]. by apply (Hdbv v).
  - destruct Hc as (row0 & Hrow0 & Hset & Hq & Hmin & Hc).
    assert (m_version set ≤ v) as Hle.
    { apply (Hmin v row Hrow). split; [done|]. split; [done|]. by apply (Hdbv v). }
    destruct (decide (v = m_version set)) as [->|Hne].
    + assert (row = row0) as -> by congruence. rewrite <- Hset. apply list_elem_of_here.
    + apply list_elem_of_further. apply (IH (m_version set) (col_sub_set_snapshot_version row0));
        try done; [|lia].
      intros w rw Hw Hlt'. by apply (Hord (m_version set) w row0 rw).
Qed.

(** X6.  Where snapshot versions are not negative and do not decrease
    from a version to a later one, [get_pending_subscriptions] returns
    exactly the sets in state [Pending] or [Bootstrapping] whose version
    is greater than that of the set [get_active] returns.  (With no
    complete version that set has version 0, so that version 0 itself is
    never among them.) *)
Theorem get_pending_subscriptions_exact (fuel : nat) st :
  snapshots_ordered (db_table (m_db st)) →
  (∀ v row, db_table (m_db st) !! v = Some row → 0 ≤ col_sub_set_snapshot_version row) →
  (size (db_table (m_db st)) < fuel)%nat →
  ∃ active sets,
    get_active st = Ok active
    ∧ get_pending_subscriptions fuel st = Some (Ok sets)
    ∧ ∀ set, set ∈ sets ↔
        version active < version set
        ∧ (state set = Pending ∨ state set = Bootstrapping)
        ∧ get_by_version st (version set) = Ok set.
Proof.
  intros Hord Hpos Hfuel. destruct (get_active_cases st) as (active & Hactive & Hcases).
  set (dbv := if decide (state active = Complete) then m_snapshot_version active else 0).
  assert (dbv ≠ -1 ∧ ∀ v row, db_table (m_db st) !! v = Some row → version active < v →
                        dbv ≤ col_sub_set_snapshot_version row) as [Hdbv Hlater].
  { unfold dbv. destruct Hcases as [(row & Hrow & Hset & Hst)| ->].
    - rewrite decide_True by (by rewrite Hset).
      assert (m_snapshot_version active = col_sub_set_snapshot_version row) as ->
        by (by rewrite Hset).
      split; [specialize (Hpos _ _ Hrow); lia|].
      intros v r Hv Hlt. by apply (Hord (version active) v row r).
    - rewrite decide_False by done. split; [done|]. intros v r Hv _. by apply (Hpos v r). }
  destruct (pending_loop_chain fuel st (version active) dbv) as (sets & Hloop & Hchain).
  { pose proof (filter_size_le (db_table (m_db st)) (version active)). lia. }
  exists active, sets. split; [done|]. split.
  { unfold get_pending_subscriptions. rewrite Hactive. fold dbv.
    by rewrite decide_False. }
  destruct (pending_chain_sound _ _ _ _ _ Hchain) as (Hall & _ & _).
  intros set'. split.
  - intros Hin. rewrite Forall_forall in Hall.
    destruct (Hall set' Hin) as (r & Hr & Hs & (? & ? & ?)). unfold version, state.
    split; [done|]. split; [by rewrite Hs|].
    rewrite (get_by_version_row st _ r Hr). f_equal. symmetry. exact Hs.
  - intros (Hlt & Hst & Hget).
    destruct (db_table (m_db st) !! version set') as [r|] eqn:Hr.
    + rewrite (get_by_version_row st _ r Hr) in Hget. injection Hget as Hget.
      pose proof (pending_chain_complete _ _ _ _ _ Hord Hlater Hchain (version set') r Hr Hlt)
        as Hin.
      assert (set_of_row (db_version (m_db st)) (version set') r = set') as Heq by exact Hget.
      rewrite Heq in Hin. apply Hin.
      rewrite <- Hget in Hst. exact Hst.
    + rewrite (get_by_version_no_row st _ Hr) in Hget. case_decide; [|done].
      injection Hget as Hget. rewrite <- Hget in Hst. simpl in Hst.
      by destruct Hst.
Qed.

(** *** The row a session leaves *)

Lemma apply_op_own_row st self o st' self' pk :
  handle_wf self pk → apply_op st self o = Ok (st', self') →
  tr_table (m_tr self') !! pk = tr_table (m_tr self) !! pk
  ∧ tr_version (m_tr self') = tr_version (m_tr self).
Proof.
  intros (Hw & Ho & Hver & Hrow) Hop.
  assert (tr_table (supercede_prior_to (m_tr self) (m_version (base self))) !! pk
          = tr_table (m_tr self) !! pk) as Hsup.
  { rewrite lookup_supercede_prior_to, Hver. by rewrite decide_False by lia. }
  destruct o as [sub|n q g t|q g t|it| |src|ns es|];
    try (match type of Hop with apply_op _ _ ?o = _ =>
           destruct (apply_op_frame st self o st' self') as [_ (Htr & _)];
           [intros ? ?; discriminate|discriminate|done|] end;
         by rewrite Htr).
  - simpl in Hop. apply fmap_Ok in Hop as (h & Hop & [= -> ->]).
    apply update_state_Ok in Hop
      as (_ & _ & _ & _ & [(_ & _ & Htr)|[(_ & _ & _ & Htr)|(_ & _ & _ & Htr)]]);
      by rewrite Htr.
  - simpl in Hop. by apply supercede_all_except_Ok in Hop as [_ ->].
Qed.

Lemma apply_ops_own_row st self ops st' self' pk :
  handle_wf self pk → apply_ops st self ops = Ok (st', self') →
  tr_table (m_tr self') !! pk = tr_table (m_tr self) !! pk
  ∧ tr_version (m_tr self') = tr_version (m_tr self).
Proof.
  revert st self. induction ops as [|o ops IH]; intros st self Hwf Hops; simpl in Hops.
  - by inv_result.
  - apply bind_Ok in Hops as ([st1 self1] & Hop & Hops).
    destruct (apply_op_wf st self o st1 self1 pk Hwf Hop) as [Hwf1 _].
    destruct (apply_op_own_row st self o st1 self1 pk Hwf Hop) as [H1 H2].
    destruct (IH st1 self1 Hwf1 Hops) as [H3 H4]. split; congruence.
Qed.

(** The row and the set a committed session leaves, by the origin of its
    handle. *)
Lemma session_row st o ops st' set :
  session st o ops = Ok (st', set) →
  ∃ row', db_table (m_db st') !! version set = Some row'
    ∧ set = set_of_row (db_version (m_db st')) (version set) row'
    ∧ db_version (m_db st') = db_version (m_db st) + 1
    ∧ match o with
      | from_copy _ =>
          version set = maximum_int (db_table (m_db st)) + 1
          ∧ col_sub_set_snapshot_version row' = db_version (m_db st)
      | from_version v =>
          version set = v
          ∧ ∃ row, db_table (m_db st) !! v = Some row
              ∧ (col_sub_set_state row ≠ Uncommitted →
                 col_sub_set_snapshot_version row' = col_sub_set_snapshot_version row
                 ∧ col_sub_set_subscriptions row' = col_sub_set_subscriptions row)
      end.
Proof.
  intros Hs. unfold session in Hs.
  apply bind_Ok in Hs as (self & Hopen & Hs).
  apply bind_Ok in Hs as ([st1 self1] & Hops & Hs).
  pose proof (apply_ops_db st self ops st1 self1 Hops) as Hdb.
  destruct o as [S|v]; simpl in Hopen.
  - apply make_mutable_copy_inv in Hopen as [Hmax Hself].
    set (pk := maximum_int (db_table (m_db st)) + 1) in *.
    assert (handle_wf self pk) as Hwf.
    { rewrite Hself. repeat split; simpl; try done. rewrite lookup_insert_eq. by eexists. }
    destruct (apply_ops_wf st self ops st1 self1 pk Hwf Hops)
      as [(Hw & Hobj & Hver & [row Hrow]) Hold].
    destruct (apply_ops_own_row st self ops st1 self1 pk Hwf Hops) as [_ Htrv].
    destruct (commit_wf st1 self1 pk row Hw Hobj Hver Hrow)
      as (st2 & set2 & row' & Hc & Htab & Hdbv & _ & Hsnap & _ & _ & Hset & _).
    rewrite Hs in Hc. injection Hc as <- <-.
    assert (version set = pk) as Hv by (by rewrite Hset).
    exists row'. rewrite Hv, Htab, lookup_insert_eq, Hdbv, Hdb. rewrite Hdb in Hset.
    split; [done|]. split; [exact Hset|]. split; [done|]. split; [done|].
    rewrite Hsnap, Hold, Hself. simpl. rewrite Htrv, Hself. done.
  - apply get_mutable_by_version_Ok in Hopen as (row0 & Hrow0 & Hself).
    assert (handle_wf self v) as Hwf.
    { rewrite Hself. repeat split; simpl; try done. }
    destruct (apply_ops_wf st self ops st1 self1 v Hwf Hops)
      as [(Hw & Hobj & Hver & [row Hrow]) Hold].
    destruct (apply_ops_own_row st self ops st1 self1 v Hwf Hops) as [Hown _].
    assert (row = row0) as ->.
    { rewrite Hown, Hself in Hrow. simpl in Hrow. congruence. }
    destruct (commit_wf st1 self1 v row0 Hw Hobj Hver Hrow)
      as (st2 & set2 & row' & Hc & Htab & Hdbv & _ & Hsnap & Hsubs & _ & Hset & _).
    rewrite Hs in Hc. injection Hc as <- <-.
    assert (version set = v) as Hv by (by rewrite Hset).
    exists row'. rewrite Hv, Htab, lookup_insert_eq, Hdbv, Hdb. rewrite Hdb in Hset.
    split; [done|]. split; [exact Hset|]. split; [done|]. split; [done|].
    exists row0. split; [done|]. intros Hst.
    rewrite Hsnap, Hsubs, Hold, Hself. simpl. by rewrite !decide_False.
Qed.

Lemma session_snapshots st o ops st' set :
  rows_ok (db_table (m_db st)) →
  snapshots_increase (db_table (m_db st)) (db_version (m_db st)) →
  session st o ops = Ok (st', set) →
  snapshots_increase (db_table (m_db st')) (db_version (m_db st')).
Proof.
  intros [_ Hrows] [Hinc Hbound] Hs.
  destruct (session_row st o ops st' set Hs) as (row' & Hrow' & _ & Hdbv & Ho).
  pose proof (session_other_rows st o ops st' set Hs) as Hothers.
  assert (∀ v r, db_table (m_db st') !! v = Some r →
            (∃ r0, db_table (m_db st) !! v = Some r0
                   ∧ col_sub_set_snapshot_version r0 = col_sub_set_snapshot_version r)
            ∨ (col_sub_set_snapshot_version r = db_version (m_db st)
               ∧ ∀ w, is_Some (db_table (m_db st) !! w) → w < v)) as Hfrom.
  { intros v r Hv. destruct (decide (v = version set)) as [->|Hne].
    - assert (r = row') as -> by congruence.
      destruct o as [S|pk].
      + destruct Ho as [Hpk Hsnap]. right. split; [done|]. intros w Hw.
        apply maximum_int_ge in Hw. lia.
      + destruct Ho as (Hpk & row & Hrow & Hkeep). left. exists row. rewrite Hpk.
        split; [done|]. destruct (Hrows pk row Hrow) as [_ Hp].
        symmetry. apply Hkeep. destruct Hp as [-> | [-> | [-> | ->]]]; done.
    - destruct (Hothers v Hne) as [Hsame|[Hnone _]]; [|congruence].
      left. exists r. split; [congruence|done]. }
  split.
  - intros v w rv rw Hv Hw Hlt.
    destruct (Hfrom v rv Hv) as [(rv0 & Hv0 & <-)|[Hsv Hallv]],
             (Hfrom w rw Hw) as [(rw0 & Hw0 & <-)|[Hsw Hallw]].
    + by apply (Hinc v w).
    + rewrite Hsw. by apply (Hbound v).
    + assert (w < v) by (apply Hallv; eauto). lia.
    + destruct (decide (v = version set)) as [->|Hne].
      * destruct (Hothers w) as [Hsame|[Hnone _]]; [lia| |congruence].
        assert (w < w) by (apply Hallw; rewrite <- Hsame; eauto). lia.
      * destruct (Hothers v Hne) as [Hsame|[Hnone _]]; [|congruence].
        assert (v < v) by (apply Hallv; rewrite <- Hsame; eauto). lia.
  - intros v r Hv. rewrite Hdbv.
    destruct (Hfrom v r Hv) as [(r0 & Hv0 & <-)|[-> _]]; [|lia].
    specialize (Hbound v r0 Hv0). lia.
Qed.

Lemma SubscriptionStore_new_snapshots db :
  db_table db = ∅ ∨ snapshots_increase (db_table db) (db_version db) →
  snapshots_increase (db_table (m_db (SubscriptionStore_new db)))
                     (db_version (m_db (SubscriptionStore_new db))).
Proof.
  intros Hdb. unfold SubscriptionStore_new. simpl. case_decide as He.
  - simpl. rewrite He. split.
    + intros v w rv rw Hv Hw Hlt.
      apply lookup_insert_Some in Hv as [[<- _]|[_ Hv]]; [|by rewrite lookup_empty in Hv].
      apply lookup_insert_Some in Hw as [[<- _]|[_ Hw]]; [lia|by rewrite lookup_empty in Hw].
    + intros v row Hv.
      apply lookup_insert_Some in Hv as [[_ <-]|[_ Hv]]; [simpl; lia|].
      by rewrite lookup_empty in Hv.
  - by destruct Hdb.
Qed.

Lemma reachable_snapshots_increase allowed st :
  reachable_by allowed st →
  snapshots_increase (db_table (m_db st)) (db_version (m_db st)).
Proof.
  induction 1 as [snapshot|st o ops st' set Hr IH _ Hs|st o ops self st' self' _ IH Ho Ha
                 |st set nw st' fut _ IH Hn|st _ IH].
  - apply SubscriptionStore_new_snapshots. by left.
  - eapply session_snapshots; [|done|done]. by eapply reachable_rows_ok.
  - by rewrite (apply_ops_db st self ops st' self' Ha).
  - by rewrite (get_state_change_notification_db _ _ _ st st' fut eq_refl Hn).
  - apply SubscriptionStore_new_snapshots. by right.
Qed.

Lemma snapshots_increase_ordered t bound :
  snapshots_increase t bound → snapshots_ordered t.
Proof.
  intros [Hinc _] v w rv rw Hv Hw Hlt. specialize (Hinc v w rv rw Hv Hw Hlt). lia.
Qed.

(** X7.  In every store a program can arrive at, the snapshot versions of
    the rows grow strictly with their versions, and all lie below the
    latest snapshot of the database. *)
Theorem snapshot_versions_increase allowed st :
  reachable_by allowed st →
  (∀ v w rv rw,
     db_table (m_db st) !! v = Some rv → db_table (m_db st) !! w = Some rw → v < w →
     col_sub_set_snapshot_version rv < col_sub_set_snapshot_version rw)
  ∧ (∀ v row, db_table (m_db st) !! v = Some row →
       col_sub_set_snapshot_version row < db_version (m_db st))
  ∧ snapshots_ordered (db_table (m_db st)).
Proof.
  intros Hr. pose proof (reachable_snapshots_increase allowed st Hr) as Hinc.
  split; [apply Hinc|]. split; [apply Hinc|]. by eapply snapshots_increase_ordered.
Qed.

(** X8.  A session on an existing version never persists changes to the
    subscriptions: whatever the session inserts, erases or imports, the
    set it commits has the subscriptions and the snapshot version the
    version had before. *)
Theorem commit_of_existing_version_keeps_subscriptions allowed st v ops st' set :
  reachable_by allowed st →
  session st (from_version v) ops = Ok (st', set) →
  ∃ before,
    get_by_version st v = Ok before
    ∧ version set = v
    ∧ get_by_version st' v = Ok set
    ∧ m_subs set = m_subs before
    ∧ m_snapshot_version set = m_snapshot_version before.
Proof.
  intros Hr Hs. destruct (reachable_rows_ok allowed st Hr) as [_ Hrows].
  destruct (session_row st _ ops st' set Hs) as (row' & Hrow' & Hset & _ & Hv & row & Hrow & Hkeep).
  rewrite Hv in *. destruct (Hrows v row Hrow) as [_ Hp].
  destruct Hkeep as [Hsnap Hsubs]; [destruct Hp as [-> | [-> | [-> | ->]]]; done|].
  eexists. split; [by apply get_by_version_row|]. split; [done|].
  split; [by rewrite (get_by_version_row st' v row' Hrow'), Hset|].
  rewrite Hset. simpl. by rewrite Hsnap, Hsubs.
Qed.

Lemma maximum_int_unique (t : Table) (m : Z) :
  is_Some (t !! m) → (∀ k, is_Some (t !! k) → k ≤ m) → maximum_int t = m.
Proof.
  intros Hm Hmax. unfold maximum_int. destruct (max_key t) as [m'|] eqn:Hk.
  - destruct (max_key_Some _ _ Hk) as [Hm' Hmax'].
    specialize (Hmax m' Hm'). specialize (Hmax' m Hm). lia.
  - apply max_key_None in Hk. rewrite Hk, lookup_empty in Hm. by destruct Hm.
Qed.

(** X9.  The latest version never goes back.  A committed session on a
    copy makes the version after the latest one, whatever set was copied,
    and [get_latest] returns the set it committed from then on; a
    committed session on an existing version leaves the latest version
    where it was. *)
Theorem latest_version_after_session allowed st o ops st' set :
  reachable_by allowed st →
  session st o ops = Ok (st', set) →
  ∃ latest latest',
    get_latest st = Ok latest ∧ get_latest st' = Ok latest'
    ∧ match o with
      | from_copy _ => version set = version latest + 1 ∧ latest' = set
      | from_version v => version set = v ∧ v ≤ version latest
                          ∧ version latest' = version latest
      end.
Proof.
  intros Hr Hs. pose proof (reachable_rows_ok allowed st Hr) as Hok.
  pose proof (session_rows_ok st o ops st' set Hok Hs) as [Hne' _].
  destruct Hok as [Hne _].
  destruct (get_latest_row st Hne) as (lrow & Hlrow & ->).
  destruct (get_latest_row st' Hne') as (lrow' & Hlrow' & ->).
  destruct (session_row st o ops st' set Hs) as (row' & Hrow' & Hset & _ & Ho).
  pose proof (session_other_rows st o ops st' set Hs) as Hothers.
  eexists _, _. split; [done|]. split; [done|]. simpl.
  destruct o as [S|v].
  - destruct Ho as [Hpk _]. split; [done|].
    assert (maximum_int (db_table (m_db st')) = version set) as Hmax.
    { apply maximum_int_unique; [by exists row'|].
      intros k [r Hk]. destruct (decide (k = version set)) as [->|Hk']; [done|].
      destruct (Hothers k Hk') as [Hsame|[Hnone _]]; [|congruence].
      assert (k ≤ maximum_int (db_table (m_db st))); [|lia].
      apply maximum_int_ge. rewrite <- Hsame. by exists r. }
    rewrite Hmax in *. rewrite Hset. f_equal. congruence.
  - destruct Ho as (Hpk & row & Hrow & _). split; [done|].
    assert (v ≤ maximum_int (db_table (m_db st))) as Hle
      by (apply maximum_int_ge; by exists row).
    split; [done|].
    apply maximum_int_unique.
    + destruct (decide (maximum_int (db_table (m_db st)) = version set)) as [->|Hk'];
        [by exists row'|].
      destruct (Hothers _ Hk') as [->|[_ ?]]; [by exists lrow|lia].
    + intros k [r Hk]. destruct (decide (k = version set)) as [->|Hk']; [lia|].
      destruct (Hothers k Hk') as [Hsame|[Hnone _]]; [|congruence].
      apply maximum_int_ge. rewrite <- Hsame. by exists r.
Qed.

(** *** The tables of the latest set *)

Lemma sorted_queries_is_Some (S : SubscriptionSet) (c : string) :
  is_Some (sorted_queries S !! c) ↔ c ∈ m_object_class_name <$> m_subs S.
Proof.
  unfold sorted_queries. rewrite lookup_fmap, fmap_is_Some.
  pose proof (table_to_query_of_spec S c) as Hspec.
  destruct (table_to_query_of (m_subs S) !! c) as [qs|].
  - destruct Hspec as (Hne & _ & Hmem). split; [intros _|by eauto].
    destruct qs as [|q qs]; [done|].
    assert ((c, q) ∈ class_query_pairs S) as Hin by (apply Hmem; apply list_elem_of_here).
    apply list_elem_of_fmap in Hin as (sub & Hp & Hin). apply list_elem_of_fmap.
    exists sub. split; [|done]. by injection Hp.
  - split; [by intros [? ?]|]. intros (sub & -> & Hin)%list_elem_of_fmap.
    destruct (Hspec (m_query_string sub)). apply list_elem_of_fmap. by exists sub.
Qed.

(** X10.  [get_tables_for_latest], on a read transaction of the store,
    returns the object classes of the subscriptions of the set
    [get_latest] returns, which are the classes its [to_ext_json] has a
    member for; neither call throws. *)
Theorem get_tables_for_latest_of_latest st :
  ∃ latest tables,
    get_latest st = Ok latest
    ∧ get_tables_for_latest (start_read (m_db st)) = Ok tables
    ∧ tables = list_to_set (m_object_class_name <$> m_subs latest)
    ∧ ∀ c, c ∈ tables ↔ is_Some (sorted_queries latest !! c).
Proof.
  assert (∃ latest, get_latest st = Ok latest
            ∧ get_tables_for_latest (start_read (m_db st))
              = Ok (list_to_set (m_object_class_name <$> m_subs latest)))
    as (latest & Hl & Ht).
  { destruct (decide (db_table (m_db st) = ∅)) as [He|Hne].
    - exists SubscriptionSet_init. unfold get_latest, get_tables_for_latest. simpl.
      by rewrite !decide_True.
    - destruct (get_latest_row st Hne) as (row & Hrow & Hl). eexists. split; [exact Hl|].
      unfold get_tables_for_latest. simpl. rewrite decide_False by done. rewrite Hrow.
      simpl. do 2 f_equal. rewrite <- !list_fmap_compose. by apply list_fmap_ext. }
  exists latest, (list_to_set (m_object_class_name <$> m_subs latest)).
  split; [done|]. split; [done|]. split; [done|].
  intros c. by rewrite elem_of_list_to_set, sorted_queries_is_Some.
Qed.

End Rows.

(** ** The external form is a function of the set of pairs *)

Section ExtJsonSets.
Variable json_escape : string → option string.

(** X11.  [to_ext_json] depends on which pairs of object class and query
    string a set holds, not on how often or in which order it holds them:
    two sets with the same pairs have the same external form. *)
Theorem to_ext_json_set_of_pairs (S1 S2 : SubscriptionSet) :
  (∀ p, p ∈ class_query_pairs S1 ↔ p ∈ class_query_pairs S2) →
  to_ext_json json_escape S1 = to_ext_json json_escape S2.
Proof.
  intros Hsame. rewrite !to_ext_json_sorted_queries.
  enough (sorted_queries S1 = sorted_queries S2) as -> by done.
  apply map_eq. intros c. unfold sorted_queries. rewrite !lookup_fmap.
  pose proof (table_to_query_of_spec S1 c) as H1.
  pose proof (table_to_query_of_spec S2 c) as H2.
  destruct (table_to_query_of (m_subs S1) !! c) as [qs1|],
           (table_to_query_of (m_subs S2) !! c) as [qs2|]; simpl.
  - destruct H1 as (_ & Hnd1 & Hm1), H2 as (_ & Hnd2 & Hm2). f_equal.
    apply stable_sort_Permutation. apply NoDup_Permutation; [done|done|].
    intros q. by rewrite Hm1, Hm2, Hsame.
  - destruct H1 as (Hne & _ & Hm1). destruct qs1 as [|q qs1]; [done|].
    destruct (H2 q). apply Hsame, Hm1, list_elem_of_here.
  - destruct H2 as (Hne & _ & Hm2). destruct qs2 as [|q qs2]; [done|].
    destruct (H1 q). apply Hsame, Hm2, list_elem_of_here.
  - done.
Qed.

End ExtJsonSets.

(** ** Editing the subscriptions *)

Section Edits.

Lemma named_match_spec n sub : named_match n sub = true ↔ m_name sub = Some n.
Proof.
  unfold named_match, has_name, name. destruct (m_name sub) as [m|]; simpl.
  - rewrite bool_decide_eq_true. naive_solver.
  - naive_solver.
Qed.

Lemma anonymous_match_spec c q sub :
  anonymous_match c q sub = true
  ↔ name sub = ""%string ∧ m_object_class_name sub = c ∧ m_query_string sub = q.
Proof.
  unfold anonymous_match. rewrite !andb_true_iff, !bool_decide_eq_true, string_empty_true.
  tauto.
Qed.

Lemma find_if_none {A} (p : A → bool) (l : list A) :
  find_if p l = length l → ∀ x, x ∈ l → p x = false.
Proof.
  intros Hf x Hx. apply list_elem_of_lookup in Hx as [j Hj].
  apply (find_if_skipped p l j x); [|done]. rewrite Hf. by eapply lookup_lt_Some.
Qed.

Lemma insert_or_assign_impl_Ok self it n c q g t self1 it1 b :
  (it ≤ length (m_subs (base self)))%nat →
  insert_or_assign_impl self it n c q g t = Ok (self1, (it1, b)) →
  tr_stage (m_tr self) = transact_Writing ∧ it1 = it
  ∧ ((b = false ∧ (it < length (m_subs (base self)))%nat
      ∧ self1 = with_base self
                  (set_subs (base self) (alter (assign_sub c q t) it (m_subs (base self)))))
     ∨ (b = true ∧ it = length (m_subs (base self))
        ∧ self1 = with_base self
                    (set_subs (base self) (m_subs (base self) ++ [Subscription_new g t n c q])))).
Proof.
  intros Hle Hi. unfold insert_or_assign_impl in Hi.
  apply bind_Ok in Hi as (u & Hw & Hi). apply check_is_mutable_Ok in Hw.
  split; [done|]. case_decide as Hit; injection Hi as <- <- <-.
  - split; [done|]. left. split; [done|]. split; [lia|done].
  - assert (it = length (m_subs (base self))) as -> by lia.
    split; [done|]. right. by repeat split.
Qed.

Lemma update_state_subs m_mgr self new_state es self' :
  update_state m_mgr self new_state es = Ok self' →
  m_subs (base self') = m_subs (base self).
Proof.
  unfold update_state. intros Hu. inv_result.
  destruct new_state, es as [e|], m_mgr as [mgr|]; simpl in Hu;
    repeat case_bool_decide; simpl in Hu; inv_result; done.
Qed.

Lemma import_Ok self src self' :
  import self src = Ok self' →
  self' = with_base self (set_subs (base self) (m_subs src)).
Proof.
  unfold import, clear. intros Hi.
  apply bind_Ok in Hi as (self0 & Hc & Hi).
  apply bind_Ok in Hc as (u & Hw & Hc). apply check_is_mutable_Ok in Hw. inv_result.
  rewrite insert_subs_Ok in Hi by done. by inv_result.
Qed.

Lemma sublist_omap {A B} (f : A → option B) (l k : list A) :
  sublist l k → sublist (omap f l) (omap f k).
Proof.
  induction 1 as [|x l k _ IH|x l k _ IH]; simpl.
  - constructor.
  - destruct (f x); [by constructor|done].
  - destruct (f x); [by apply sublist_cons|done].
Qed.

Lemma sublist_filter_mono {A} (P : A → Prop) `{∀ x, Decision (P x)} (l k : list A) :
  sublist l k → sublist (filter P l) (filter P k).
Proof.
  induction 1 as [|x l k _ IH|x l k _ IH]; rewrite ?filter_cons.
  - constructor.
  - case_decide; [by constructor|done].
  - case_decide; [by apply sublist_cons|done].
Qed.

Lemma no_duplicates_sublist (l k : list Subscription) :
  sublist l k → no_duplicates k → no_duplicates l.
Proof.
  intros Hs [Hn Ha]. split.
  - eapply sublist_NoDup; [exact Hn|]. by apply sublist_omap.
  - eapply sublist_NoDup; [exact Ha|]. by apply fmap_sublist, sublist_filter_mono.
Qed.

Lemma omap_m_name_alter (f : Subscription → Subscription) (i : nat) (l : list Subscription) :
  (∀ sub, m_name (f sub) = m_name sub) →
  omap m_name (alter f i l) = omap m_name l.
Proof.
  intros Hf. revert i. induction l as [|x l IH]; intros [|i]; simpl; try done.
  - by rewrite Hf.
  - destruct (m_name x); [f_equal|]; apply IH.
Qed.

Lemma anonymous_pairs_alter (f : Subscription → Subscription) (i : nat)
    (l : list Subscription) :
  (∀ sub, m_name (f sub) = m_name sub) →
  (∀ sub, l !! i = Some sub → m_name sub = None → pair_of (f sub) = pair_of sub) →
  pair_of <$> filter (λ sub, m_name sub = None) (alter f i l)
  = pair_of <$> filter (λ sub, m_name sub = None) l.
Proof.
  intros Hf. revert i. induction l as [|x l IH]; intros [|i] Hp; simpl; try done.
  - rewrite !filter_cons, Hf. case_decide as Hx; [|done]. simpl. f_equal. by apply Hp.
  - rewrite !filter_cons. case_decide as Hx; simpl; [f_equal|]; apply IH; intros; by apply Hp.
Qed.

Lemma no_duplicates_alter_named c q t it n (l : list Subscription) sub :
  l !! it = Some sub → m_name sub = Some n →
  no_duplicates l → no_duplicates (alter (assign_sub c q t) it l).
Proof.
  intros Hit Hn [Hnames Hanon]. split.
  - by rewrite omap_m_name_alter.
  - rewrite anonymous_pairs_alter; [done|done|]. intros s Hs Hnone. congruence.
Qed.

Lemma no_duplicates_alter_same (t : Timestamp) it (l : list Subscription) sub :
  l !! it = Some sub →
  no_duplicates l →
  no_duplicates (alter (assign_sub (m_object_class_name sub) (m_query_string sub) t) it l).
Proof.
  intros Hit [Hnames Hanon]. split.
  - by rewrite omap_m_name_alter.
  - rewrite anonymous_pairs_alter; [done|done|]. intros s Hs _.
    assert (s = sub) as -> by congruence. done.
Qed.

Lemma no_duplicates_snoc_named g t n c q (l : list Subscription) :
  find_if (named_match n) l = length l →
  no_duplicates l → no_duplicates (l ++ [Subscription_new g t (Some n) c q]).
Proof.
  intros Hf [Hnames Hanon]. split.
  - rewrite omap_app. simpl. apply NoDup_app. split; [done|]. split; [|apply NoDup_singleton].
    intros m Hm ->%list_elem_of_singleton.
    apply list_elem_of_omap in Hm as (sub & Hin & Hsub).
    pose proof (find_if_none _ _ Hf sub Hin) as Hno.
    apply named_match_spec in Hsub. congruence.
  - rewrite filter_app, filter_cons. simpl. by rewrite filter_nil, app_nil_r.
Qed.

Lemma no_duplicates_snoc_anonymous g t c q (l : list Subscription) :
  find_if (anonymous_match c q) l = length l →
  no_duplicates l → no_duplicates (l ++ [Subscription_new g t None c q]).
Proof.
  intros Hf [Hnames Hanon]. split.
  - rewrite omap_app. simpl. by rewrite app_nil_r.
  - rewrite filter_app, filter_cons. simpl. rewrite filter_nil, fmap_app. simpl.
    apply NoDup_app. split; [done|]. split; [|apply NoDup_singleton].
    intros p Hp ->%list_elem_of_singleton.
    apply list_elem_of_fmap in Hp as (sub & Hpair & Hin).
    apply list_elem_of_filter in Hin as [Hnone Hin].
    pose proof (find_if_none _ _ Hf sub Hin) as Hno.
    assert (anonymous_match c q sub = true); [|congruence].
    apply anonymous_match_spec. unfold name. rewrite Hnone.
    unfold pair_of in Hpair. by injection Hpair as <- <-.
Qed.

Lemma apply_op_no_duplicates st self o st' self' :
  keeps_no_duplicates o →
  no_duplicates (m_subs (base self)) →
  apply_op st self o = Ok (st', self') →
  no_duplicates (m_subs (base self')).
Proof.
  intros Hk Hnd Hop. destruct o as [sub|n q g t|q g t|it| |src|ns es|]; simpl in Hop, Hk.
  - done.
  - apply fmap_Ok in Hop as ([h [it b]] & Hop & [= -> ->]).
    unfold insert_or_assign_named in Hop.
    apply insert_or_assign_impl_Ok in Hop as (_ & _ & [(_ & Hlt & ->)|(_ & Hf & ->)]);
      [| |apply find_if_le]; simpl.
    + destruct (find_if_found _ _ Hlt) as (sub & Hsub & Hm).
      apply named_match_spec in Hm. by eapply no_duplicates_alter_named.
    + by apply no_duplicates_snoc_named.
  - apply fmap_Ok in Hop as ([h [it b]] & Hop & [= -> ->]).
    unfold insert_or_assign in Hop.
    apply insert_or_assign_impl_Ok in Hop as (_ & _ & [(_ & Hlt & ->)|(_ & Hf & ->)]);
      [| |apply find_if_le]; simpl.
    + destruct (find_if_found _ _ Hlt) as (sub & Hsub & Hm).
      apply anonymous_match_spec in Hm as (_ & Hc & Hq).
      set (it0 := find_if _ _) in *. clearbody it0. rewrite <- Hc, <- Hq.
      by apply no_duplicates_alter_same.
    + by apply no_duplicates_snoc_anonymous.
  - unfold erase in Hop. apply fmap_Ok in Hop as ([h r] & Hop & [= -> ->]). inv_result.
    case_decide; inv_result. simpl. eapply no_duplicates_sublist; [|done].
    apply sublist_delete.
  - unfold clear in Hop. inv_result. simpl. split; constructor.
  - apply fmap_Ok in Hop as (h & Hop & [= -> ->]). apply import_Ok in Hop as ->. done.
  - apply fmap_Ok in Hop as (h & Hop & [= -> ->]).
    by rewrite (update_state_subs _ _ _ _ _ Hop).
  - by apply supercede_all_except_Ok in Hop as [_ ->].
Qed.

(** X12.  The calls a program edits a set with keep it free of
    duplicates: when no two subscriptions have the same name and no two
    subscriptions without a name hold the same class and query, this is
    still so after any sequence of [insert_or_assign] in either form,
    [erase], [clear], [import] of a set without duplicates,
    [update_state] and [supercede_all_except]. *)
Theorem edits_keep_no_duplicates st self ops st' self' :
  no_duplicates (m_subs (base self)) →
  Forall keeps_no_duplicates ops →
  apply_ops st self ops = Ok (st', self') →
  no_duplicates (m_subs (base self')).
Proof.
  revert st self. induction ops as [|o ops IH]; intros st self Hnd Hall Hops; simpl in Hops.
  - by inv_result.
  - apply bind_Ok in Hops as ([st1 self1] & Hop & Hops).
    apply Forall_cons in Hall as [Ho Hall].
    eapply IH; [|done|done]. by eapply apply_op_no_duplicates.
Qed.

(** *** Inserting twice, erasing, finding *)

Lemma find_if_ext {A} (p q : A → bool) (l : list A) :
  (∀ x, x ∈ l → p x = q x) → find_if p l = find_if q l.
Proof.
  induction l as [|x l IH]; intros Hpq; simpl; [done|].
  rewrite (Hpq x) by apply list_elem_of_here. destruct (q x); [done|].
  f_equal. apply IH. intros y Hy. apply Hpq. by apply list_elem_of_further.
Qed.

Lemma find_if_le_index {A} (p : A → bool) (l : list A) (i : nat) (x : A) :
  l !! i = Some x → p x = true → (find_if p l ≤ i)%nat.
Proof.
  intros Hi Hp. destruct (decide (find_if p l ≤ i)%nat) as [|Hgt]; [done|].
  rewrite (find_if_skipped p l i x) in Hp by (done || lia). done.
Qed.

(** Where the search of [insert_or_assign] stops when it is repeated
    after the call. *)
Lemma find_if_after_insert_or_assign (p : Subscription → bool) self n c q g t self1 it b :
  insert_or_assign_impl self (find_if p (m_subs (base self))) n c q g t = Ok (self1, (it, b)) →
  p (Subscription_new g t n c q) = true →
  (∀ sub, p sub = true → p (assign_sub c q t sub) = true) →
  find_if p (m_subs (base self1)) = it
  ∧ tr_stage (m_tr self1) = transact_Writing
  ∧ ∃ sub1, m_subs (base self1) !! it = Some sub1 ∧ p sub1 = true
      ∧ m_object_class_name sub1 = c ∧ m_query_string sub1 = q
      ∧ (b = true → m_subs (base self1) = m_subs (base self) ++ [sub1]
                     ∧ it = length (m_subs (base self))).
Proof.
  intros Hi Hnew Hassign.
  apply insert_or_assign_impl_Ok in Hi as (Hw & -> & [(-> & Hlt & ->)|(-> & Hf & ->)]);
    [| |apply find_if_le]; simpl.
  - destruct (find_if_found _ _ Hlt) as (sub & Hsub & Hp).
    assert (alter (assign_sub c q t) (find_if p (m_subs (base self))) (m_subs (base self))
            !! find_if p (m_subs (base self)) = Some (assign_sub c q t sub)) as Hat.
    { by rewrite list_lookup_alter_eq, Hsub. }
    split; [|split; [done|]].
    + apply find_if_unique.
      * intros j y Hj Hy. rewrite list_lookup_alter_ne in Hy by lia.
        by apply (find_if_skipped p (m_subs (base self)) j y).
      * exists (assign_sub c q t sub). split; [done|]. by apply Hassign.
    + exists (assign_sub c q t sub). split; [done|]. split; [by apply Hassign|].
      split; [done|]. split; [done|]. discriminate.
  - assert ((m_subs (base self) ++ [Subscription_new g t n c q])
            !! find_if p (m_subs (base self)) = Some (Subscription_new g t n c q)) as Hat.
    { by apply list_lookup_middle. }
    split; [|split; [done|]].
    + apply find_if_unique.
      * intros j y Hj Hy. rewrite lookup_app_l in Hy by lia.
        by apply (find_if_skipped p (m_subs (base self)) j y).
      * by exists (Subscription_new g t n c q).
    + exists (Subscription_new g t n c q). by repeat split.
Qed.

Lemma insert_or_assign_impl_found self it n c q g t :
  tr_stage (m_tr self) = transact_Writing →
  (it < length (m_subs (base self)))%nat →
  insert_or_assign_impl self it n c q g t
  = Ok (with_base self
          (set_subs (base self) (alter (assign_sub c q t) it (m_subs (base self)))),
        (it, false)).
Proof.
  intros Hw Hlt. unfold insert_or_assign_impl. rewrite (check_is_mutable_writing _ Hw). simpl.
  rewrite decide_True by lia. done.
Qed.

(** X13.  [insert_or_assign(name, query)] is an update when it is
    repeated: a second call with the same name, whatever its query,
    returns the position the first call returned, inserts nothing, and
    leaves the length and every other subscription as they were; the
    subscription at that position keeps its identifier, its creation time
    and its name, and takes the class and the query of the second call. *)
Theorem insert_or_assign_named_again self n q1 g1 t1 self1 it b q2 g2 t2 :
  insert_or_assign_named self n q1 g1 t1 = Ok (self1, (it, b)) →
  ∃ self2 sub1 sub2,
    insert_or_assign_named self1 n q2 g2 t2 = Ok (self2, (it, false))
    ∧ length (m_subs (base self2)) = length (m_subs (base self1))
    ∧ m_subs (base self1) !! it = Some sub1
    ∧ m_subs (base self2) !! it = Some sub2
    ∧ m_id sub2 = m_id sub1 ∧ m_created_at sub2 = m_created_at sub1
    ∧ m_name sub2 = Some n ∧ m_updated_at sub2 = t2
    ∧ pair_of sub2 = (query_class_name q2, query_description q2)
    ∧ ∀ j, j ≠ it → m_subs (base self2) !! j = m_subs (base self1) !! j.
Proof.
  intros Hi. unfold insert_or_assign_named in Hi.
  apply find_if_after_insert_or_assign in Hi
    as (Hfind & Hw & sub1 & Hsub1 & Hp & _);
    [|by apply named_match_spec|intros sub; by rewrite !named_match_spec].
  apply named_match_spec in Hp.
  assert (it < length (m_subs (base self1)))%nat as Hlt by (by eapply lookup_lt_Some).
  eexists _, sub1, _. split.
  { unfold insert_or_assign_named. rewrite Hfind. by apply insert_or_assign_impl_found. }
  simpl. rewrite length_alter, list_lookup_alter_eq, Hsub1. simpl.
  repeat split; try done. intros j Hj. by rewrite list_lookup_alter_ne.
Qed.

(** X14.  [insert_or_assign(query)] finds what it inserted: a second call
    with the same query returns the position the first call returned,
    inserts nothing, and changes nothing but the update time of the
    subscription at that position. *)
Theorem insert_or_assign_again self q g1 t1 self1 it b g2 t2 :
  insert_or_assign self q g1 t1 = Ok (self1, (it, b)) →
  ∃ self2 sub1,
    insert_or_assign self1 q g2 t2 = Ok (self2, (it, false))
    ∧ m_subs (base self1) !! it = Some sub1
    ∧ m_subs (base self2)
      = <[it := {| m_id := m_id sub1; m_created_at := m_created_at sub1;
                   m_updated_at := t2; m_name := m_name sub1;
                   m_object_class_name := m_object_class_name sub1;
                   m_query_string := m_query_string sub1 |}]> (m_subs (base self1)).
Proof.
  intros Hi. unfold insert_or_assign in Hi.
  apply find_if_after_insert_or_assign in Hi
    as (Hfind & Hw & sub1 & Hsub1 & Hp & Hc & Hq & _).
  2:{ by apply anonymous_match_spec. }
  2:{ intros sub. rewrite !anonymous_match_spec. unfold name. simpl. tauto. }
  assert (it < length (m_subs (base self1)))%nat as Hlt by (by eapply lookup_lt_Some).
  eexists _, sub1. split.
  { unfold insert_or_assign. rewrite Hfind. by apply insert_or_assign_impl_found. }
  split; [done|]. simpl.
  apply list_eq. intros j. destruct (decide (j = it)) as [->|Hj].
  - rewrite list_lookup_alter_eq, list_lookup_insert_eq by done. rewrite Hsub1. simpl.
    unfold assign_sub. by rewrite Hc, Hq.
  - by rewrite list_lookup_alter_ne, list_lookup_insert_ne.
Qed.

(** X15.  [erase] undoes an insertion: when [insert_or_assign], in either
    form, reports that it inserted, erasing at the position it returned
    gives back the subscriptions there were before the call, and returns
    [end()]. *)
Theorem erase_undoes_insert self n q g t self1 it :
  insert_or_assign_named self n q g t = Ok (self1, (it, true))
  ∨ insert_or_assign self q g t = Ok (self1, (it, true)) →
  ∃ self2,
    erase self1 it = Ok (self2, it)
    ∧ m_subs (base self2) = m_subs (base self)
    ∧ it = length (m_subs (base self2)).
Proof.
  intros Hi.
  assert (tr_stage (m_tr self1) = transact_Writing
          ∧ ∃ sub1, m_subs (base self1) = m_subs (base self) ++ [sub1]
                    ∧ it = length (m_subs (base self))) as (Hw & sub1 & Hsubs & Hit).
  { destruct Hi as [Hi|Hi].
    - unfold insert_or_assign_named in Hi.
      apply find_if_after_insert_or_assign in Hi as (_ & Hw & sub1 & _ & _ & _ & _ & Hb);
        [|by apply named_match_spec|intros sub; by rewrite !named_match_spec].
      split; [done|]. exists sub1. by apply Hb.
    - unfold insert_or_assign in Hi.
      apply find_if_after_insert_or_assign in Hi as (_ & Hw & sub1 & _ & _ & _ & _ & Hb).
      2:{ by apply anonymous_match_spec. }
      2:{ intros sub. rewrite !anonymous_match_spec. unfold name. simpl. tauto. }
      split; [done|]. exists sub1. by apply Hb. }
  eexists. unfold erase. rewrite (check_is_mutable_writing _ Hw). simpl.
  rewrite decide_False by (rewrite Hsubs, length_app; simpl; lia).
  split; [reflexivity|]. simpl. rewrite Hsubs, Hit, delete_middle, app_nil_r. done.
Qed.

(** X16.  [find] after [insert_or_assign(name, query)]: a subscription of
    the class and query is found no later than at the position the call
    returned, and for a name that is not empty [find(name)] returns that
    very position. *)
Theorem find_after_insert_or_assign_named self n q g t self1 it b :
  insert_or_assign_named self n q g t = Ok (self1, (it, b)) →
  (find_query (base self1) q ≤ it)%nat
  ∧ (find_name (base self1) n ≤ it)%nat
  ∧ (n ≠ ""%string → find_name (base self1) n = it).
Proof.
  intros Hi. unfold insert_or_assign_named in Hi.
  apply find_if_after_insert_or_assign in Hi
    as (Hfind & Hw & sub1 & Hsub1 & Hp & Hc & Hq & _);
    [|by apply named_match_spec|intros sub; by rewrite !named_match_spec].
  apply named_match_spec in Hp. unfold find_query, find_name.
  split; [|split].
  - apply (find_if_le_index _ _ it sub1); [done|].
    by rewrite andb_true_iff, !bool_decide_eq_true.
  - apply (find_if_le_index _ _ it sub1); [done|].
    rewrite bool_decide_eq_true. unfold name. by rewrite Hp.
  - intros Hn. rewrite <- Hfind. apply find_if_ext. intros sub _.
    unfold named_match, has_name, name.
    destruct (m_name sub) as [m|]; simpl; [done|].
    by rewrite bool_decide_eq_false_2.
Qed.

End Edits.

(** ** Promises and the requests that wait for them *)

Section Waiters.
Context `{HostDecls}.

Lemma omap_fmap_Some {A B C} (f : B → option C) (g : A → B) (h : A → C) (l : list A) :
  (∀ x, f (g x) = Some (h x)) → omap f (g <$> l) = h <$> l.
Proof.
  intros Hfg. induction l as [|x l IH]; [done|].
  simpl. rewrite Hfg. f_equal. apply IH.
Qed.

Lemma resolved_promise_fulfil s v e (l : list NotificationRequest) :
  omap resolved_promise (fulfil s v e <$> l) = nr_promise <$> l.
Proof. apply omap_fmap_Some. intros req. unfold fulfil. by repeat case_match. Qed.

Lemma resolved_promise_superseded (l : list NotificationRequest) :
  omap resolved_promise ((λ req, EvPromiseValue (nr_promise req) Superseded) <$> l)
  = nr_promise <$> l.
Proof. by apply omap_fmap_Some. Qed.

(** Resolving the requests that satisfy [P] moves their promises from
    the held ones to the resolved ones. *)
Lemma promises_moved (P : NotificationRequest → Prop) `{∀ req, Decision (P req)}
    (pending : list NotificationRequest) (resolved : list nat) :
  (nr_promise <$> filter (λ req, ¬ P req) pending)
    ++ resolved ++ (nr_promise <$> filter P pending)
  ≡ₚ (nr_promise <$> pending) ++ resolved.
Proof.
  rewrite <- (filter_app_complement P pending) at 3. rewrite fmap_app.
  rewrite (Permutation_app_comm resolved). rewrite !app_assoc.
  apply Permutation_app_tail. apply Permutation_app_comm.
Qed.

Lemma supercede_all_except_promises st self st' self' :
  promises_accounted st →
  supercede_all_except st self = Ok (st', self') →
  promises_accounted st'.
Proof.
  unfold supercede_all_except, promises_accounted, pending_promises, resolved_promises.
  intros Hinv Hs. case_decide; [|done]. injection Hs as <- <-. simpl.
  rewrite omap_app, resolved_promise_superseded, <- Hinv.
  apply (promises_moved (λ req, nr_version req ≠ version (base self))).
Qed.

Lemma apply_op_promises st self o st' self' :
  promises_accounted st → apply_op st self o = Ok (st', self') → promises_accounted st'.
Proof.
  intros Hinv Hop.
  destruct o as [sub|n q g t|q g t|it| |src|ns es|];
    try (match type of Hop with apply_op _ _ ?o = _ =>
           destruct (apply_op_frame st self o st' self') as [-> _];
           [intros ? ?; discriminate|discriminate|done|done] end).
  - simpl in Hop. by apply fmap_Ok in Hop as (h & Hop & [= -> ->]).
  - by eapply supercede_all_except_promises.
Qed.

Lemma apply_ops_promises st self ops st' self' :
  promises_accounted st → apply_ops st self ops = Ok (st', self') → promises_accounted st'.
Proof.
  revert st self. induction ops as [|o ops IH]; intros st self Hinv Hops; simpl in Hops.
  - by inv_result.
  - apply bind_Ok in Hops as ([st1 self1] & Hop & Hops).
    eapply IH; [|done]. by eapply apply_op_promises.
Qed.

Lemma commit_next_promise st self st' set :
  commit (Some st) self = Ok (st', set) → m_next_promise st' = m_next_promise st.
Proof.
  unfold commit. case_decide; [done|]. simpl. intros Hc.
  apply bind_Ok in Hc as ([self1 tr] & Hw & Hc). simpl in Hc.
  apply bind_Ok in Hc as (set' & Hg & Hc). injection Hc as <- <-.
  by case_decide.
Qed.

Lemma commit_promises st self pk st' set :
  handle_wf self pk →
  promises_accounted st →
  commit (Some st) self = Ok (st', set) →
  promises_accounted st'.
Proof.
  intros (Hw & Hobj & Hver & [row Hrow]) Hinv Hc.
  destruct (commit_wf st self pk row Hw Hobj Hver Hrow)
    as (st2 & set2 & row' & Hc' & _ & _ & _ & _ & _ & _ & _ & _ & Hpend & Htrace).
  rewrite Hc in Hc'. injection Hc' as <- <-.
  unfold promises_accounted, pending_promises, resolved_promises.
  rewrite Hpend, Htrace, !omap_app, resolved_promise_fulfil. simpl.
  assert (omap resolved_promise
            (if decide (post_commit_state self = Pending)
             then [EvOnNewSubscriptionSet pk] else []) = []) as ->
    by (by case_decide).
  rewrite app_nil_r.
  unfold promises_accounted, pending_promises, resolved_promises in Hinv.
  rewrite (commit_next_promise st self st' set Hc), <- Hinv.
  apply (promises_moved (λ req, finishes (post_commit_state self) pk req)).
Qed.

Lemma get_state_change_notification_promises st set notify_when st' fut :
  promises_accounted st →
  get_state_change_notification (Some st) set notify_when = Ok (st', fut) →
  promises_accounted st'.
Proof.
  unfold get_state_change_notification, promises_accounted, pending_promises,
    resolved_promises. simpl. intros Hinv Hn.
  case_decide; [by inv_result|].
  apply bind_Ok in Hn as ([cur err] & _ & Hn).
  case_decide; [by inv_result|]. destruct (state_ge cur notify_when); [by inv_result|].
  injection Hn as <- <-. cbn [m_pending_notifications m_trace m_next_promise].
  rewrite fmap_app, seq_S. cbn [fmap list_fmap nr_promise Nat.add].
  rewrite <- Hinv, <- !app_assoc.
  apply Permutation_app_head, Permutation_app_comm.
Qed.

Lemma reachable_promises allowed st :
  reachable_by allowed st → promises_accounted st.
Proof.
  induction 1 as [snapshot|st o ops st' set _ IH _ Hs|st o ops self st' self' _ IH Ho Ha
                 |st set nw st' fut _ IH Hn|st _ IH].
  - unfold promises_accounted, SubscriptionStore_new. simpl. done.
  - unfold session in Hs.
    apply bind_Ok in Hs as (self & Hopen & Hs).
    apply bind_Ok in Hs as ([st1 self1] & Hops & Hs).
    destruct (open_rows_inv st o self Hopen) as (pk & Hwf & _).
    destruct (apply_ops_wf st self ops st1 self1 pk Hwf Hops) as [Hwf1 _].
    eapply commit_promises; [done| |done]. by eapply apply_ops_promises.
  - by eapply apply_ops_promises.
  - by eapply get_state_change_notification_promises.
  - unfold promises_accounted, SubscriptionStore_new. simpl. done.
Qed.

(** X17.  In every store a program can arrive at, every promise the
    store has made is still held or has been resolved: no promise is
    resolved twice, none is held twice, and none that is held has been
    resolved. *)
Theorem promises_resolved_once allowed st :
  reachable_by allowed st →
  pending_promises st ++ resolved_promises st ≡ₚ seq 0 (m_next_promise st)
  ∧ NoDup (resolved_promises st)
  ∧ NoDup (pending_promises st)
  ∧ ∀ p, p ∈ pending_promises st → p ∉ resolved_promises st.
Proof.
  intros Hr. pose proof (reachable_promises allowed st Hr) as Hinv.
  split; [done|].
  assert (NoDup (pending_promises st ++ resolved_promises st)) as Hnd.
  { unfold promises_accounted in Hinv. rewrite Hinv. apply NoDup_seq. }
  apply NoDup_app in Hnd as (Hp & Hdisj & Hres). by repeat split.
Qed.

(** *** What a commit tells the requests that wait *)

Lemma waiters_kept_refl pk st : waiters_kept pk st st.
Proof.
  exists []. rewrite app_nil_r. split; [done|]. split; [done|]. split; [done|].
  intros req Hreq. by left.
Qed.

Lemma waiters_kept_trans pk st1 st2 st3 :
  waiters_kept pk st1 st2 → waiters_kept pk st2 st3 → waiters_kept pk st1 st3.
Proof.
  intros (new1 & Ht1 & Hsub1 & Hown1 & Hgo1) (new2 & Ht2 & Hsub2 & Hown2 & Hgo2).
  exists (new1 ++ new2). rewrite Ht2, Ht1, app_assoc. split; [done|].
  split; [by intros req ?; apply Hsub1, Hsub2|].
  split; [by intros req ? ?; apply Hown2; [apply Hown1|]|].
  intros req Hreq. rewrite elem_of_app.
  destruct (Hgo1 req Hreq) as [Hin|Hres]; [|by right; left].
  destruct (Hgo2 req Hin) as [Hin'|Hres]; [by left|by right; right].
Qed.

Lemma apply_op_waiters st self o st' self' pk :
  handle_wf self pk → apply_op st self o = Ok (st', self') → waiters_kept pk st st'.
Proof.
  intros (_ & _ & Hver & _) Hop.
  destruct o as [sub|n q g t|q g t|it| |src|ns es|];
    try (match type of Hop with apply_op _ _ ?o = _ =>
           destruct (apply_op_frame st self o st' self') as [-> _];
           [intros ? ?; discriminate|discriminate|done|apply waiters_kept_refl] end).
  - simpl in Hop. apply fmap_Ok in Hop as (h & Hop & [= -> ->]). apply waiters_kept_refl.
  - simpl in Hop. unfold supercede_all_except in Hop. case_decide; [|done].
    injection Hop as <- <-. unfold version in *. rewrite Hver.
    eexists. simpl. split; [reflexivity|]. split; [|split].
    + intros req Hreq. by apply list_elem_of_filter in Hreq as [_ ?].
    + intros req Hreq Hv. apply list_elem_of_filter. split; [|done]. by intros ?.
    + intros req Hreq. destruct (decide (nr_version req = pk)) as [Hv|Hv].
      * left. apply list_elem_of_filter. split; [|done]. by intros ?.
      * right. apply list_elem_of_fmap. exists req. split; [done|].
        by apply list_elem_of_filter.
Qed.

Lemma apply_ops_waiters st self ops st' self' pk :
  handle_wf self pk → apply_ops st self ops = Ok (st', self') → waiters_kept pk st st'.
Proof.
  revert st self. induction ops as [|o ops IH]; intros st self Hwf Hops; simpl in Hops.
  - inv_result. apply waiters_kept_refl.
  - apply bind_Ok in Hops as ([st1 self1] & Hop & Hops).
    destruct (apply_op_wf st self o st1 self1 pk Hwf Hop) as [Hwf1 _].
    apply (waiters_kept_trans pk st st1 st').
    + exact (apply_op_waiters _ _ _ _ _ _ Hwf Hop).
    + exact (IH _ _ Hwf1 Hops).
Qed.

(** A session, taken apart: the store and the handle at the time of the
    commit, and what the commit does to the requests and the trace. *)
Lemma session_waiters st o ops st' set :
  session st o ops = Ok (st', set) →
  ∃ st1 self1 new,
    waiters_kept (version set) st st1
    ∧ state set = post_commit_state self1
    ∧ (m_error_str (base self1) ≠ ""%string → error_str set = m_error_str (base self1))
    ∧ m_pending_notifications st' =
        filter (λ req, ¬ finishes (state set) (version set) req) (m_pending_notifications st1)
    ∧ m_trace st' = m_trace st1 ++ new
    ∧ ∀ req, req ∈ m_pending_notifications st1 →
        finishes (state set) (version set) req →
        fulfil (state set) (version set) (m_error_str (base self1)) req ∈ new.
Proof.
  intros Hs. unfold session in Hs.
  apply bind_Ok in Hs as (self & Hopen & Hs).
  apply bind_Ok in Hs as ([st1 self1] & Hops & Hs).
  destruct (open_rows_inv st o self Hopen) as (pk & Hwf & _).
  destruct (apply_ops_wf st self ops st1 self1 pk Hwf Hops) as [(Hw & Hobj & Hver & [row Hrow]) _].
  destruct (commit_wf st1 self1 pk row Hw Hobj Hver Hrow)
    as (st2 & set2 & row' & Hc & _ & _ & Hstate & _ & _ & Herr & Hset & _ & Hpend & Htrace).
  rewrite Hs in Hc. injection Hc as <- <-.
  assert (version set = pk) as Hv by (by rewrite Hset).
  assert (state set = post_commit_state self1) as Hst by (by rewrite Hset).
  exists st1, self1. eexists. rewrite Hv, Hst.
  split; [by eapply apply_ops_waiters|]. split; [done|]. split; [|split; [done|]].
  - intros Hne. rewrite Hset. unfold error_str. simpl. rewrite Herr.
    destruct (string_empty (m_error_str (base self1))) eqn:He; [|done].
    by apply string_empty_true in He.
  - split; [exact Htrace|]. intros req Hreq Hfin.
    rewrite !elem_of_app. right. left. apply list_elem_of_fmap. exists req.
    split; [done|]. by apply list_elem_of_filter.
Qed.

(** X18.  A session that commits its set in state [Complete] tells every
    request that waited for an older version that the version is
    superseded: the request is registered no more, and its promise has
    been resolved with [Superseded] in the course of the session. *)
Theorem older_waiters_are_superseded st o ops st' set req :
  session st o ops = Ok (st', set) →
  state set = Complete →
  req ∈ m_pending_notifications st →
  nr_version req < version set →
  (req ∉ m_pending_notifications st')
  ∧ ∃ new, m_trace st' = m_trace st ++ new
      ∧ EvPromiseValue (nr_promise req) Superseded ∈ new.
Proof.
  intros Hs Hst Hreq Hlt.
  destruct (session_waiters st o ops st' set Hs)
    as (st1 & self1 & new & (new1 & Ht1 & _ & _ & Hgo) & _ & _ & Hpend & Htrace & Hfin).
  assert (finishes (state set) (version set) req) as Hf.
  { unfold finishes. rewrite Hst. apply Is_true_true.
    rewrite orb_true_iff. right. rewrite andb_true_iff, !bool_decide_eq_true. by split. }
  split.
  - rewrite Hpend. intros [Hno _]%list_elem_of_filter. by apply Hno.
  - exists (new1 ++ new). rewrite Htrace, Ht1, app_assoc. split; [done|].
    rewrite elem_of_app. destruct (Hgo req Hreq) as [Hin|Hres]; [right|by left].
    specialize (Hfin req Hin Hf). unfold fulfil in Hfin. rewrite Hst in Hfin.
    rewrite bool_decide_eq_false_2 in Hfin by done. simpl in Hfin.
    by rewrite bool_decide_eq_true_2 in Hfin.
Qed.

(** X19.  What the commit of a version tells a request that waits for
    this very version: when the committed state is [Error] the promise is
    resolved with an error, whose message, unless it is empty, is the one
    the committed set carries; otherwise it is resolved with the committed
    state when that state has reached the one the request waits for; and
    otherwise the request stays registered. *)
Theorem waiter_of_committed_version st o ops st' set req :
  session st o ops = Ok (st', set) →
  req ∈ m_pending_notifications st →
  nr_version req = version set →
  ∃ new, m_trace st' = m_trace st ++ new
    ∧ if decide (state set = Error)
      then (req ∉ m_pending_notifications st')
           ∧ ∃ msg, EvPromiseError (nr_promise req) msg ∈ new
               ∧ (msg ≠ ""%string → msg = error_str set)
      else if state_ge (state set) (nr_notify_when req)
      then (req ∉ m_pending_notifications st')
           ∧ EvPromiseValue (nr_promise req) (state set) ∈ new
      else req ∈ m_pending_notifications st'.
Proof.
  intros Hs Hreq Hv.
  destruct (session_waiters st o ops st' set Hs)
    as (st1 & self1 & new & (new1 & Ht1 & _ & Hown & _) & _ & Herr & Hpend & Htrace & Hfin).
  pose proof (Hown req Hreq Hv) as Hin.
  exists (new1 ++ new). rewrite Htrace, Ht1, app_assoc. split; [done|].
  assert (finishes (state set) (version set) req
          = bool_decide (state set = Error) || state_ge (state set) (nr_notify_when req))
    as Hfinishes.
  { unfold finishes. rewrite (bool_decide_eq_true_2 _ Hv). simpl.
    rewrite (bool_decide_eq_false_2 (nr_version req < version set)) by lia.
    by rewrite andb_false_r, orb_false_r. }
  assert (fulfil (state set) (version set) (m_error_str (base self1)) req
          = if bool_decide (state set = Error)
            then EvPromiseError (nr_promise req) (m_error_str (base self1))
            else EvPromiseValue (nr_promise req) (state set)) as Hfulfil.
  { unfold fulfil. rewrite (bool_decide_eq_true_2 _ Hv), andb_true_r.
    by rewrite (bool_decide_eq_false_2 (nr_version req < version set)) by lia. }
  specialize (Hfin req Hin). rewrite Hfulfil, Hfinishes in Hfin.
  assert (req ∈ m_pending_notifications st'
          ↔ ¬ (bool_decide (state set = Error) || state_ge (state set) (nr_notify_when req)))
    as Hstill.
  { rewrite Hpend, list_elem_of_filter, Hfinishes. tauto. }
  destruct (decide (state set = Error)) as [He|He].
  - rewrite Hstill. rewrite (bool_decide_eq_true_2 _ He) in *. simpl in *. split; [tauto|].
    exists (m_error_str (base self1)). split.
    + rewrite elem_of_app. right. by apply Hfin.
    + intros Hne. symmetry. by apply Herr.
  - rewrite (bool_decide_eq_false_2 _ He) in *. simpl in *.
    destruct (state_ge (state set) (nr_notify_when req)) eqn:Hge; rewrite Hstill; simpl in *.
    + split; [tauto|]. rewrite elem_of_app. right. by apply Hfin.
    + tauto.
Qed.

(** *** Reading back *)



(** X21.  Once a session has committed its set in state [Complete], the
    older versions read back as superseded: [get_by_version] returns the
    set made for a superseded version, [refresh] turns a set of such a
    version obtained before the session into it, and
    [get_state_change_notification] on such a set returns a ready future
    with [Superseded] and registers nothing.  A store opened anew on the
    same database has the watermark of its initialiser again, and for an
    older version not below that one [get_by_version] throws
    [KeyNotFound]. *)
Theorem superseded_versions_read_back allowed st o ops st' set old notify_when :
  reachable_by allowed st →
  session st o ops = Ok (st', set) →
  state set = Complete →
  version old < version set →
  get_by_version st' (version old) = Ok (SubscriptionSet_superseded (version old))
  ∧ (m_cur_version old ≤ db_version (m_db st) →
     refresh (Some st') old = Ok (SubscriptionSet_superseded (version old)))
  ∧ get_state_change_notification (Some st') old notify_when = Ok (st', make_ready Superseded)
  ∧ (init_min_outstanding_version ≤ version old →
     get_by_version (SubscriptionStore_new (m_db st')) (version old) = Throw KeyNotFound).
Proof.
  intros Hr Hs Hst Hlt.
  pose proof (reachable_complete_is_oldest allowed st Hr) as Hold.
  destruct (session_complete_inv st o ops st' set Hold Hs) as [_ Hc].
  destruct (Hc Hst) as [Hgone Hmark]. unfold version in *.
  pose proof (Hgone (m_version old) Hlt) as Hnone.
  destruct (session_row st o ops st' set Hs) as (row' & Hrow' & _ & Hdbv & _).
  assert (get_by_version st' (m_version old) = Ok (SubscriptionSet_superseded (m_version old)))
    as Hget.
  { rewrite (get_by_version_no_row st' _ Hnone). by rewrite decide_True by lia. }
  split; [done|]. split; [|split].
  - intros Hcur. unfold refresh. simpl. unfold would_refresh.
    rewrite bool_decide_eq_true_2 by lia. done.
  - unfold get_state_change_notification. simpl. unfold version.
    by rewrite decide_True by lia.
  - intros Hinit.
    assert (db_table (m_db st') ≠ ∅) as Hne.
    { intros He. by rewrite He, lookup_empty in Hrow'. }
    assert (m_db (SubscriptionStore_new (m_db st')) = m_db st') as Hdb.
    { unfold SubscriptionStore_new. simpl. by rewrite decide_False. }
    rewrite get_by_version_no_row by (by rewrite Hdb).
    unfold SubscriptionStore_new at 1. simpl. by rewrite decide_False by lia.
Qed.

(** X22.  [refresh] keeps the version of a set and is idempotent: what
    it returns is returned unchanged by a second call on the same store. *)
Theorem refresh_idempotent st set set' :
  refresh (Some st) set = Ok set' →
  version set' = version set ∧ refresh (Some st) set' = Ok set'.
Proof.
  unfold refresh. simpl. destruct (would_refresh st (m_cur_version set)) eqn:Hstale.
  - intros Hget. destruct (db_table (m_db st) !! version set) as [row|] eqn:Hrow.
    + rewrite (get_by_version_row st _ row Hrow) in Hget. injection Hget as <-.
      split; [done|]. unfold would_refresh. simpl.
      by rewrite bool_decide_eq_false_2 by lia.
    + pose proof Hget as Hget'. rewrite (get_by_version_no_row st _ Hrow) in Hget.
      case_decide; [|done]. injection Hget as <-. split; [done|].
      destruct (would_refresh st (m_cur_version (SubscriptionSet_superseded (version set))));
        [exact Hget'|done].
  - intros [= <-]. split; [done|]. by rewrite Hstale.
Qed.

End Waiters.

(** ** The properties at the example stores *)

Lemma ex_store2_reachable : @reachable ex_host ex_store2.
Proof.
  apply (@reachable_session ex_host _ ex_store1 (from_version 1)
           [op_update_state Complete None] ex_store2 ex_set2).
  - apply ex_store1_reachable. exact I.
  - exact I.
  - vm_compute. reflexivity.
Defined.

Lemma ex_store3_reachable : @reachable ex_host ex_store3.
Proof.
  apply (@reachable_session ex_host _ ex_store2 (from_copy ex_set1)
           [op_insert_or_assign_named "young" ex_query2 8%N 200] ex_store3 ex_set3).
  - exact ex_store2_reachable.
  - exact I.
  - vm_compute. reflexivity.
Defined.

Lemma ex_store4_reachable : @reachable ex_host ex_store4.
Proof.
  apply (@reachable_session ex_host _ ex_store3 (from_copy ex_set3)
           [op_update_state Bootstrapping None] ex_store4 ex_set4).
  - exact ex_store3_reachable.
  - exact I.
  - vm_compute. reflexivity.
Defined.

Lemma ex_store1_waiting1_reachable : @reachable ex_host ex_store1_waiting1.
Proof.
  apply (@reachable_notification ex_host _ ex_store1 ex_set1 Complete
           ex_store1_waiting1 (future_of 0)).
  - apply ex_store1_reachable. exact I.
  - vm_compute. reflexivity.
Defined.

(** X1, witness: marking version 1 of the example store complete leaves
    the row of version 1, and version 0, the older one, is gone. *)
Lemma session_writes_own_row_only_witness :
  ex_session2 = Ok (ex_store2, ex_set2)
  ∧ is_Some (db_table (m_db ex_store2) !! version ex_set2)
  ∧ (db_table (m_db ex_store2) !! 0 = db_table (m_db ex_store1) !! 0
     ∨ (db_table (m_db ex_store2) !! 0 = None ∧ 0 < version ex_set2)).
Proof.
  assert (ex_session2 = Ok (ex_store2, ex_set2)) as Hs by (vm_compute; reflexivity).
  split; [exact Hs|].
  destruct (@session_writes_own_row_only ex_host ex_store1 (from_version 1)
              [op_update_state Complete None] ex_store2 ex_set2 Hs) as (Hown & Hothers & _).
  split; [exact Hown|]. apply Hothers. vm_compute. discriminate.
Defined.

(** X2, witness: the example store with versions 1, 2 and 3. *)
Lemma persisted_rows_invariant_witness :
  @reachable ex_host ex_store4
  ∧ db_table (m_db ex_store4) ≠ ∅
  ∧ ∀ v row, db_table (m_db ex_store4) !! v = Some row →
      0 ≤ v
      ∧ col_sub_set_state row ≠ Uncommitted ∧ col_sub_set_state row ≠ Superseded.
Proof.
  split; [exact ex_store4_reachable|].
  exact (@persisted_rows_invariant ex_host _ ex_store4 ex_store4_reachable).
Defined.

(** X3, witness: in the example store with versions 1, 2 and 3 the
    latest set is one [get_by_version] returns, and no version is
    greater. *)
Lemma latest_and_active_of_reachable_witness :
  @reachable ex_host ex_store4
  ∧ ∃ latest active,
      @get_latest ex_host ex_store4 = Ok latest
      ∧ @get_active ex_host ex_store4 = Ok active
      ∧ @get_by_version ex_host ex_store4 (version latest) = Ok latest
      ∧ ∀ v, is_Some (db_table (m_db ex_store4) !! v) → v ≤ version latest.
Proof.
  split; [exact ex_store4_reachable|].
  destruct (@latest_and_active_of_reachable ex_host _ ex_store4 ex_store4_reachable)
    as (latest & active & Hl & Ha & Hg & Hmax & _).
  exists latest, active. repeat split; assumption.
Defined.


Lemma ex_store4_snapshots_not_negative :
  ∀ v row, db_table (m_db ex_store4) !! v = Some row → 0 ≤ col_sub_set_snapshot_version row.
Proof.
  assert (map_Forall (λ _ row, 0 ≤ col_sub_set_snapshot_version row)
            (db_table (m_db ex_store4))) as Hall.
  { apply (bool_decide_unpack _). vm_compute. reflexivity. }
  intros v row Hrow. exact (Hall v row Hrow).
Defined.

(** X6, witness: in the example store, whose version 1 is complete, the
    sets that wait for their upload are those of versions 2 and 3. *)
Lemma get_pending_subscriptions_exact_witness :
  snapshots_ordered (db_table (m_db ex_store4))
  ∧ (size (db_table (m_db ex_store4)) < 4)%nat
  ∧ ∃ active sets,
      @get_active ex_host ex_store4 = Ok active
      ∧ @get_pending_subscriptions ex_host 4 ex_store4 = Some (Ok sets)
      ∧ ∀ set, set ∈ sets ↔
          version active < version set
          ∧ (state set = Pending ∨ state set = Bootstrapping)
          ∧ @get_by_version ex_host ex_store4 (version set) = Ok set.
Proof.
  assert (snapshots_ordered (db_table (m_db ex_store4))) as Hord.
  { eapply snapshots_increase_ordered.
    exact (@reachable_snapshots_increase ex_host _ ex_store4 ex_store4_reachable). }
  assert (size (db_table (m_db ex_store4)) < 4)%nat as Hfuel by (vm_compute; lia).
  split; [exact Hord|]. split; [exact Hfuel|].
  exact (@get_pending_subscriptions_exact ex_host 4%nat ex_store4 Hord
           ex_store4_snapshots_not_negative Hfuel).
Defined.

(** X7, witness: the example store with versions 1, 2 and 3. *)
Lemma snapshot_versions_increase_witness :
  @reachable ex_host ex_store4
  ∧ ∀ v row, db_table (m_db ex_store4) !! v = Some row →
      col_sub_set_snapshot_version row < db_version (m_db ex_store4).
Proof.
  split; [exact ex_store4_reachable|].
  exact (proj1 (proj2 (@snapshot_versions_increase ex_host _ ex_store4 ex_store4_reachable))).
Defined.

(** X8, witness: a session on version 1 that clears the subscriptions
    commits version 1 with the subscription it had. *)
Lemma commit_of_existing_version_keeps_subscriptions_witness :
  @reachable ex_host ex_store1
  ∧ ∃ st' set before,
      ex_session_clear = Ok (st', set)
      ∧ @get_by_version ex_host ex_store1 1 = Ok before
      ∧ m_subs set = m_subs before.
Proof.
  assert (@reachable ex_host ex_store1) as Hr by (apply ex_store1_reachable; exact I).
  split; [exact Hr|].
  destruct ex_session_clear as [[st' set]|e] eqn:Hs; [|vm_compute in Hs; discriminate Hs].
  destruct (@commit_of_existing_version_keeps_subscriptions ex_host _ ex_store1 1 [op_clear]
              st' set Hr Hs) as (before & Hb & _ & _ & Hsubs & _).
  exists st', set, before. repeat split; assumption.
Defined.

(** X9, witness: the copy committed on the example store whose latest
    version is 1 is version 2, and is the latest set afterwards. *)
Lemma latest_version_after_session_witness :
  @reachable ex_host ex_store2
  ∧ ex_session3 = Ok (ex_store3, ex_set3)
  ∧ ∃ latest,
      @get_latest ex_host ex_store2 = Ok latest
      ∧ @get_latest ex_host ex_store3 = Ok ex_set3
      ∧ version ex_set3 = version latest + 1.
Proof.
  assert (ex_session3 = Ok (ex_store3, ex_set3)) as Hs by (vm_compute; reflexivity).
  split; [exact ex_store2_reachable|]. split; [exact Hs|].
  destruct (@latest_version_after_session ex_host _ ex_store2 (from_copy ex_set1)
              [op_insert_or_assign_named "young" ex_query2 8%N 200] ex_store3 ex_set3
              ex_store2_reachable Hs) as (latest & latest' & Hl & Hl' & Hv & Heq).
  exists latest. split; [exact Hl|]. split; [by rewrite <- Heq|exact Hv].
Defined.

(** X11, witness: a set that holds one of its three pairs twice and a
    set that holds each once. *)
Lemma to_ext_json_set_of_pairs_witness :
  (∀ p, p ∈ class_query_pairs ex_json_set1 ↔ p ∈ class_query_pairs ex_json_set3)
  ∧ to_ext_json ex_escape ex_json_set1 = to_ext_json ex_escape ex_json_set3.
Proof.
  assert (∀ p, p ∈ class_query_pairs ex_json_set1 ↔ p ∈ class_query_pairs ex_json_set3)
    as Hsame.
  { intros p. unfold class_query_pairs, ex_json_set1, ex_json_set3. simpl.
    rewrite !elem_of_cons, !elem_of_nil. tauto. }
  split; [exact Hsame|].
  exact (to_ext_json_set_of_pairs ex_escape ex_json_set1 ex_json_set3 Hsame).
Defined.

(** X12, witness: two insertions and an erasure on the copy of version
    1. *)
Lemma edits_keep_no_duplicates_witness :
  no_duplicates (m_subs (base ex_mutable_new))
  ∧ Forall keeps_no_duplicates ex_edits
  ∧ ∃ st' self',
      apply_ops ex_store1 ex_mutable_new ex_edits = Ok (st', self')
      ∧ no_duplicates (m_subs (base self')).
Proof.
  assert (no_duplicates (m_subs (base ex_mutable_new))) as Hnd.
  { split; vm_compute; [apply NoDup_nil_2|apply NoDup_singleton]. }
  assert (Forall keeps_no_duplicates ex_edits) as Hall.
  { repeat (apply Forall_cons; split; [exact I|]). apply Forall_nil_2. }
  split; [exact Hnd|]. split; [exact Hall|].
  destruct (apply_ops ex_store1 ex_mutable_new ex_edits) as [[st' self']|e] eqn:Hops;
    [|vm_compute in Hops; discriminate Hops].
  exists st', self'. split; [reflexivity|].
  exact (edits_keep_no_duplicates ex_store1 ex_mutable_new ex_edits st' self' Hnd Hall Hops).
Defined.

(** X13, witness: the name ["young"] inserted and then given another
    query on the copy of version 1. *)
Lemma insert_or_assign_named_again_witness :
  ∃ self1 it b self2,
    insert_or_assign_named ex_mutable_new "young" ex_query2 8%N 200 = Ok (self1, (it, b))
    ∧ insert_or_assign_named self1 "young" ex_query 9%N 300 = Ok (self2, (it, false))
    ∧ length (m_subs (base self2)) = length (m_subs (base self1)).
Proof.
  destruct (insert_or_assign_named ex_mutable_new "young" ex_query2 8%N 200)
    as [[self1 [it b]]|e] eqn:Hi; [|vm_compute in Hi; discriminate Hi].
  destruct (insert_or_assign_named_again ex_mutable_new "young" ex_query2 8%N 200
              self1 it b ex_query 9%N 300 Hi) as (self2 & sub1 & sub2 & H2 & Hlen & _).
  exists self1, it, b, self2. repeat split; assumption.
Defined.

(** X14, witness: the same query inserted twice on the copy of version
    1. *)
Lemma insert_or_assign_again_witness :
  ∃ self1 it b self2,
    insert_or_assign ex_mutable_new ex_query2 8%N 200 = Ok (self1, (it, b))
    ∧ insert_or_assign self1 ex_query2 9%N 300 = Ok (self2, (it, false)).
Proof.
  destruct (insert_or_assign ex_mutable_new ex_query2 8%N 200)
    as [[self1 [it b]]|e] eqn:Hi; [|vm_compute in Hi; discriminate Hi].
  destruct (insert_or_assign_again ex_mutable_new ex_query2 8%N 200 self1 it b 9%N 300 Hi)
    as (self2 & sub1 & H2 & _).
  exists self1, it, b, self2. split; [reflexivity|exact H2].
Defined.

(** X15, witness: a query inserted in the copy of version 1 and erased
    again. *)
Lemma erase_undoes_insert_witness :
  ∃ self1 self2,
    insert_or_assign ex_mutable_new ex_query2 8%N 200 = Ok (self1, (1%nat, true))
    ∧ erase self1 1 = Ok (self2, 1%nat)
    ∧ m_subs (base self2) = m_subs (base ex_mutable_new).
Proof.
  destruct (insert_or_assign ex_mutable_new ex_query2 8%N 200)
    as [[self1 [it b]]|e] eqn:Hi; [|vm_compute in Hi; discriminate Hi].
  assert (it = 1%nat ∧ b = true) as [-> ->].
  { vm_compute in Hi. injection Hi as _ <- <-. by split. }
  destruct (erase_undoes_insert ex_mutable_new "" ex_query2 8%N 200 self1 1%nat
              (or_intror Hi)) as (self2 & He & Hsubs & _).
  exists self1, self2. repeat split; assumption.
Defined.

(** X16, witness: the name ["young"] is found where it was inserted. *)
Lemma find_after_insert_or_assign_named_witness :
  ∃ self1 it b,
    insert_or_assign_named ex_mutable_new "young" ex_query2 8%N 200 = Ok (self1, (it, b))
    ∧ find_name (base self1) "young" = it.
Proof.
  destruct (insert_or_assign_named ex_mutable_new "young" ex_query2 8%N 200)
    as [[self1 [it b]]|e] eqn:Hi; [|vm_compute in Hi; discriminate Hi].
  destruct (find_after_insert_or_assign_named ex_mutable_new "young" ex_query2 8%N 200
              self1 it b Hi) as (_ & _ & Hfind).
  exists self1, it, b. split; [reflexivity|]. apply Hfind. discriminate.
Defined.

(** X17, witness: the example store with one request registered. *)
Lemma promises_resolved_once_witness :
  @reachable ex_host ex_store1_waiting1
  ∧ pending_promises ex_store1_waiting1 ++ resolved_promises ex_store1_waiting1
    ≡ₚ seq 0 (m_next_promise ex_store1_waiting1).
Proof.
  split; [exact ex_store1_waiting1_reachable|].
  exact (proj1 (@promises_resolved_once ex_host _ ex_store1_waiting1
                  ex_store1_waiting1_reachable)).
Defined.

(** X18, witness: the request that waits for version 0 when version 1 is
    marked complete. *)
Lemma older_waiters_are_superseded_witness :
  ex_session5 = Ok (ex_store5, ex_set5)
  ∧ state ex_set5 = Complete
  ∧ ex_request0 ∈ m_pending_notifications ex_store1_waiting0
  ∧ nr_version ex_request0 < version ex_set5
  ∧ ex_request0 ∉ m_pending_notifications ex_store5.
Proof.
  assert (ex_session5 = Ok (ex_store5, ex_set5)) as Hs by (vm_compute; reflexivity).
  assert (state ex_set5 = Complete) as Hst by (vm_compute; reflexivity).
  assert (ex_request0 ∈ m_pending_notifications ex_store1_waiting0) as Hreq.
  { vm_compute. apply list_elem_of_here. }
  assert (nr_version ex_request0 < version ex_set5) as Hlt by (vm_compute; reflexivity).
  split; [exact Hs|]. split; [exact Hst|]. split; [exact Hreq|]. split; [exact Hlt|].
  exact (proj1 (@older_waiters_are_superseded ex_host ex_store1_waiting0 (from_version 1)
                  [op_update_state Complete None] ex_store5 ex_set5 ex_request0
                  Hs Hst Hreq Hlt)).
Defined.

(** X19, witness: the request that waits for version 1 to be complete
    when version 1 is marked complete. *)
Lemma waiter_of_committed_version_witness :
  ex_session6 = Ok (ex_store6, ex_set6)
  ∧ ex_request1 ∈ m_pending_notifications ex_store1_waiting1
  ∧ nr_version ex_request1 = version ex_set6
  ∧ ∃ new, m_trace ex_store6 = m_trace ex_store1_waiting1 ++ new
      ∧ EvPromiseValue 0 Complete ∈ new.
Proof.
  assert (ex_session6 = Ok (ex_store6, ex_set6)) as Hs by (vm_compute; reflexivity).
  assert (ex_request1 ∈ m_pending_notifications ex_store1_waiting1) as Hreq.
  { vm_compute. apply list_elem_of_here. }
  assert (nr_version ex_request1 = version ex_set6) as Hv by (vm_compute; reflexivity).
  split; [exact Hs|]. split; [exact Hreq|]. split; [exact Hv|].
  destruct (@waiter_of_committed_version ex_host ex_store1_waiting1 (from_version 1)
              [op_update_state Complete None] ex_store6 ex_set6 ex_request1 Hs Hreq Hv)
    as (new & Htrace & Hcases).
  exists new. split; [exact Htrace|].
  assert (state ex_set6 = Complete) as Hst by (vm_compute; reflexivity).
  rewrite Hst in Hcases. rewrite decide_False in Hcases by discriminate.
  exact (proj2 Hcases).
Defined.


(** X21, witness: version 0 after version 1 was marked complete. *)
Lemma superseded_versions_read_back_witness :
  @reachable ex_host ex_store1
  ∧ ex_session2 = Ok (ex_store2, ex_set2)
  ∧ state ex_set2 = Complete
  ∧ version ex_set0 < version ex_set2
  ∧ @get_by_version ex_host ex_store2 (version ex_set0)
    = Ok (@SubscriptionSet_superseded ex_host (version ex_set0))
  ∧ @get_state_change_notification ex_host (Some ex_store2) ex_set0 Complete
    = Ok (ex_store2, make_ready Superseded).
Proof.
  assert (@reachable ex_host ex_store1) as Hr by (apply ex_store1_reachable; exact I).
  assert (ex_session2 = Ok (ex_store2, ex_set2)) as Hs by (vm_compute; reflexivity).
  assert (state ex_set2 = Complete) as Hst by (vm_compute; reflexivity).
  assert (version ex_set0 < version ex_set2) as Hlt by (vm_compute; reflexivity).
  split; [exact Hr|]. split; [exact Hs|]. split; [exact Hst|]. split; [exact Hlt|].
  destruct (@superseded_versions_read_back ex_host _ ex_store1 (from_version 1)
              [op_update_state Complete None] ex_store2 ex_set2 ex_set0 Complete
              Hr Hs Hst Hlt) as (Hget & _ & Hn & _).
  split; [exact Hget|exact Hn].
Defined.

(** X22, witness: the set of version 0 refreshed after version 1 was
    marked complete. *)
Lemma refresh_idempotent_witness :
  ∃ set',
    @refresh ex_host (Some ex_store2) ex_set0 = Ok set'
    ∧ version set' = version ex_set0
    ∧ @refresh ex_host (Some ex_store2) set' = Ok set'.
Proof.
  destruct (@refresh ex_host (Some ex_store2) ex_set0) as [set'|e] eqn:Hr;
    [|vm_compute in Hr; discriminate Hr].
  exists set'. split; [reflexivity|].
  exact (@refresh_idempotent ex_host ex_store2 ex_set0 set' Hr).
Defined.
